(** * Scenario simulation engines: a shallow embedding

    The four engines of [src/models] (GameTheory.ts, EPR.ts with the
    evolutionary optimizer, ProspectTheory.ts) are embedded as Rocq functions.

    Conventions of the embedding.
    - A JavaScript [number] is an exact rational ([Q]) in the game, EPR and
      evolutionary engines, whose arithmetic is [+ - * /], [Math.floor],
      [Math.min] and [Math.max]; it is a real ([R]) in the prospect-theory
      engine, which calls [Math.pow] and [Math.exp].  Rounding, overflow and
      the non-finite values are outside the model, except where the code
      produces them from finite data ([0/0], [-Infinity] as a loop seed,
      [undefined] from an index out of range): those are written out.
    - [Math.random()] reads the next element of a stream of draws
      [rnd : nat -> number]; the position in the stream is threaded through
      the code in the order in which the source calls [Math.random()].
    - An instance of a simulator class is a record of its fields; a method is
      a function from the record to its result and the updated record.
    - Reading a property of [undefined] throws a [TypeError], and [Array(n)]
      throws a [RangeError] when [n] is not an array length; a computation
      that may throw returns a [completion]. *)

From Stdlib Require Import String List Bool Arith ZArith QArith Qround Lia Lra.
From Stdlib Require Import Reals Lqa.
Import ListNotations.

(** ** Completions and the stream of random draws *)

Inductive exn : Type := TypeError | RangeError.

Inductive completion (A : Type) : Type :=
| Normal (a : A)
| Throw (e : exn).

Arguments Normal {A} a.
Arguments Throw {A} e.

Definition cbind {A B : Type} (c : completion A) (k : A -> completion B)
  : completion B :=
  match c with
  | Normal a => k a
  | Throw e => Throw e
  end.

Declare Scope completion_scope.
Delimit Scope completion_scope with completion.
Notation "'try' x <- c1 ; c2" := (cbind c1 (fun x => c2))
  (at level 10, x name, c1 at level 100, c2 at level 200) : completion_scope.
Notation "'try' ' p <- c1 ; c2" := (cbind c1 (fun x => match x with p => c2 end))
  (at level 10, p pattern, c1 at level 100, c2 at level 200) : completion_scope.
Open Scope completion_scope.

(** [arr[i] = v] for an index inside the array. *)
Fixpoint set_nth {A : Type} (l : list A) (i : nat) (v : A) : list A :=
  match l, i with
  | [], _ => []
  | _ :: t, O => v :: t
  | h :: t, S j => h :: set_nth t j v
  end.

(** Numbers on which [<] and [>] are decided. *)
Definition Qltb (a b : Q) : bool := negb (Qle_bool b a).
Definition Qgtb (a b : Q) : bool := Qltb b a.

(** [x || d] on numbers: [0] is falsy, [undefined] is falsy. *)
Definition num_or (x : option Q) (d : Q) : Q :=
  match x with
  | Some q => if Qeq_bool q 0 then d else q
  | None => d
  end.

(** [Math.floor(r * n)] as an array index. *)
Definition floor_index (r : Q) (n : nat) : nat :=
  Z.to_nat (Qfloor (r * inject_Z (Z.of_nat n))).

(** [{ field: d, ...config }]: a field of the argument replaces the default
    when it is present. *)
Definition spread {A : Type} (d : A) (o : option A) : A :=
  match o with Some a => a | None => d end.

Module Math.
Definition min (a b : Q) : Q := if Qle_bool a b then a else b.
Definition max (a b : Q) : Q := if Qle_bool a b then b else a.
End Math.

(** ** GameTheory.ts *)

Module GameTheory.

Record GameTheoryConfig : Type := {
  players : nat;
  strategies : list string;
  payoffs : list (list (list Q));
  iterations : nat
}.

Record GameTheoryResult : Type := {
  equilibrium : list (option string);   (* [None]: [undefined] label *)
  res_payoffs : list (option Q);        (* [None]: [undefined] payoff *)
  convergence : list (option Q);        (* [None]: [NaN], from [0 / 0] *)
  res_iterations : nat
}.

(** The constructor: the defaults, overridden by the fields of the argument
    that are present. *)
Record PartialConfig : Type := {
  p_players : option nat;
  p_strategies : option (list string);
  p_payoffs : option (list (list (list Q)));
  p_iterations : option nat
}.

Definition constructor (config : PartialConfig) : GameTheoryConfig :=
  {| players := spread 2%nat (p_players config);
     strategies := spread ["Cooperate"; "Defect"]%string (p_strategies config);
     payoffs := spread [ [ [3; 3]; [1; 4] ]; [ [4; 1]; [2; 2] ] ]
                       (p_payoffs config);
     iterations := spread 100%nat (p_iterations config) |}.

(** [getPayoff]: the two-player lookup when the profile has two entries,
    the constant [payoffs[0][0][player] || 0] otherwise. *)
Definition getPayoff (cfg : GameTheoryConfig) (player : nat) (strats : list nat)
  : completion (option Q) :=
  if (length strats =? 2)%nat then
    match nth_error (payoffs cfg) (nth 0 strats 0%nat) with
    | None => Throw TypeError
    | Some row =>
        match nth_error row (nth 1 strats 0%nat) with
        | None => Throw TypeError
        | Some cell => Normal (nth_error cell player)
        end
    end
  else
    match nth_error (payoffs cfg) 0 with
    | None => Throw TypeError
    | Some row =>
        match nth_error row 0 with
        | None => Throw TypeError
        | Some cell => Normal (Some (num_or (nth_error cell player) 0))
        end
    end.

(** [payoff > bestPayoff], where [bestPayoff] starts at [-Infinity] ([None])
    and [payoff] may be [undefined] ([None]), which compares false. *)
Definition payoff_gt (payoff : option Q) (bestPayoff : option Q) : bool :=
  match payoff, bestPayoff with
  | None, _ => false
  | Some _, None => true
  | Some p, Some b => Qgtb p b
  end.

(** The loop of [findBestResponse], from candidate [strategy] on, with
    [todo] candidates left. *)
Fixpoint bestResponseLoop (cfg : GameTheoryConfig) (player : nat)
  (currentStrategies : list nat) (todo strategy bestStrategy : nat)
  (bestPayoff : option Q) : completion nat :=
  match todo with
  | O => Normal bestStrategy
  | S todo' =>
      let testStrategies := set_nth currentStrategies player strategy in
      try payoff <- getPayoff cfg player testStrategies;
      if payoff_gt payoff bestPayoff
      then bestResponseLoop cfg player currentStrategies todo' (S strategy)
             strategy payoff
      else bestResponseLoop cfg player currentStrategies todo' (S strategy)
             bestStrategy bestPayoff
  end.

Definition findBestResponse (cfg : GameTheoryConfig) (player : nat)
  (currentStrategies : list nat) : completion nat :=
  bestResponseLoop cfg player currentStrategies (length (strategies cfg))
    0%nat 0%nat None.

(** The inner loop of [simulate]: players [player], [player + 1], ... are
    updated in place, one after the other. *)
Fixpoint respondFrom (cfg : GameTheoryConfig) (todo player : nat)
  (playerStrategies : list nat) : completion (list nat) :=
  match todo with
  | O => Normal playerStrategies
  | S todo' =>
      try bestResponse <- findBestResponse cfg player playerStrategies;
      respondFrom cfg todo' (S player)
        (set_nth playerStrategies player bestResponse)
  end.

Definition round (cfg : GameTheoryConfig) (playerStrategies : list nat)
  : completion (list nat) :=
  respondFrom cfg (players cfg) 0%nat playerStrategies.

Fixpoint count_matches (current previous : list nat) : nat :=
  match current, previous with
  | c :: cs, p :: ps => ((if (c =? p)%nat then 1 else 0) + count_matches cs ps)%nat
  | c :: cs, [] => count_matches cs []       (* [previous[i]] is [undefined] *)
  | [], _ => 0%nat
  end.

Definition ratio (a b : nat) : option Q :=
  match b with
  | O => None                                   (* [0 / 0] *)
  | S _ => Some (inject_Z (Z.of_nat a) / inject_Z (Z.of_nat b))
  end.

Definition calculateConvergence (history : list (list nat)) : option Q :=
  match rev history with
  | current :: previous :: _ =>
      ratio (count_matches current previous) (length current)
  | _ => Some 0
  end.

Definition converged_enough (converged : option Q) : bool :=
  match converged with
  | Some c => Qgtb c (99 # 100)
  | None => false
  end.

(** The outer loop of [simulate], with [todo] iterations left. *)
Fixpoint iterate (cfg : GameTheoryConfig) (todo : nat)
  (playerStrategies : list nat) (strategyHistory : list (list nat))
  (conv : list (option Q)) : completion (list nat * list (option Q)) :=
  match todo with
  | O => Normal (playerStrategies, conv)
  | S todo' =>
      let strategyHistory := strategyHistory ++ [playerStrategies] in
      try playerStrategies <- round cfg playerStrategies;
      let converged := calculateConvergence strategyHistory in
      let conv := conv ++ [converged] in
      if converged_enough converged then Normal (playerStrategies, conv)
      else iterate cfg todo' playerStrategies strategyHistory conv
  end.

Fixpoint calculatePayoffsFrom (cfg : GameTheoryConfig) (todo player : nat)
  (strats : list nat) : completion (list (option Q)) :=
  match todo with
  | O => Normal []
  | S todo' =>
      try p <- getPayoff cfg player strats;
      try ps <- calculatePayoffsFrom cfg todo' (S player) strats;
      Normal (p :: ps)
  end.

Definition calculatePayoffs (cfg : GameTheoryConfig) (strats : list nat)
  : completion (list (option Q)) :=
  calculatePayoffsFrom cfg (players cfg) 0%nat strats.

(** The initial profile: one draw per player. *)
Definition initialStrategies (cfg : GameTheoryConfig) (rnd : nat -> Q)
  : list nat :=
  map (fun i => floor_index (rnd i) (length (strategies cfg)))
      (seq 0 (players cfg)).

Definition simulateFrom (cfg : GameTheoryConfig) (initial : list nat)
  : completion GameTheoryResult :=
  try '(playerStrategies, conv) <- iterate cfg (iterations cfg) initial [] [];
  try finalPayoffs <- calculatePayoffs cfg playerStrategies;
  Normal {| equilibrium := map (nth_error (strategies cfg)) playerStrategies;
            res_payoffs := finalPayoffs;
            convergence := conv;
            res_iterations := length conv |}.

Definition simulate (cfg : GameTheoryConfig) (rnd : nat -> Q)
  : completion GameTheoryResult :=
  simulateFrom cfg (initialStrategies cfg rnd).

Definition prisonersDilemmaConfig (its : nat) : GameTheoryConfig :=
  constructor
    {| p_players := Some 2%nat;
       p_strategies := Some ["Cooperate"; "Defect"]%string;
       p_payoffs := Some [ [ [3; 3]; [0; 5] ]; [ [5; 0]; [1; 1] ] ];
       p_iterations := Some its |}.

Definition prisonersDilemma (its : nat) (rnd : nat -> Q)
  : completion GameTheoryResult :=
  simulate (prisonersDilemmaConfig its) rnd.

Definition coordinationGame (its : nat) : GameTheoryConfig :=
  constructor
    {| p_players := Some 2%nat;
       p_strategies := Some ["Strategy A"; "Strategy B"]%string;
       p_payoffs := Some [ [ [2; 2]; [0; 0] ]; [ [0; 0]; [1; 1] ] ];
       p_iterations := Some its |}.

Definition hawkDoveConfig (its : nat) : GameTheoryConfig :=
  constructor
    {| p_players := Some 2%nat;
       p_strategies := Some ["Hawk"; "Dove"]%string;
       p_payoffs := Some [ [ [-10; -10]; [4; 1] ]; [ [1; 4]; [2; 2] ] ];
       p_iterations := Some its |}.

Definition hawkDove (its : nat) (rnd : nat -> Q)
  : completion GameTheoryResult :=
  simulate (hawkDoveConfig its) rnd.

Definition federationDilemmaConfig (its : nat) : GameTheoryConfig :=
  constructor
    {| p_players := Some 2%nat;
       p_strategies := Some ["Share Data"; "Hoard Data"]%string;
       p_payoffs := Some [ [ [3; 3]; [1; 4] ]; [ [4; 1]; [2; 2] ] ];
       p_iterations := Some its |}.

Definition federationDilemma (its : nat) (rnd : nat -> Q)
  : completion GameTheoryResult :=
  simulate (federationDilemmaConfig its) rnd.

Definition generatePayoffMatrix (cfg : GameTheoryConfig)
  : list string * list (list (list Q)) :=
  (strategies cfg, payoffs cfg).

(** [strategies.indexOf(s)]: the first index that holds [s], [-1] when there
    is none; an [undefined] label is not an element of a [string[]]. *)
Fixpoint indexOfFrom (l : list string) (s : string) (i : Z) : Z :=
  match l with
  | [] => (-1)%Z
  | x :: t => if String.eqb x s then i else indexOfFrom t s (i + 1)%Z
  end.

Definition indexOf (l : list string) (s : option string) : Z :=
  match s with
  | Some s => indexOfFrom l s 0%Z
  | None => (-1)%Z
  end.

Record NashEquilibrium : Type := {
  ne_strategies : list Z;
  ne_payoffs : list (option Q)
}.

Definition findNashEquilibrium (cfg : GameTheoryConfig) (rnd : nat -> Q)
  : completion NashEquilibrium :=
  try result <- simulate cfg rnd;
  Normal {| ne_strategies := map (indexOf (strategies cfg)) (equilibrium result);
            ne_payoffs := res_payoffs result |}.

(** [Array(n)] on a number: the length of the new array, or a [RangeError]
    when [n] is not an integer from 0 to 2^32 - 1. *)
Definition arrayLength (n : Q) : completion nat :=
  if Qeq_bool (inject_Z (Qfloor n)) n
     && (0 <=? Qfloor n)%Z && (Qfloor n <? 2 ^ 32)%Z
  then Normal (Z.to_nat (Qfloor n))
  else Throw RangeError.

(** The configuration as a caller writes it: the number of players is any
    number. *)
Record GivenConfig : Type := {
  given_players : option Q;
  given_strategies : option (list string);
  given_payoffs : option (list (list (list Q)));
  given_iterations : option nat
}.

(** [new GameTheorySimulator(config).simulate()].  The first thing
    [simulate] evaluates is [Array(players)]; the count that passes is the
    one every loop and array of the run uses. *)
Definition simulateGiven (config : GivenConfig) (rnd : nat -> Q)
  : completion GameTheoryResult :=
  try n <- arrayLength (spread 2 (given_players config));
  simulate (constructor {| p_players := Some n;
                           p_strategies := given_strategies config;
                           p_payoffs := given_payoffs config;
                           p_iterations := given_iterations config |}) rnd.

End GameTheory.

(** ** Code that draws random numbers

    A computation that calls [Math.random()] reads the stream [rnd] at the
    current position and moves the position on. *)

Section Random.
Variable num : Type.

Definition Rand (A : Type) : Type := (nat -> num) -> nat -> A * nat.

Definition ret {A : Type} (a : A) : Rand A := fun _ pos => (a, pos).

Definition bind {A B : Type} (m : Rand A) (k : A -> Rand B) : Rand B :=
  fun rnd pos => let (a, pos') := m rnd pos in k a rnd pos'.

Definition random : Rand num := fun rnd pos => (rnd pos, S pos).

End Random.

Arguments ret {num A} a.
Arguments bind {num A B} m k.
Arguments random {num}.

Declare Scope rand_scope.
Delimit Scope rand_scope with rand.
Notation "x <~ m ;; k" := (bind m (fun x => k))
  (at level 61, m at next level, right associativity) : rand_scope.
Open Scope rand_scope.

(** ** EPR.ts: EPRSimulator *)

Module EPR.

Record EPRState : Type := {
  value : Q;
  stability : Q;
  equity : Q;
  reputation : Q;
  resources : Q
}.

(** [Partial<EPRState>]: a field may be absent. *)
Record PartialEPRState : Type := {
  init_value : option Q;
  init_stability : option Q;
  init_equity : option Q;
  init_reputation : option Q;
  init_resources : option Q
}.

Inductive Role : Type := economic | political | social | mastery.
Inductive Zone : Type := red | blue.
Inductive Action : Type := allocate | negotiate | redistribute | restrain.

Record EPRAgent : Type := {
  name : string;
  role : Role;
  agent_state : EPRState;
  principles : list string
}.

Record EPRScenario : Type := {
  scenario_name : string;
  initial : PartialEPRState;
  steps : nat;
  scenario_zone : Zone
}.

Record EPRSimulator : Type := {
  state : EPRState;
  agents : list EPRAgent;
  scenario : EPRScenario
}.

Record History : Type := {
  h_value : list Q;
  h_stability : list Q;
  h_equity : list Q;
  h_reputation : list Q
}.

Record EPRSimulationResult : Type := {
  history : History;
  finalState : EPRState;
  insights : list string;
  zone : Zone
}.

Definition constructor (sc : EPRScenario) : EPRSimulator :=
  let st := {| value := num_or (init_value (initial sc)) 80;
               stability := num_or (init_stability (initial sc)) 1;
               equity := num_or (init_equity (initial sc)) (5 # 10);
               reputation := num_or (init_reputation (initial sc)) (7 # 10);
               resources := num_or (init_resources (initial sc)) 100 |} in
  {| state := st;
     agents :=
       [ {| name := "EcoAgent"; role := economic; agent_state := st;
            principles := ["prudence"; "growth"]%string |};
         {| name := "PolAgent"; role := political; agent_state := st;
            principles := ["stability"; "negotiation"]%string |};
         {| name := "SocAgent"; role := social; agent_state := st;
            principles := ["equity"; "redistribution"]%string |};
         {| name := "GraciánMaster"; role := mastery; agent_state := st;
            principles := ["gracian_restraint"; "reputation"; "timing"]%string |} ];
     scenario := sc |}.

Definition zone_of (st : EPRState) : Zone :=
  if Qltb (stability st) (12 # 10) then red else blue.

Definition is_red (z : Zone) : bool :=
  match z with red => true | blue => false end.

Definition includes (l : list string) (s : string) : bool :=
  existsb (String.eqb s) l.

Definition selectAction (agent : EPRAgent) : Rand Q Action :=
  gracian <~ (if includes (principles agent) "gracian_restraint"
              then r <~ random ;; ret (Qltb r (25 # 100))
              else ret false) ;;
  if gracian then ret restrain
  else match role agent with
       | economic =>
           r <~ random ;; ret (if Qltb r (6 # 10) then allocate else negotiate)
       | political =>
           r <~ random ;; ret (if Qltb r (7 # 10) then negotiate else allocate)
       | social =>
           r <~ random ;; ret (if Qltb r (8 # 10) then redistribute else negotiate)
       | mastery => ret restrain
       end.

Definition calculateReward (st : EPRState) (action : Action) (z : Zone) : Q :=
  let base := match action with
              | allocate => if is_red z then 8 else 5
              | negotiate => 12
              | redistribute => 10
              | restrain => 6
              end in
  let reward := if is_red z && Qltb (stability st) (12 # 10)
                then base * (115 # 100) else base in
  if Qltb (resources st) 20 then reward - 5 else reward.

Definition applyAction (st : EPRState) (action : Action) (z : Zone) : EPRState :=
  match action with
  | allocate =>
      if Qle_bool 10 (resources st)
      then {| value := value st + (if is_red z then 8 else 5);
              stability := stability st;
              equity := equity st;
              reputation := reputation st;
              resources := resources st - 10 |}
      else st
  | negotiate =>
      {| value := value st;
         stability := stability st + (if is_red z then 15 # 100 else 8 # 100);
         equity := equity st;
         reputation := reputation st;
         resources := resources st |}
  | redistribute =>
      {| value := value st;
         stability := stability st;
         equity := equity st + (8 # 100);
         reputation := Math.min 1 (reputation st + (5 # 100));
         resources := resources st |}
  | restrain =>
      {| value := value st;
         stability := stability st;
         equity := equity st;
         reputation := Math.min 1 (reputation st + (8 # 100));
         resources := resources st |}
  end.

(** The reward is computed and dropped, as in the source. *)
Definition executeAgentAction (agent : EPRAgent) (z : Zone) (st : EPRState)
  : Rand Q EPRState :=
  action <~ selectAction agent ;;
  let _reward := calculateReward st action z in
  ret (applyAction st action z).

(** The drift and the bounds, on exact numbers.  (On doubles each sum is
    rounded; the bounds are applied last and hold as they stand.) *)
Definition applySystemDynamics (_zone : Zone) (st : EPRState)
  : Rand Q EPRState :=
  r1 <~ random ;;
  r2 <~ random ;;
  r3 <~ random ;;
  r4 <~ random ;;
  let v := value st + (r1 - (3 # 10)) * 5 in
  let s := stability st + (r2 - (5 # 10)) * (5 # 100) in
  let e := equity st + (r3 - (5 # 10)) * (2 # 100) in
  let p := reputation st + (r4 - (4 # 10)) * (3 # 100) in
  let res := resources st + 2 in
  ret {| value := v;
         stability := Math.max 0 (Math.min 2 s);
         equity := Math.max 0 (Math.min 1 e);
         reputation := Math.max 0 (Math.min 1 p);
         resources := Math.max 0 (Math.min 300 res) |}.

Fixpoint actAll (todo : list EPRAgent) (z : Zone) (st : EPRState)
  : Rand Q EPRState :=
  match todo with
  | [] => ret st
  | agent :: rest =>
      st' <~ executeAgentAction agent z st ;; actAll rest z st'
  end.

Definition push (h : History) (st : EPRState) : History :=
  {| h_value := h_value h ++ [value st];
     h_stability := h_stability h ++ [stability st];
     h_equity := h_equity h ++ [equity st];
     h_reputation := h_reputation h ++ [reputation st] |}.

Definition set_agent_state (st : EPRState) (a : EPRAgent) : EPRAgent :=
  {| name := name a; role := role a; agent_state := st;
     principles := principles a |}.

(** One iteration of the loop of [simulate], after the recording. *)
Definition step (sim : EPRSimulator) : Rand Q EPRSimulator :=
  let z := zone_of (state sim) in
  st <~ actAll (agents sim) z (state sim) ;;
  st <~ applySystemDynamics z st ;;
  ret {| state := st;
         agents := map (set_agent_state st) (agents sim);
         scenario := scenario sim |}.

Fixpoint loop (todo : nat) (sim : EPRSimulator) (h : History)
  : Rand Q (EPRSimulator * History) :=
  match todo with
  | O => ret (sim, h)
  | S todo' =>
      let h := push h (state sim) in
      sim <~ step sim ;;
      loop todo' sim h
  end.

(** [last - first] of a series; [None] is [NaN], from an empty series. *)
Definition trend (l : list Q) : option Q :=
  match nth_error l (length l - 1), nth_error l 0 with
  | Some last, Some first => Some (last - first)
  | _, _ => None
  end.

Definition trend_gt (t : option Q) (c : Q) : bool :=
  match t with Some x => Qgtb x c | None => false end.

Definition generateInsights (st : EPRState) (h : History) : list string :=
  (if trend_gt (trend (h_reputation h)) (1 # 10)
   then ["Gracián restraint built reputation early → graceful execution"%string]
   else [])
  ++ (if trend_gt (trend (h_stability h)) 0 && Qle_bool (12 # 10) (stability st)
      then ["Virtuous motion achieved (Red/Blue zone toggling prevented decadence)"%string]
      else [])
  ++ (if trend_gt (trend (h_equity h)) 0
      then ["EPR equity safeguards prevented plutonomy"%string] else [])
  ++ (if trend_gt (trend (h_value h)) 50
      then ["Strong economic value creation through strategic allocation"%string]
      else [])
  ++ (if Qltb (stability st) 1
      then ["Warning: Political instability requires attention"%string]
      else []).

Definition empty_history : History :=
  {| h_value := []; h_stability := []; h_equity := []; h_reputation := [] |}.

Definition simulate (sim : EPRSimulator)
  : Rand Q (EPRSimulationResult * EPRSimulator) :=
  r <~ loop (steps (scenario sim)) sim empty_history ;;
  let (sim', h) := r in
  ret ({| history := h;
          finalState := state sim';
          insights := generateInsights (state sim') h;
          zone := zone_of (state sim') |}, sim').

Definition getState (sim : EPRSimulator) : EPRState := state sim.

Definition demographicsCollapse : EPRScenario :=
  {| scenario_name := "Demographics Collapse 2026";
     initial := {| init_value := Some 40;
                   init_stability := Some (85 # 100);
                   init_equity := Some (35 # 100);
                   init_reputation := Some (6 # 10);
                   init_resources := Some 40 |};
     steps := 20;
     scenario_zone := red |}.

Definition getAgents (sim : EPRSimulator) : list EPRAgent := agents sim.

Definition militaryDefence : EPRScenario :=
  {| scenario_name := "Military Defence-Pushed Growth";
     initial := {| init_value := Some 120;
                   init_stability := Some (75 # 100);
                   init_equity := Some (55 # 100);
                   init_reputation := Some (7 # 10);
                   init_resources := Some 150 |};
     steps := 20;
     scenario_zone := red |}.

Definition corporateSustainability : EPRScenario :=
  {| scenario_name := "Corporate Sustainability Crisis";
     initial := {| init_value := Some 65;
                   init_stability := Some (9 # 10);
                   init_equity := Some (6 # 10);
                   init_reputation := Some (75 # 100);
                   init_resources := Some 90 |};
     steps := 15;
     scenario_zone := blue |}.

(** [customScenario(name, value, stability, equity, resources, steps)];
    [steps] is 20 when the argument is left out. *)
Definition customScenario (name : string) (v s e res : Q)
  (stepCount : option nat) : EPRScenario :=
  {| scenario_name := name;
     initial := {| init_value := Some v;
                   init_stability := Some s;
                   init_equity := Some e;
                   init_reputation := Some (7 # 10);
                   init_resources := Some res |};
     steps := spread 20%nat stepCount;
     scenario_zone := if Qltb s (12 # 10) then red else blue |}.

End EPR.

(** ** Code that draws random numbers and may throw *)

Section RandomThrow.
Variable num : Type.

Definition RandE (A : Type) : Type :=
  (nat -> num) -> nat -> completion (A * nat).

Definition retE {A : Type} (a : A) : RandE A := fun _ pos => Normal (a, pos).

Definition bindE {A B : Type} (m : RandE A) (k : A -> RandE B) : RandE B :=
  fun rnd pos =>
    match m rnd pos with
    | Normal (a, pos') => k a rnd pos'
    | Throw e => Throw e
    end.

Definition throwE {A : Type} (e : exn) : RandE A := fun _ _ => Throw e.

Definition liftE {A : Type} (m : Rand num A) : RandE A :=
  fun rnd pos => Normal (m rnd pos).

End RandomThrow.

Arguments retE {num A} a.
Arguments bindE {num A B} m k.
Arguments throwE {num A} e.
Arguments liftE {num A} m.

Declare Scope randE_scope.
Delimit Scope randE_scope with randE.
Notation "x <- m ;; k" := (bindE m (fun x => k))
  (at level 61, m at next level, right associativity) : randE_scope.

(** ** EPR.ts: EvolutionarySimulator *)

Module Evolutionary.

Record Individual : Type := {
  genes : list Q;
  fitness : Q
}.

Record EvolutionaryConfig : Type := {
  populationSize : nat;
  generations : nat;
  mutationRate : Q;
  selectionPressure : Q;
  fitnessFunction : string
}.

Record GenerationData : Type := {
  generation : nat;
  avgFitness : Q;
  bestFitness : Q;
  diversity : option Q          (* [None]: [NaN], from [0 / 0] *)
}.

Record EvolutionaryResult : Type := {
  res_generations : list GenerationData;
  finalFitness : Q;
  bestSolution : list Q;
  convergence : Q
}.

Record EvolutionarySimulator : Type := {
  config : EvolutionaryConfig;
  population : list Individual;
  generationHistory : list GenerationData
}.

Record PartialConfig : Type := {
  p_populationSize : option nat;
  p_generations : option nat;
  p_mutationRate : option Q;
  p_selectionPressure : option Q;
  p_fitnessFunction : option string
}.

Definition constructor (c : PartialConfig) : EvolutionarySimulator :=
  {| config :=
       {| populationSize := spread 50%nat (p_populationSize c);
          generations := spread 100%nat (p_generations c);
          mutationRate := spread (1 # 10) (p_mutationRate c);
          selectionPressure := spread (2 # 10) (p_selectionPressure c);
          fitnessFunction := spread "default"%string (p_fitnessFunction c) |};
     population := [];
     generationHistory := [] |}.

Definition set_population (sim : EvolutionarySimulator)
  (pop : list Individual) : EvolutionarySimulator :=
  {| config := config sim; population := pop;
     generationHistory := generationHistory sim |}.

(** [n] successive draws. *)
Fixpoint draws (n : nat) : Rand Q (list Q) :=
  match n with
  | O => ret []
  | S n' => r <~ random ;; rs <~ draws n' ;; ret (r :: rs)
  end.

Fixpoint newIndividuals (n geneLength : nat) : Rand Q (list Individual) :=
  match n with
  | O => ret []
  | S n' =>
      g <~ draws geneLength ;;
      rest <~ newIndividuals n' geneLength ;;
      ret ({| genes := g; fitness := 0 |} :: rest)
  end.

Definition initialize (sim : EvolutionarySimulator) (geneLength : nat)
  : Rand Q EvolutionarySimulator :=
  pop <~ newIndividuals (populationSize (config sim)) geneLength ;;
  ret (set_population sim pop).

Definition defaultFitnessFunction (g : list Q) : Q :=
  fold_left (fun sum gene => sum + gene * gene) g 0.

Definition evaluateFitness (fitnessCallback : option (list Q -> Q))
  (pop : list Individual) : list Individual :=
  map (fun individual =>
         {| genes := genes individual;
            fitness := match fitnessCallback with
                       | Some f => f (genes individual)
                       | None => defaultFitnessFunction (genes individual)
                       end |}) pop.

(** [population.sort((a, b) => b.fitness - a.fitness)]: the stable sort,
    descending.  [a] stays in front of every [b] with [b.fitness - a.fitness
    <= 0]. *)
Fixpoint insert (a : Individual) (sorted : list Individual)
  : list Individual :=
  match sorted with
  | [] => [a]
  | b :: rest =>
      if Qle_bool (fitness b) (fitness a) then a :: b :: rest
      else b :: insert a rest
  end.

Definition sort (pop : list Individual) : list Individual :=
  fold_right insert [] pop.

Definition sumQ (l : list Q) : Q := fold_left Qplus l 0.

(** The mean of exact numbers.  (The mean of doubles is rounded, and can
    exceed the largest of them in the last place.) *)
Definition getAverageFitness (pop : list Individual) : Q :=
  sumQ (map fitness pop) / inject_Z (Z.of_nat (length pop)).

Definition calculateVariance (values : list Q) : Q :=
  let n := inject_Z (Z.of_nat (length values)) in
  let mean := sumQ values / n in
  fold_left (fun acc val => acc + (val - mean) ^ 2) values 0 / n.

(** Every individual of a population has as many genes as the first one
    ([initialize], [crossover]), so [ind.genes[i]] is a number. *)
Definition calculateDiversity (pop : list Individual) : option Q :=
  match pop with
  | [] => Some 0
  | first :: _ =>
      let geneLength := length (genes first) in
      let totalVariance :=
        fold_left
          (fun total i =>
             total + calculateVariance (map (fun ind => nth i (genes ind) 0) pop))
          (seq 0 geneLength) 0 in
      match geneLength with
      | O => None
      | S _ => Some (totalVariance / inject_Z (Z.of_nat geneLength))
      end
  end.

(** [a.slice(0, e)] *)
Definition slice0 {A : Type} (a : list A) (e : Z) : list A :=
  if (e <? 0)%Z then firstn (length a - Z.to_nat (- e)) a
  else firstn (Z.to_nat e) a.

(** [a.slice(-10)] *)
Definition last10 {A : Type} (a : list A) : list A :=
  skipn (length a - 10) a.

Local Open Scope randE_scope.

Definition pick (pop : list Individual) : RandE Q (option Individual) :=
  r <- liftE random ;;
  retE (nth_error pop (floor_index r (length pop))).

(** The loop of [tournamentSelection], with [todo] candidates left.
    [candidate.fitness > best.fitness] throws when either is [undefined]. *)
Fixpoint tournamentLoop (pop : list Individual) (todo : nat)
  (best : option Individual) : RandE Q (option Individual) :=
  match todo with
  | O => retE best
  | S todo' =>
      candidate <- pick pop ;;
      match candidate, best with
      | Some c, Some b =>
          tournamentLoop pop todo'
            (if Qgtb (fitness c) (fitness b) then Some c else Some b)
      | _, _ => throwE TypeError
      end
  end.

Definition tournamentSelection (pop : list Individual) : RandE Q Individual :=
  best <- pick pop ;;
  best <- tournamentLoop pop 2 best ;;
  match best with
  | Some b => retE b
  | None => throwE TypeError
  end.

Definition crossover (parent1 parent2 : Individual) : Rand Q Individual :=
  (r <~ random ;;
   let crossoverPoint := floor_index r (length (genes parent1)) in
   ret {| genes :=
            map (fun i => if (i <? crossoverPoint)%nat
                          then nth i (genes parent1) 0
                          else nth i (genes parent2) 0)
                (seq 0 (length (genes parent1)));
          fitness := 0 |})%rand.

Fixpoint mutateGenes (g : list Q) (mutationRate : Q) : Rand Q (list Q) :=
  (match g with
   | [] => ret []
   | gene :: rest =>
       r <~ random ;;
       gene' <~ (if Qltb r mutationRate
                 then r2 <~ random ;;
                      ret (Math.max 0 (Math.min 1
                             (gene + (r2 - (5 # 10)) * (2 # 10))))
                 else ret gene) ;;
       rest' <~ mutateGenes rest mutationRate ;;
       ret (gene' :: rest')
   end)%rand.

Definition mutate (individual : Individual) (mutationRate : Q)
  : Rand Q Individual :=
  (g <~ mutateGenes (genes individual) mutationRate ;;
   ret {| genes := g; fitness := fitness individual |})%rand.

(** The [while] loop of [evolveGeneration]: each turn pushes one child, so
    it runs [populationSize - newPopulation.length] times. *)
Fixpoint breed (pop : list Individual) (mutationRate : Q) (todo : nat)
  (newPopulation : list Individual) : RandE Q (list Individual) :=
  match todo with
  | O => retE newPopulation
  | S todo' =>
      parent1 <- tournamentSelection pop ;;
      parent2 <- tournamentSelection pop ;;
      child <- liftE (crossover parent1 parent2) ;;
      child <- liftE (mutate child mutationRate) ;;
      breed pop mutationRate todo' (newPopulation ++ [child])
  end.

Definition eliteCount (cfg : EvolutionaryConfig) : Z :=
  Qfloor (inject_Z (Z.of_nat (populationSize cfg)) * selectionPressure cfg).

Definition evolveGeneration (cfg : EvolutionaryConfig)
  (pop : list Individual) : RandE Q (list Individual) :=
  let elite := slice0 pop (eliteCount cfg) in
  breed pop (mutationRate cfg) (populationSize cfg - length elite) elite.

Definition calculateConvergence (h : list GenerationData) : Q :=
  if (length h <? 2)%nat then 0
  else
    let recent := last10 h in
    let bestVariance := calculateVariance (map bestFitness recent) in
    let avgVariance := calculateVariance (map avgFitness recent) in
    Math.max 0 (1 - (bestVariance + avgVariance) / 100).

(** The loop of [evolve], at generation [gen], with [todo] generations
    left. *)
Fixpoint generationsLoop (fitnessCallback : option (list Q -> Q))
  (todo gen : nat) (sim : EvolutionarySimulator)
  : RandE Q EvolutionarySimulator :=
  match todo with
  | O => retE sim
  | S todo' =>
      let pop := sort (evaluateFitness fitnessCallback (population sim)) in
      match pop with
      | [] => throwE TypeError            (* [this.population[0].fitness] *)
      | best :: _ =>
          let generationData :=
            {| generation := gen;
               avgFitness := getAverageFitness pop;
               bestFitness := fitness best;
               diversity := calculateDiversity pop |} in
          let h := generationHistory sim ++ [generationData] in
          pop' <- evolveGeneration (config sim) pop ;;
          generationsLoop fitnessCallback todo' (S gen)
            {| config := config sim; population := pop';
               generationHistory := h |}
      end
  end.

Definition evolve (fitnessCallback : option (list Q -> Q))
  (sim : EvolutionarySimulator)
  : RandE Q (EvolutionaryResult * EvolutionarySimulator) :=
  let geneLength :=
    match population sim with
    | first :: _ =>
        if (length (genes first) =? 0)%nat then 5%nat else length (genes first)
    | [] => 5%nat
    end in
  sim <- (match population sim with
          | [] => liftE (initialize sim geneLength)
          | _ :: _ => retE sim
          end) ;;
  sim <- generationsLoop fitnessCallback (generations (config sim)) 0 sim ;;
  let pop := sort (evaluateFitness fitnessCallback (population sim)) in
  match pop with
  | [] => throwE TypeError
  | best :: _ =>
      let sim := set_population sim pop in
      retE ({| res_generations := generationHistory sim;
               finalFitness := fitness best;
               bestSolution := genes best;
               convergence := calculateConvergence (generationHistory sim) |},
            sim)
  end.

Definition getPopulation (sim : EvolutionarySimulator) : list Individual :=
  population sim.

Definition getGenerationHistory (sim : EvolutionarySimulator)
  : list GenerationData :=
  generationHistory sim.

(** The fitness callback of [optimizeStrategy], for [m] objectives: the
    genes weighted by priority, less ten times every constraint violation
    above 1, and not below 0. *)
Definition strategyScore (m : nat) (constraints : list (list Q))
  (g : list Q) : Q :=
  let score :=
    fold_left
      (fun score i =>
         score + nth i g 0 * inject_Z (Z.of_nat m - Z.of_nat i))
      (seq 0 (length g)) 0 in
  let score :=
    fold_left
      (fun score constraint =>
         let violation :=
           fold_left
             (fun sum ic => sum + snd ic * num_or (nth_error g (fst ic)) 0)
             (combine (seq 0 (length constraint)) constraint) 0 in
         if Qgtb violation 1 then score - violation * 10 else score)
      constraints score in
  Math.max 0 score.

Definition optimizeStrategy (objectives : list string)
  (constraints : list (list Q))
  : RandE Q (EvolutionaryResult * EvolutionarySimulator) :=
  let simulator :=
    constructor {| p_populationSize := Some 100%nat;
                   p_generations := Some 100%nat;
                   p_mutationRate := Some (15 # 100);
                   p_selectionPressure := Some (15 # 100);
                   p_fitnessFunction := None |} in
  simulator <- liftE (initialize simulator (length objectives)) ;;
  evolve (Some (strategyScore (length objectives) constraints)) simulator.

End Evolutionary.

(** ** ProspectTheory.ts *)

Module ProspectTheory.

Local Open Scope R_scope.

Record PTAgent : Type := {
  wealth : R;
  gamma : R;
  lokLevel : R;
  referencePoint : R
}.

Record ProspectTheoryConfig : Type := {
  alpha : R;
  beta : R;
  lambda : R;
  cfg_gamma : R;
  delta : R;
  cfg_lokLevel : R
}.

Record ProspectTheoryResult : Type := {
  res_valueFunction : list R;
  res_weightingFunction : list R;
  decisions : list R;
  res_wealth : list R;
  riskPropensity : list R
}.

Record ProspectTheorySimulator : Type := {
  config : ProspectTheoryConfig;
  agents : list PTAgent
}.

Record PartialConfig : Type := {
  p_alpha : option R;
  p_beta : option R;
  p_lambda : option R;
  p_gamma : option R;
  p_delta : option R;
  p_lokLevel : option R
}.

Definition constructor (c : PartialConfig) : ProspectTheorySimulator :=
  {| config := {| alpha := spread (88 / 100) (p_alpha c);
                  beta := spread (88 / 100) (p_beta c);
                  lambda := spread (225 / 100) (p_lambda c);
                  cfg_gamma := spread (61 / 100) (p_gamma c);
                  delta := spread (69 / 100) (p_delta c);
                  cfg_lokLevel := spread 0 (p_lokLevel c) |};
     agents := [] |}.

Definition Rltb (a b : R) : bool := if Rlt_dec a b then true else false.
Definition Rleb (a b : R) : bool := if Rle_dec a b then true else false.

(** [Math.pow] on a base that is not negative, as at every call below, as
    the real power: the rounding, the overflow and the underflow of
    [Math.pow] on doubles are outside the model.  ([Math.pow(0, y)] with
    [y < 0] is [Infinity], outside the model.) *)
Definition pow (x y : R) : R :=
  if Rlt_dec 0 x then Rpower x y
  else if Rlt_dec 0 y then 0 else 1.

Definition initialize (sim : ProspectTheorySimulator) (nAgents : nat)
  (initialWealth : R) : ProspectTheorySimulator :=
  let half := (nAgents / 2)%nat in
  let knowledgeable :=
    repeat {| wealth := initialWealth; gamma := cfg_gamma (config sim);
              lokLevel := 0; referencePoint := 0 |} half in
  let lokAgents :=
    repeat {| wealth := initialWealth; gamma := 3 / 10;
              lokLevel := if Req_dec_T (cfg_lokLevel (config sim)) 0
                          then 1 else cfg_lokLevel (config sim);
              referencePoint := 0 |} (nAgents - half) in
  {| config := config sim; agents := knowledgeable ++ lokAgents |}.

Definition valueFunction (cfg : ProspectTheoryConfig) (x : R) : R :=
  if Rle_dec 0 x then pow x (alpha cfg)
  else - lambda cfg * pow (- x) (beta cfg).

(** [1 / gamma].  At [gamma = 0] it is a division by zero, whose result is
    [Infinity] ([None]); a negative zero is outside the model. *)
Definition exponent (g : R) : option R :=
  if Req_dec_T g 0 then None else Some (1 / g).

(** The divisor of [weightingFunction].  When the exponent is [Infinity],
    [gamma] is 0, both powers are 1 and the divisor is
    [Math.pow(2, Infinity)], [Infinity] ([None]). *)
Definition weightingDen (p g : R) : option R :=
  match exponent g with
  | Some e => Some (pow (pow p g + pow (1 - p) g) e)
  | None => None
  end.

Definition weightingFunction (p g : R) : R :=
  if Rle_dec p 0 then 0
  else if Rle_dec 1 p then 1
  else match weightingDen p g with
       | Some den => pow p g / den
       | None => 0                 (* [1 / Infinity] *)
       end.

(** [agent.wealth += x], as an exact sum.  (On doubles the sum is exact
    when both numbers are integers and it stays within 2^53.) *)
Definition add_wealth (agent : PTAgent) (x : R) : PTAgent :=
  {| wealth := wealth agent + x; gamma := gamma agent;
     lokLevel := lokLevel agent; referencePoint := referencePoint agent |}.

Definition pTrue : R := 20 / 100.
Definition gambleHigh : R := 300.
Definition sureGain : R := 50.

(** Returns the agent after the decision and [(choice, riskTaken)]. *)
Definition simulateAgentDecision (cfg : ProspectTheoryConfig)
  (agent : PTAgent) : Rand R (PTAgent * (R * R)) :=
  pPerceived <~ (if Rlt_dec 0 (cfg_lokLevel cfg)
                 then r <~ random ;;
                      ret (Rmax (1 / 100)
                             (Rmin (99 / 100)
                                (pTrue + (r - 5 / 10) * (3 / 10) * lokLevel agent)))
                 else ret pTrue) ;;
  refNoise <~ (if Rlt_dec 0 (lokLevel agent)
               then r <~ random ;; ret ((r - 5 / 10) * 200 * lokLevel agent)
               else ret 0) ;;
  let refPoint := referencePoint agent + refNoise in
  let wP := weightingFunction pPerceived (gamma agent) in
  let vGamble := wP * valueFunction cfg (gambleHigh - refPoint) in
  let vSure := valueFunction cfg (sureGain - refPoint) in
  let temperature := 1 + 10 * lokLevel agent in
  let logit := (vGamble - vSure) / temperature in
  let probChooseGamble := 1 / (1 + exp (- Rmax (-20) (Rmin 20 logit))) in
  r <~ random ;;
  if Rlt_dec r probChooseGamble
  then
    r' <~ random ;;
    let won := Rltb r' pTrue in
    ret (add_wealth agent (if won then gambleHigh else 0), (1, probChooseGamble))
  else
    ret (add_wealth agent sureGain, (0, 0)).

Definition average (values : list R) : R :=
  fold_left Rplus values 0 / INR (length values).

(** The loop over the agents within one step: the agents met so far (updated)
    and the three per-step series. *)
Fixpoint agentsLoop (cfg : ProspectTheoryConfig) (todo : list PTAgent)
  : Rand R (list PTAgent * (list R * list R * list R)) :=
  match todo with
  | [] => ret ([], ([], [], []))
  | agent :: rest =>
      d <~ simulateAgentDecision cfg agent ;;
      let '(agent', (choice, riskTaken)) := d in
      tl <~ agentsLoop cfg rest ;;
      let '(rest', (stepWealth, stepRisk, stepDecisions)) := tl in
      ret (agent' :: rest',
           (wealth agent' :: stepWealth, riskTaken :: stepRisk,
            choice :: stepDecisions))
  end.

Record Series : Type := {
  s_wealth : list R;
  s_riskPropensity : list R;
  s_decisions : list R
}.

(** The loop of [simulate], with [todo] steps left. *)
Fixpoint stepsLoop (cfg : ProspectTheoryConfig) (todo : nat)
  (ags : list PTAgent) (s : Series) : Rand R (list PTAgent * Series) :=
  match todo with
  | O => ret (ags, s)
  | S todo' =>
      r <~ agentsLoop cfg ags ;;
      let '(ags', (stepWealth, stepRisk, stepDecisions)) := r in
      stepsLoop cfg todo' ags'
        {| s_wealth := s_wealth s ++ [average stepWealth];
           s_riskPropensity := s_riskPropensity s ++ [average stepRisk];
           s_decisions := s_decisions s ++ [average stepDecisions] |}
  end.

Definition calculateValueFunction (cfg : ProspectTheoryConfig) : list R :=
  map (fun i => valueFunction cfg (IZR (Z.of_nat i) - 50)) (seq 0 101).

Definition calculateWeightingFunction (cfg : ProspectTheoryConfig) : list R :=
  map (fun i => weightingFunction (IZR (Z.of_nat i) / 100) (cfg_gamma cfg))
      (seq 0 101).

Definition simulate (sim : ProspectTheorySimulator) (steps : nat)
  : Rand R (ProspectTheoryResult * ProspectTheorySimulator) :=
  let sim := match agents sim with
             | [] => initialize sim 500 1000
             | _ :: _ => sim
             end in
  r <~ stepsLoop (config sim) steps (agents sim)
         {| s_wealth := []; s_riskPropensity := []; s_decisions := [] |} ;;
  let (ags, s) := r in
  ret ({| res_valueFunction := calculateValueFunction (config sim);
          res_weightingFunction := calculateWeightingFunction (config sim);
          decisions := s_decisions s;
          res_wealth := s_wealth s;
          riskPropensity := s_riskPropensity s |},
       {| config := config sim; agents := ags |}).

Definition getAgents (sim : ProspectTheorySimulator) : list PTAgent :=
  agents sim.

(** The agents are objects: a run on a filtered array updates the agents of
    the saved array that passed the filter.  [writeBack keep saved updated]
    is the saved array once the agents that satisfy [keep] have become, in
    order, the agents of [updated]. *)
Fixpoint writeBack (keep : PTAgent -> bool) (saved updated : list PTAgent)
  : list PTAgent :=
  match saved with
  | [] => []
  | a :: rest =>
      if keep a
      then match updated with
           | u :: us => u :: writeBack keep rest us
           | [] => a :: writeBack keep rest []
           end
      else a :: writeBack keep rest updated
  end.

Definition isKnowledgeable (a : PTAgent) : bool :=
  if Req_dec_T (lokLevel a) 0 then true else false.

Definition isLok (a : PTAgent) : bool := Rltb 0 (lokLevel a).

(** One of the two runs of [compareAgents]: [simulate] on the agents of
    [saved] that satisfy [keep].  When there is none, [simulate] creates the
    500 default agents and the saved ones are left as they are. *)
Definition runCohort (cfg : ProspectTheoryConfig) (keep : PTAgent -> bool)
  (saved : list PTAgent) (steps : nat)
  : Rand R (ProspectTheoryResult * list PTAgent) :=
  let cohort := filter keep saved in
  r <~ simulate {| config := cfg; agents := cohort |} steps ;;
  let (result, sim') := r in
  ret (result,
       match cohort with
       | [] => saved
       | _ :: _ => writeBack keep saved (agents sim')
       end).

Record Comparison : Type := {
  knowledgeable_wealth : list R;
  knowledgeable_risk : list R;
  lok_wealth : list R;
  lok_risk : list R
}.

Definition compareAgents (sim : ProspectTheorySimulator) (steps : nat)
  : Rand R (Comparison * ProspectTheorySimulator) :=
  let savedAgents := agents sim in
  r1 <~ runCohort (config sim) isKnowledgeable savedAgents steps ;;
  let (knowledgeableResult, savedAgents) := r1 in
  r2 <~ runCohort (config sim) isLok savedAgents steps ;;
  let (lokResult, savedAgents) := r2 in
  ret ({| knowledgeable_wealth := res_wealth knowledgeableResult;
          knowledgeable_risk := riskPropensity knowledgeableResult;
          lok_wealth := res_wealth lokResult;
          lok_risk := riskPropensity lokResult |},
       {| config := config sim; agents := savedAgents |}).

End ProspectTheory.

(** * Vocabulary of the properties *)

(** ** GameTheorySimulator *)

(** The payoff to [player] of candidate [s] against [cur], as
    [findBestResponse] evaluates it. *)
Definition candidatePayoff (cfg : GameTheory.GameTheoryConfig)
  (player : nat) (cur : list nat) (s : nat) : completion (option Q) :=
  GameTheory.getPayoff cfg player (set_nth cur player s).

(** What the loop of [findBestResponse] knows after candidates [0 .. j-1]:
    either no payoff was a number yet, or [bs] is the lowest candidate of
    highest payoff [bp]. *)
Definition bestSoFar (cfg : GameTheory.GameTheoryConfig)
  (player : nat) (cur : list nat) (j bs : nat) (bp : option Q) : Prop :=
  (bp = None /\ bs = 0%nat /\
   forall s, (s < j)%nat -> candidatePayoff cfg player cur s = Normal None)
  \/
  (exists v, bp = Some v /\ (bs < j)%nat /\
     candidatePayoff cfg player cur bs = Normal (Some v) /\
     forall s u, (s < j)%nat ->
       candidatePayoff cfg player cur s = Normal (Some u) ->
       u <= v /\ ((s < bs)%nat -> u < v)).

(** The round the specification describes: every best response is computed
    against the profile recorded at the start of the round. *)
Fixpoint simultaneousFrom (cfg : GameTheory.GameTheoryConfig)
  (todo player : nat) (previous : list nat) : completion (list nat) :=
  match todo with
  | O => Normal []
  | S todo' =>
      try b <- GameTheory.findBestResponse cfg player previous;
      try rest <- simultaneousFrom cfg todo' (S player) previous;
      Normal (b :: rest)
  end.

Definition simultaneousRound (cfg : GameTheory.GameTheoryConfig)
  (previous : list nat) : completion (list nat) :=
  simultaneousFrom cfg (GameTheory.players cfg) 0%nat previous.

(** ** EPRSimulator *)

(** The declared bounds of the shared state. *)
Definition in_bounds (st : EPR.EPRState) : Prop :=
  0 <= EPR.stability st <= 2 /\
  0 <= EPR.equity st <= 1 /\
  0 <= EPR.reputation st <= 1 /\
  0 <= EPR.resources st <= 300.

Definition within (lo hi : Q) (x : option Q) : Prop :=
  match x with
  | Some q => lo <= q <= hi
  | None => True
  end.

(** A valid initial configuration: every variable that is given lies within
    its declared bounds. *)
Definition valid_initial (p : EPR.PartialEPRState) : Prop :=
  within 0 2 (EPR.init_stability p) /\
  within 0 1 (EPR.init_equity p) /\
  within 0 1 (EPR.init_reputation p) /\
  within 0 300 (EPR.init_resources p).

(** The states at the recording points of [simulate]: the state at the start
    of each of the [todo] iterations. *)
Fixpoint recordedStates (todo : nat) (sim : EPR.EPRSimulator)
  (rnd : nat -> Q) (pos : nat) : list EPR.EPRState :=
  match todo with
  | O => []
  | S todo' =>
      EPR.state sim ::
      (let (sim', pos') := EPR.step sim rnd pos in
       recordedStates todo' sim' rnd pos')
  end.

(** The history [h] after the states [sts] were recorded. *)
Definition pushAll (h : EPR.History) (sts : list EPR.EPRState) : EPR.History :=
  {| EPR.h_value := EPR.h_value h ++ map EPR.value sts;
     EPR.h_stability := EPR.h_stability h ++ map EPR.stability sts;
     EPR.h_equity := EPR.h_equity h ++ map EPR.equity sts;
     EPR.h_reputation := EPR.h_reputation h ++ map EPR.reputation sts |}.

(** The claim on zero initial values as stated, for the stability: a zero
    initial stability is replaced by 1, and the run starts in the blue
    zone. *)
Definition zero_stability_starts_blue (sc : EPR.EPRScenario) : Prop :=
  EPR.init_stability (EPR.initial sc) = Some 0 ->
  EPR.stability (EPR.state (EPR.constructor sc)) = 1 /\
  EPR.zone_of (EPR.state (EPR.constructor sc)) = EPR.blue.

(** The "Demographics Collapse" preset with a zero initial stability. *)
Definition zeroStabilityScenario : EPR.EPRScenario :=
  {| EPR.scenario_name := "zero stability";
     EPR.initial := {| EPR.init_value := Some 40;
                       EPR.init_stability := Some 0;
                       EPR.init_equity := Some (35 # 100);
                       EPR.init_reputation := Some (6 # 10);
                       EPR.init_resources := Some 40 |};
     EPR.steps := 20;
     EPR.scenario_zone := EPR.red |}.

(** ** EvolutionarySimulator *)

(** The fitness [evaluateFitness] gives to a gene vector. *)
Definition fit (fitnessCallback : option (list Q -> Q)) (g : list Q) : Q :=
  match fitnessCallback with
  | Some f => f g
  | None => Evolutionary.defaultFitnessFunction g
  end.

Definition evaluated (fitnessCallback : option (list Q -> Q))
  (x : Evolutionary.Individual) : Evolutionary.Individual :=
  {| Evolutionary.genes := Evolutionary.genes x;
     Evolutionary.fitness := fit fitnessCallback (Evolutionary.genes x) |}.

Fixpoint nondecreasing (l : list Q) : Prop :=
  match l with
  | a :: (b :: _) as t => a <= b /\ nondecreasing t
  | _ => True
  end.

(** [new EvolutionarySimulator()] *)
Definition defaultSimulator : Evolutionary.EvolutionarySimulator :=
  Evolutionary.constructor
    {| Evolutionary.p_populationSize := None;
       Evolutionary.p_generations := None;
       Evolutionary.p_mutationRate := None;
       Evolutionary.p_selectionPressure := None;
       Evolutionary.p_fitnessFunction := None |}.

(** [new EvolutionarySimulator({ populationSize: 1, generations: 2 })] *)
Definition tinyPopulation : Evolutionary.EvolutionarySimulator :=
  Evolutionary.constructor
    {| Evolutionary.p_populationSize := Some 1%nat;
       Evolutionary.p_generations := Some 2%nat;
       Evolutionary.p_mutationRate := None;
       Evolutionary.p_selectionPressure := None;
       Evolutionary.p_fitnessFunction := None |}.

(** [new EvolutionarySimulator({ populationSize: 0, generations: 1 })] *)
Definition emptyPopulation : Evolutionary.EvolutionarySimulator :=
  Evolutionary.constructor
    {| Evolutionary.p_populationSize := Some 0%nat;
       Evolutionary.p_generations := Some 1%nat;
       Evolutionary.p_mutationRate := None;
       Evolutionary.p_selectionPressure := None;
       Evolutionary.p_fitnessFunction := None |}.

(** Five draws at 1/2 (the genes of the first individual), then draws at 0:
    every gene of a child is mutated by [-0.1]. *)
Definition halfThenZero (i : nat) : Q :=
  if (i <? 5)%nat then 1 # 2 else 0.


(** ** ProspectTheorySimulator *)

(** One decision adds 0, 50 or 300 to the wealth of the agent. *)
Definition gain (a a' : ProspectTheory.PTAgent) : Prop :=
  (ProspectTheory.wealth a' = ProspectTheory.wealth a + 0 \/
   ProspectTheory.wealth a' = ProspectTheory.wealth a + 50 \/
   ProspectTheory.wealth a' = ProspectTheory.wealth a + 300)%R.

(** The agents after [k] steps, from the agents [ags] and the position
    [pos] in the draws. *)
Fixpoint agentsAt (cfg : ProspectTheory.ProspectTheoryConfig)
  (rnd : nat -> R) (k : nat) (ags : list ProspectTheory.PTAgent) (pos : nat)
  : list ProspectTheory.PTAgent * nat :=
  match k with
  | O => (ags, pos)
  | S k' =>
      let '(ags1, _, pos1) := ProspectTheory.agentsLoop cfg ags rnd pos in
      agentsAt cfg rnd k' ags1 pos1
  end.

(** The series of the average wealth after each of [n] steps. *)
Definition averagesFrom (cfg : ProspectTheory.ProspectTheoryConfig)
  (rnd : nat -> R) (ags : list ProspectTheory.PTAgent) (pos : nat) (n : nat)
  : list R :=
  map (fun k => ProspectTheory.average
                  (map ProspectTheory.wealth
                     (fst (agentsAt cfg rnd (S k) ags pos))))
      (seq 0 n).

(** The agents a call of [simulate] starts from: those of the simulator, or
    the 500 default ones when it has none. *)
Definition startAgents (sim : ProspectTheory.ProspectTheorySimulator)
  : list ProspectTheory.PTAgent :=
  match ProspectTheory.agents sim with
  | [] => ProspectTheory.agents (ProspectTheory.initialize sim 500 1000%R)
  | _ :: _ => ProspectTheory.agents sim
  end.

(** A simulator with the default configuration and one rational agent. *)
Definition oneAgent : ProspectTheory.ProspectTheorySimulator :=
  {| ProspectTheory.config :=
       ProspectTheory.config
         (ProspectTheory.constructor
            {| ProspectTheory.p_alpha := None; ProspectTheory.p_beta := None;
               ProspectTheory.p_lambda := None; ProspectTheory.p_gamma := None;
               ProspectTheory.p_delta := None;
               ProspectTheory.p_lokLevel := None |});
     ProspectTheory.agents :=
       [ {| ProspectTheory.wealth := 1000%R;
            ProspectTheory.gamma := (61 / 100)%R;
            ProspectTheory.lokLevel := 0%R;
            ProspectTheory.referencePoint := 0%R |} ] |}.

(** The profile at the start of a round of [simulate] is the result of the
    round before: either nothing was recorded yet, or the last recorded
    profile [prev] gave [ps]. *)
Definition follows (cfg : GameTheory.GameTheoryConfig)
  (h : list (list nat)) (ps : list nat) : Prop :=
  h = [] \/
  exists h0 prev, h = h0 ++ [prev] /\
                  length prev = GameTheory.players cfg /\
                  GameTheory.round cfg prev = Normal ps.

(** The profile a run of the loop of [simulate] ends in. *)
Definition finalProfile (c : completion (list nat * list (option Q)))
  : completion (list nat) :=
  try r <- c; Normal (fst r).

(** What a result says about the game: the equilibrium and its payoffs. *)
Definition outcome (c : completion GameTheory.GameTheoryResult)
  : completion (list (option string) * list (option Q)) :=
  try r <- c; Normal (GameTheory.equilibrium r, GameTheory.res_payoffs r).



(** The insights on stability. *)
Definition virtuousInsight : string :=
  "Virtuous motion achieved (Red/Blue zone toggling prevented decadence)".

Definition warningInsight : string :=
  "Warning: Political instability requires attention".

(** An agent whose choice of action reads exactly one draw: the restraint
    override is not open to it and its role draws once, or it is the mastery
    agent, which draws for the override and then restrains in any case. *)
Definition drawsOnce (a : EPR.EPRAgent) : Prop :=
  (EPR.includes (EPR.principles a) "gracian_restraint" = false /\
   EPR.role a <> EPR.mastery) \/
  (EPR.includes (EPR.principles a) "gracian_restraint" = true /\
   EPR.role a = EPR.mastery).

(** A population whose individuals all have [L] genes, each within
    [0, 1]. *)
Definition wellFormed (L : nat) (pop : list Evolutionary.Individual) : Prop :=
  Forall (fun x => length (Evolutionary.genes x) = L /\
                   Forall (fun g => 0 <= g <= 1) (Evolutionary.genes x)) pop.

(** The record [evolve] makes of a generation: the metrics of a well-formed
    population, once evaluated and sorted. *)
Definition recordedFrom (fitnessCallback : option (list Q -> Q)) (L : nat)
  (g : Evolutionary.GenerationData) : Prop :=
  exists pop0 best rest,
    wellFormed L pop0 /\
    Evolutionary.sort (Evolutionary.evaluateFitness fitnessCallback pop0)
    = best :: rest /\
    Evolutionary.avgFitness g = Evolutionary.getAverageFitness (best :: rest) /\
    Evolutionary.bestFitness g = Evolutionary.fitness best /\
    Evolutionary.diversity g = Evolutionary.calculateDiversity (best :: rest).

(** The number of genes [evolve] works with: that of the first individual,
    or 5 when there is no individual or the first one has no gene. *)
Definition geneLengthOf (sim : Evolutionary.EvolutionarySimulator) : nat :=
  match Evolutionary.population sim with
  | first :: _ =>
      if (length (Evolutionary.genes first) =? 0)%nat then 5%nat
      else length (Evolutionary.genes first)
  | [] => 5%nat
  end.

(** An agent after [k] decisions: only its wealth has changed, by at most
    300 a decision and never downwards. *)
Definition advanced (k : nat) (a a' : ProspectTheory.PTAgent) : Prop :=
  ProspectTheory.gamma a' = ProspectTheory.gamma a /\
  ProspectTheory.lokLevel a' = ProspectTheory.lokLevel a /\
  ProspectTheory.referencePoint a' = ProspectTheory.referencePoint a /\
  (ProspectTheory.wealth a <= ProspectTheory.wealth a'
   <= ProspectTheory.wealth a + 300 * INR k)%R.

(** Only the wealth of the agent has changed, and not downwards. *)
Definition wealthier (a a' : ProspectTheory.PTAgent) : Prop :=
  ProspectTheory.gamma a' = ProspectTheory.gamma a /\
  ProspectTheory.lokLevel a' = ProspectTheory.lokLevel a /\
  ProspectTheory.referencePoint a' = ProspectTheory.referencePoint a /\
  (ProspectTheory.wealth a <= ProspectTheory.wealth a')%R.

(** A wealth to which [steps] gains of at most 300 are added exactly, on
    doubles as well: an integer that stays within 2^53. *)
Definition exactFor (steps : nat) (a : ProspectTheory.PTAgent) : Prop :=
  exists z : Z, ProspectTheory.wealth a = IZR z /\
                (Z.abs z + 300 * Z.of_nat steps <= 2 ^ 53)%Z.

(** * Properties *)

(** ** Deciding the order of the rationals *)

Lemma Qltb_true (a b : Q) : Qltb a b = true <-> a < b.
Proof.
  unfold Qltb. rewrite negb_true_iff. split.
  - intros H. apply Qnot_le_lt. intros Hle.
    apply Qle_bool_iff in Hle. congruence.
  - intros H. destruct (Qle_bool b a) eqn:E; [|reflexivity].
    apply Qle_bool_iff in E. lra.
Qed.

Lemma Qltb_false (a b : Q) : Qltb a b = false <-> b <= a.
Proof.
  unfold Qltb. rewrite negb_false_iff. apply Qle_bool_iff.
Qed.

Lemma Qle_bool_false (a b : Q) : Qle_bool a b = false -> b < a.
Proof.
  intros H. apply Qnot_le_lt. intros Hle. apply Qle_bool_iff in Hle. congruence.
Qed.

Lemma Math_min_le_l (a b : Q) : Math.min a b <= a.
Proof.
  unfold Math.min. destruct (Qle_bool a b) eqn:E; [lra|].
  apply Qle_bool_false in E. lra.
Qed.

Lemma Math_max_ge_l (a b : Q) : a <= Math.max a b.
Proof.
  unfold Math.max. destruct (Qle_bool a b) eqn:E; [|lra].
  apply Qle_bool_iff in E. exact E.
Qed.

Lemma clamp_bounds (lo hi x : Q) :
  lo <= hi -> lo <= Math.max lo (Math.min hi x) <= hi.
Proof.
  intros Hlh. split; [apply Math_max_ge_l|].
  unfold Math.max. destruct (Qle_bool lo (Math.min hi x)) eqn:E.
  - apply Math_min_le_l.
  - exact Hlh.
Qed.

(** ** Lists updated in place *)

Lemma set_nth_length {A : Type} (l : list A) (i : nat) (v : A) :
  length (set_nth l i v) = length l.
Proof.
  revert i. induction l as [|h t IH]; intros [|i]; simpl; auto.
Qed.

Lemma set_nth_firstn {A : Type} (l : list A) (i j : nat) (v : A) :
  (j <= i)%nat -> firstn j (set_nth l i v) = firstn j l.
Proof.
  revert i j. induction l as [|h t IH]; intros [|i] [|j] Hle; simpl; auto;
    try lia.
  f_equal. apply IH. lia.
Qed.

Lemma set_nth_skipn {A : Type} (l : list A) (i j : nat) (v : A) :
  (i < j)%nat -> skipn j (set_nth l i v) = skipn j l.
Proof.
  revert i j. induction l as [|h t IH]; intros [|i] [|j] Hlt; simpl; auto;
    try lia.
  apply IH. lia.
Qed.

Lemma set_nth_nth {A : Type} (l : list A) (i : nat) (v d : A) :
  (i < length l)%nat -> nth i (set_nth l i v) d = v.
Proof.
  revert i. induction l as [|h t IH]; intros [|i] Hlt; simpl in *; auto;
    try lia.
  apply IH. lia.
Qed.

Lemma firstn_S_nth {A : Type} (l l' : list A) (i : nat) (d : A) :
  firstn (S i) l = firstn (S i) l' ->
  firstn i l = firstn i l' /\ nth i l d = nth i l' d.
Proof.
  revert l l'. induction i as [|i IH]; intros [|h t] [|h' t'] H; simpl in *;
    try discriminate; auto.
  - injection H as ->. auto.
  - injection H as -> H. destruct (IH t t' H) as [H1 H2].
    split; [f_equal; exact H1 | exact H2].
Qed.

(** ** GameTheorySimulator: the order of the updates within a round *)

Section BestResponse.
Import GameTheory.
Variable cfg : GameTheoryConfig.

Lemma bestSoFar_step (player : nat) (cur : list nat) (j bs : nat)
  (bp payoff : option Q) :
  bestSoFar cfg player cur j bs bp ->
  candidatePayoff cfg player cur j = Normal payoff ->
  if payoff_gt payoff bp
  then bestSoFar cfg player cur (S j) j payoff
  else bestSoFar cfg player cur (S j) bs bp.
Proof.
  intros Inv Hp.
  destruct Inv as [(-> & -> & Hnone) | (v & -> & Hlt & Hbs & Hmax)].
  - destruct payoff as [p|]; simpl.
    + right. exists p. repeat split; auto.
      * assert (s = j \/ s < j)%nat as [->|Hs] by lia.
        -- rewrite Hp in H0. injection H0 as ->. lra.
        -- rewrite (Hnone s Hs) in H0. discriminate.
      * intros Hs. rewrite (Hnone s Hs) in H0. discriminate.
    + left. repeat split; auto. intros s Hs.
      assert (s = j \/ s < j)%nat as [->|Hs'] by lia; auto.
  - destruct payoff as [p|]; simpl.
    + unfold Qgtb. destruct (Qltb v p) eqn:E.
      * apply Qltb_true in E. right. exists p. repeat split; auto.
        -- assert (s = j \/ s < j)%nat as [->|Hs] by lia.
           ++ rewrite Hp in H0. injection H0 as ->. lra.
           ++ destruct (Hmax s u Hs H0). lra.
        -- intros Hs. destruct (Hmax s u Hs H0). lra.
      * apply Qltb_false in E. right. exists v. repeat split; auto.
        -- assert (s = j \/ s < j)%nat as [->|Hs] by lia.
           ++ rewrite Hp in H0. injection H0 as ->. exact E.
           ++ destruct (Hmax s u Hs H0). assumption.
        -- intros Hs. assert (s < j)%nat as Hs' by lia.
           destruct (Hmax s u Hs' H0). auto.
    + right. exists v. repeat split; auto.
      * assert (s = j \/ s < j)%nat as [->|Hs] by lia.
        -- rewrite Hp in H0. discriminate.
        -- destruct (Hmax s u Hs H0). assumption.
      * intros Hs. assert (s < j)%nat as Hs' by lia.
        destruct (Hmax s u Hs' H0). auto.
Qed.

Lemma bestResponseLoop_bestSoFar (player : nat) (cur : list nat) :
  forall todo j bs bp b,
    bestResponseLoop cfg player cur todo j bs bp = Normal b ->
    bestSoFar cfg player cur j bs bp ->
    exists bp', bestSoFar cfg player cur (j + todo) b bp'.
Proof.
  induction todo as [|todo IH]; intros j bs bp b Hrun Inv; simpl in Hrun.
  - injection Hrun as <-. exists bp. rewrite Nat.add_0_r. exact Inv.
  - destruct (getPayoff cfg player (set_nth cur player j)) as [payoff|e] eqn:Hp;
      simpl in Hrun; [|discriminate].
    pose proof (bestSoFar_step _ _ _ _ _ _ Inv Hp) as Hstep.
    replace (j + S todo)%nat with (S j + todo)%nat by lia.
    destruct (payoff_gt payoff bp); eapply IH; eauto.
Qed.

Lemma findBestResponse_lowest_maximiser (player : nat) (cur : list nat)
  (b s : nat) (u : Q) :
  findBestResponse cfg player cur = Normal b ->
  (s < length (strategies cfg))%nat ->
  candidatePayoff cfg player cur s = Normal (Some u) ->
  exists v, candidatePayoff cfg player cur b = Normal (Some v) /\
            u <= v /\ ((s < b)%nat -> u < v).
Proof.
  intros Hrun Hs Hu. unfold findBestResponse in Hrun.
  assert (Inv0 : bestSoFar cfg player cur 0 0 None).
  { left. repeat split; auto. intros s' Hs'. lia. }
  destruct (bestResponseLoop_bestSoFar _ _ _ _ _ _ _ Hrun Inv0) as [bp' Inv].
  simpl in Inv.
  destruct Inv as [(_ & _ & Hnone) | (v & _ & _ & Hb & Hmax)].
  - rewrite (Hnone s Hs) in Hu. discriminate.
  - exists v. split; [exact Hb|]. apply (Hmax s u Hs Hu).
Qed.

Lemma respondFrom_sequential :
  forall todo player cur out,
    respondFrom cfg todo player cur = Normal out ->
    (player + todo <= length cur)%nat ->
    length out = length cur /\
    firstn player out = firstn player cur /\
    skipn (player + todo) out = skipn (player + todo) cur /\
    forall p, (player <= p < player + todo)%nat ->
      findBestResponse cfg p (firstn p out ++ skipn p cur)
      = Normal (nth p out 0%nat).
Proof.
  induction todo as [|todo IH]; intros player cur out Hrun Hlen; simpl in Hrun.
  - injection Hrun as <-. repeat split; auto. intros p Hp. lia.
  - destruct (findBestResponse cfg player cur) as [br|e] eqn:Hbr;
      simpl in Hrun; [|discriminate].
    apply IH in Hrun; [|rewrite set_nth_length; lia].
    destruct Hrun as (Hl & Hfirst & Hskip & Hrest).
    rewrite set_nth_length in Hl.
    destruct (firstn_S_nth _ _ _ 0%nat Hfirst) as [Hf Hn].
    rewrite set_nth_firstn in Hf by lia.
    rewrite set_nth_nth in Hn by lia.
    repeat split; auto.
    + replace (player + S todo)%nat with (S player + todo)%nat by lia.
      rewrite Hskip. apply set_nth_skipn. lia.
    + intros p Hp.
      assert (p = player \/ S player <= p < S player + todo)%nat
        as [->|Hp'] by lia.
      * rewrite Hf, firstn_skipn, Hn. exact Hbr.
      * rewrite <- (Hrest p Hp'). f_equal. f_equal.
        symmetry. apply set_nth_skipn. lia.
Qed.

End BestResponse.

(** C1, as stated, fails.  In the coordination game, from the profile
    [A, B] (drawn with [Math.random()] returning 0 and then 1/2), the round
    of [simulate] ends in [B, B]: the second player answers the first
    player's new strategy.  Best responses to the recorded profile would give
    [B, A]. *)
Lemma round_not_simultaneous :
  let cfg := GameTheory.coordinationGame 100 in
  let rnd := fun i : nat => if (i =? 0)%nat then 0 else 1 # 2 in
  GameTheory.initialStrategies cfg rnd = [0; 1]%nat /\
  GameTheory.round cfg [0; 1]%nat = Normal [1; 1]%nat /\
  simultaneousRound cfg [0; 1]%nat = Normal [1; 0]%nat /\
  GameTheory.round cfg [0; 1]%nat <> simultaneousRound cfg [0; 1]%nat.
Proof.
  repeat split; try reflexivity. intros H. vm_compute in H. discriminate.
Qed.

(** C1, amended.  Within a round the players are updated one after the
    other, in place: the best response of player [p] is computed against the
    profile in which the players before [p] already hold their strategy of
    this round and the players from [p] on hold that of the previous round.
    The best response is the lowest index among the strategies of highest
    payoff. *)
Theorem round_sequential_best_response (cfg : GameTheory.GameTheoryConfig) :
  (forall previous next,
     length previous = GameTheory.players cfg ->
     GameTheory.round cfg previous = Normal next ->
     length next = GameTheory.players cfg /\
     forall p, (p < GameTheory.players cfg)%nat ->
       GameTheory.findBestResponse cfg p (firstn p next ++ skipn p previous)
       = Normal (nth p next 0%nat))
  /\
  (forall player cur b s u,
     GameTheory.findBestResponse cfg player cur = Normal b ->
     (s < length (GameTheory.strategies cfg))%nat ->
     candidatePayoff cfg player cur s = Normal (Some u) ->
     exists v, candidatePayoff cfg player cur b = Normal (Some v) /\
               u <= v /\ ((s < b)%nat -> u < v)).
Proof.
  split.
  - intros previous next Hlen Hrun. unfold GameTheory.round in Hrun.
    apply respondFrom_sequential in Hrun; [|simpl; lia].
    destruct Hrun as (Hl & _ & _ & Hp). split; [congruence|].
    intros p Hlt. apply Hp. simpl. lia.
  - intros player cur b s u. apply findBestResponse_lowest_maximiser.
Qed.

Lemma round_sequential_best_response_witness :
  let cfg := GameTheory.coordinationGame 100 in
  (length [1; 1]%nat = GameTheory.players cfg /\
   forall p, (p < GameTheory.players cfg)%nat ->
     GameTheory.findBestResponse cfg p (firstn p [1; 1]%nat ++ skipn p [0; 1]%nat)
     = Normal (nth p [1; 1]%nat 0%nat))
  /\
  (exists v, candidatePayoff cfg 0 [0; 0]%nat 0 = Normal (Some v) /\
             0 <= v /\ ((1 < 0)%nat -> 0 < v)).
Proof.
  intros cfg. split.
  - apply (proj1 (round_sequential_best_response cfg) [0; 1]%nat [1; 1]%nat);
      reflexivity.
  - apply (proj2 (round_sequential_best_response cfg) 0%nat [0; 0]%nat 0%nat
             1%nat 0).
    + reflexivity.
    + simpl. lia.
    + reflexivity.
Defined.

(** ** GameTheorySimulator: the Prisoner's Dilemma *)

Lemma Qfloor_bounds (x : Q) (n : Z) :
  0 <= x -> x < inject_Z n -> (0 <= Qfloor x < n)%Z.
Proof.
  intros H0 Hn. split.
  - rewrite <- (Qfloor_Z 0). apply Qfloor_resp_le. exact H0.
  - rewrite Zlt_Qlt. pose proof (Qfloor_le x). lra.
Qed.

Lemma floor_index_lt (r : Q) (n : nat) :
  0 <= r < 1 -> (0 < n)%nat -> (floor_index r n < n)%nat.
Proof.
  intros [H0 H1] Hn. unfold floor_index.
  assert (Hpos : 0 < inject_Z (Z.of_nat n)).
  { change 0 with (inject_Z 0). rewrite <- Zlt_Qlt. lia. }
  destruct (Qfloor_bounds (r * inject_Z (Z.of_nat n)) (Z.of_nat n));
    [nra | nra | lia].
Qed.

Lemma prisonersDilemma_initial (its : nat) (rnd : nat -> Q) :
  (forall i, 0 <= rnd i < 1) ->
  exists a b, (a < 2)%nat /\ (b < 2)%nat /\
    GameTheory.initialStrategies (GameTheory.prisonersDilemmaConfig its) rnd
    = [a; b].
Proof.
  intros Hrnd.
  exists (floor_index (rnd 0%nat) 2), (floor_index (rnd 1%nat) 2).
  repeat split; try (apply floor_index_lt; [apply Hrnd | lia]).
Qed.

(** C3.  With at least one round to run, the Prisoner's Dilemma ends in
    Defect/Defect with payoffs (1, 1) from each of the four initial profiles:
    the first round already produces Defect/Defect, and [simulate] returns
    after at most three rounds. *)
Theorem prisonersDilemma_defect_defect (its : nat) (rnd : nat -> Q) :
  (1 <= its)%nat ->
  (forall i, 0 <= rnd i < 1) ->
  GameTheory.round (GameTheory.prisonersDilemmaConfig its)
    (GameTheory.initialStrategies (GameTheory.prisonersDilemmaConfig its) rnd)
  = Normal [1; 1]%nat
  /\
  exists r,
    GameTheory.prisonersDilemma its rnd = Normal r /\
    GameTheory.equilibrium r = [Some "Defect"; Some "Defect"]%string /\
    GameTheory.res_payoffs r = [Some 1; Some 1] /\
    (1 <= GameTheory.res_iterations r <= 3)%nat.
Proof.
  intros Hits Hrnd.
  destruct (prisonersDilemma_initial its rnd Hrnd) as (a & b & Ha & Hb & Hinit).
  unfold GameTheory.prisonersDilemma, GameTheory.simulate.
  rewrite Hinit. clear Hinit Hrnd rnd.
  assert (a = 0 \/ a = 1)%nat as Ea by lia.
  assert (b = 0 \/ b = 1)%nat as Eb by lia.
  destruct its as [|[|[|its]]]; [lia| | |];
    destruct Ea as [-> | ->]; destruct Eb as [-> | ->];
    (split; [reflexivity|]);
    eexists; (split; [vm_compute; reflexivity|]);
    simpl; repeat split; lia.
Qed.

Lemma prisonersDilemma_defect_defect_witness :
  exists r,
    GameTheory.prisonersDilemma 100 (fun _ => 0) = Normal r /\
    GameTheory.equilibrium r = [Some "Defect"; Some "Defect"]%string /\
    GameTheory.res_payoffs r = [Some 1; Some 1] /\
    (1 <= GameTheory.res_iterations r <= 3)%nat.
Proof.
  apply (prisonersDilemma_defect_defect 100 (fun _ => 0)).
  - lia.
  - intros i. lra.
Defined.

(** ** GameTheorySimulator: configurations are not validated *)

Section NoValidation.
Import GameTheory.
Variable cfg : GameTheoryConfig.

(** [P] holds of the profiles the run goes through. *)
Variable P : list nat -> Prop.

Hypothesis P_set : forall prof p s,
  P prof -> (s < length (strategies cfg))%nat \/ s = 0%nat ->
  P (set_nth prof p s).

Hypothesis P_payoff : (0 < players cfg)%nat ->
  forall prof player, P prof -> exists v, getPayoff cfg player prof = Normal v.

Lemma bestResponseLoop_returns (player : nat) (cur : list nat) :
  (0 < players cfg)%nat -> P cur ->
  forall todo j bs bp,
    (j + todo <= length (strategies cfg))%nat ->
    (bs < length (strategies cfg))%nat \/ bs = 0%nat ->
    exists b, bestResponseLoop cfg player cur todo j bs bp = Normal b /\
              ((b < length (strategies cfg))%nat \/ b = 0%nat).
Proof.
  intros Hn HP. induction todo as [|todo IH]; intros j bs bp Hj Hbs; simpl.
  - exists bs. auto.
  - destruct (P_payoff Hn (set_nth cur player j) player) as [v Hv].
    { apply P_set; [exact HP | left; lia]. }
    rewrite Hv. simpl. destruct (payoff_gt v bp); apply IH; try lia; auto.
Qed.

Lemma respondFrom_returns :
  forall todo player cur,
    (todo <= players cfg)%nat -> P cur ->
    exists out, respondFrom cfg todo player cur = Normal out /\ P out.
Proof.
  induction todo as [|todo IH]; intros player cur Hle HP; simpl.
  - exists cur. auto.
  - unfold findBestResponse.
    destruct (bestResponseLoop_returns player cur ltac:(lia) HP
                (length (strategies cfg)) 0%nat 0%nat None)
      as (b & Hb & Hrange); [lia | auto |].
    rewrite Hb. simpl. apply IH; [lia|]. apply P_set; assumption.
Qed.

Lemma iterate_returns :
  forall todo ps h conv,
    P ps ->
    exists out conv', iterate cfg todo ps h conv = Normal (out, conv') /\ P out.
Proof.
  induction todo as [|todo IH]; intros ps h conv HP; simpl.
  - exists ps, conv. auto.
  - unfold round.
    destruct (respondFrom_returns (players cfg) 0%nat ps (le_n _) HP)
      as (out & Hout & HPout).
    rewrite Hout. simpl.
    destruct (converged_enough (calculateConvergence (h ++ [ps]))).
    + eexists _, _. split; [reflexivity | exact HPout].
    + apply IH. exact HPout.
Qed.

Lemma calculatePayoffsFrom_returns (strats : list nat) :
  P strats ->
  forall todo player,
    (todo <= players cfg)%nat ->
    exists l, calculatePayoffsFrom cfg todo player strats = Normal l.
Proof.
  intros HP. induction todo as [|todo IH]; intros player Hle; simpl.
  - exists []. reflexivity.
  - destruct (P_payoff ltac:(lia) strats player HP) as [v Hv].
    rewrite Hv. simpl.
    destruct (IH (S player) ltac:(lia)) as [l Hl]. rewrite Hl. simpl.
    eexists. reflexivity.
Qed.

Lemma simulateFrom_returns (init : list nat) :
  P init -> exists r, simulateFrom cfg init = Normal r.
Proof.
  intros HP. unfold simulateFrom.
  destruct (iterate_returns (iterations cfg) init [] [] HP)
    as (out & conv' & Hrun & HPout).
  rewrite Hrun. simpl. unfold calculatePayoffs.
  destruct (calculatePayoffsFrom_returns out HPout (players cfg) 0%nat (le_n _))
    as [l Hl].
  rewrite Hl. simpl. eexists. reflexivity.
Qed.

End NoValidation.

Lemma floor_index_0 (r : Q) : floor_index r 0 = 0%nat.
Proof.
  unfold floor_index. destruct r as [n d]. cbn.
  rewrite Z.mul_0_r. reflexivity.
Qed.

(** C6, as stated, fails: [simulate] returns a result with no player, with
    no strategy, and with three players on the 2 x 2 x 2 default tensor. *)
Lemma simulate_accepts_invalid_configurations :
  let none := {| GameTheory.p_players := None; GameTheory.p_strategies := None;
                 GameTheory.p_payoffs := None;
                 GameTheory.p_iterations := Some 2%nat |} in
  let noPlayer :=
    GameTheory.constructor
      {| GameTheory.p_players := Some 0%nat;
         GameTheory.p_strategies := GameTheory.p_strategies none;
         GameTheory.p_payoffs := GameTheory.p_payoffs none;
         GameTheory.p_iterations := GameTheory.p_iterations none |} in
  let noStrategy :=
    GameTheory.constructor
      {| GameTheory.p_players := GameTheory.p_players none;
         GameTheory.p_strategies := Some [];
         GameTheory.p_payoffs := GameTheory.p_payoffs none;
         GameTheory.p_iterations := GameTheory.p_iterations none |} in
  let threePlayers :=
    GameTheory.constructor
      {| GameTheory.p_players := Some 3%nat;
         GameTheory.p_strategies := GameTheory.p_strategies none;
         GameTheory.p_payoffs := GameTheory.p_payoffs none;
         GameTheory.p_iterations := GameTheory.p_iterations none |} in
  GameTheory.simulate noPlayer (fun _ => 0)
  = Normal {| GameTheory.equilibrium := [];
              GameTheory.res_payoffs := [];
              GameTheory.convergence := [Some 0; None];
              GameTheory.res_iterations := 2 |}
  /\
  GameTheory.simulate noStrategy (fun _ => 0)
  = Normal {| GameTheory.equilibrium := [None; None];
              GameTheory.res_payoffs := [Some 3; Some 3];
              GameTheory.convergence := [Some 0; Some (2 # 2)];
              GameTheory.res_iterations := 2 |}
  /\
  GameTheory.simulate threePlayers (fun _ => 0)
  = Normal {| GameTheory.equilibrium :=
                [Some "Cooperate"; Some "Cooperate"; Some "Cooperate"]%string;
              GameTheory.res_payoffs := [Some 3; Some 3; Some 0];
              GameTheory.convergence := [Some 0; Some (3 # 3)];
              GameTheory.res_iterations := 2 |}.
Proof.
  repeat split; vm_compute; reflexivity.
Qed.

(** Once [Array(players)] has passed, the run returns when there is no
    player, and, provided the cell [payoffs[0][0]] exists, whenever the
    number of players is not two or there is no strategy. *)
Lemma simulate_returns_on_count
  (cfg : GameTheory.GameTheoryConfig) (rnd : nat -> Q) :
  GameTheory.players cfg = 0%nat \/
  ((GameTheory.players cfg <> 2%nat \/ GameTheory.strategies cfg = []) /\
   exists row cell, nth_error (GameTheory.payoffs cfg) 0 = Some row /\
                    nth_error row 0 = Some cell) ->
  exists r, GameTheory.simulate cfg rnd = Normal r.
Proof.
  intros [Hn | [Hshape (row & cell & Hrow & Hcell)]].
  - apply simulateFrom_returns with (P := fun prof => prof = []).
    + intros prof p s -> _. reflexivity.
    + lia.
    + unfold GameTheory.initialStrategies. rewrite Hn. reflexivity.
  - destruct (Nat.eq_dec (GameTheory.players cfg) 2) as [E|NE].
    + destruct Hshape as [?|Hk]; [contradiction|].
      apply simulateFrom_returns with (P := fun prof => prof = [0; 0]%nat).
      * intros prof p s -> Hs. rewrite Hk in Hs. simpl in Hs.
        destruct Hs as [?| ->]; [lia|]. destruct p as [|[|p]]; reflexivity.
      * intros _ prof player ->. unfold GameTheory.getPayoff.
        cbn [length Nat.eqb nth]. rewrite Hrow, Hcell. eexists. reflexivity.
      * unfold GameTheory.initialStrategies. rewrite E, Hk. simpl.
        rewrite !floor_index_0. reflexivity.
    + apply simulateFrom_returns
        with (P := fun prof => length prof = GameTheory.players cfg).
      * intros prof p s Hl _. rewrite set_nth_length. exact Hl.
      * intros _ prof player Hl. unfold GameTheory.getPayoff.
        rewrite Hl. destruct (Nat.eqb_spec (GameTheory.players cfg) 2);
          [contradiction|].
        rewrite Hrow, Hcell. eexists. reflexivity.
      * unfold GameTheory.initialStrategies.
        rewrite length_map, length_seq. reflexivity.
Qed.

Lemma arrayLength_throws (n : Q) :
  n < 0 \/ ~ inject_Z (Qfloor n) == n \/ inject_Z (2 ^ 32) <= n ->
  GameTheory.arrayLength n = Throw RangeError.
Proof.
  intros H. unfold GameTheory.arrayLength.
  destruct (Qeq_bool (inject_Z (Qfloor n)) n) eqn:Ei; [|reflexivity].
  destruct (0 <=? Qfloor n)%Z eqn:E0; [|reflexivity].
  destruct (Qfloor n <? 2 ^ 32)%Z eqn:E1; [|reflexivity].
  exfalso. apply Qeq_bool_iff in Ei. apply Z.leb_le in E0.
  apply Z.ltb_lt in E1. rewrite Zle_Qle in E0. rewrite Zlt_Qlt in E1.
  change (inject_Z 0) with 0 in E0.
  destruct H as [H | [H | H]]; [lra | contradiction | lra].
Qed.

Lemma arrayLength_returns (n : Q) (k : nat) :
  n == inject_Z (Z.of_nat k) -> (Z.of_nat k < 2 ^ 32)%Z ->
  GameTheory.arrayLength n = Normal k.
Proof.
  intros Hn Hk. unfold GameTheory.arrayLength.
  assert (Hf : Qfloor n = Z.of_nat k).
  { rewrite (Qfloor_comp _ _ Hn). apply Qfloor_Z. }
  rewrite Hf.
  assert (Ei : Qeq_bool (inject_Z (Z.of_nat k)) n = true).
  { apply Qeq_bool_iff. symmetry. exact Hn. }
  rewrite Ei.
  assert (E0 : (0 <=? Z.of_nat k)%Z = true) by (apply Z.leb_le; lia).
  assert (E1 : (Z.of_nat k <? 2 ^ 32)%Z = true) by (apply Z.ltb_lt; exact Hk).
  rewrite E0, E1. simpl. rewrite Nat2Z.id. reflexivity.
Qed.

(** C6, amended.  The configuration is not validated.  With a number of
    players that is negative, not an integer, or 2^32 or more, [simulate]
    throws the [RangeError] of [Array(players)].  With an integer number
    of players from 0 up, it returns a result when there is no player, and,
    provided the cell [payoffs[0][0]] exists, whenever the number of
    players is not two or there is no strategy. *)
Theorem simulate_returns_without_validation
  (config : GameTheory.GivenConfig) (rnd : nat -> Q) :
  let players := spread 2 (GameTheory.given_players config) in
  (players < 0 \/ ~ inject_Z (Qfloor players) == players \/
   inject_Z (2 ^ 32) <= players ->
   GameTheory.simulateGiven config rnd = Throw RangeError) /\
  (forall n : nat,
     players == inject_Z (Z.of_nat n) -> (Z.of_nat n < 2 ^ 32)%Z ->
     let cfg :=
       GameTheory.constructor
         {| GameTheory.p_players := Some n;
            GameTheory.p_strategies := GameTheory.given_strategies config;
            GameTheory.p_payoffs := GameTheory.given_payoffs config;
            GameTheory.p_iterations := GameTheory.given_iterations config |} in
     n = 0%nat \/
     ((n <> 2%nat \/ GameTheory.strategies cfg = []) /\
      exists row cell, nth_error (GameTheory.payoffs cfg) 0 = Some row /\
                       nth_error row 0 = Some cell) ->
     exists r, GameTheory.simulateGiven config rnd = Normal r).
Proof.
  intros players. split.
  - intros H. unfold GameTheory.simulateGiven. fold players.
    rewrite (arrayLength_throws players H). reflexivity.
  - intros n Hn Hk cfg Hshape. unfold GameTheory.simulateGiven. fold players.
    rewrite (arrayLength_returns players n Hn Hk). cbn [cbind]. fold cfg.
    apply simulate_returns_on_count. exact Hshape.
Qed.

Lemma simulate_returns_without_validation_witness :
  GameTheory.simulateGiven
    {| GameTheory.given_players := Some (-1);
       GameTheory.given_strategies := None;
       GameTheory.given_payoffs := None;
       GameTheory.given_iterations := None |} (fun _ => 0)
  = Throw RangeError /\
  exists r,
    GameTheory.simulateGiven
      {| GameTheory.given_players := Some 3;
         GameTheory.given_strategies := None;
         GameTheory.given_payoffs := None;
         GameTheory.given_iterations := None |} (fun _ => 0)
    = Normal r.
Proof.
  split.
  - apply (simulate_returns_without_validation
             {| GameTheory.given_players := Some (-1);
                GameTheory.given_strategies := None;
                GameTheory.given_payoffs := None;
                GameTheory.given_iterations := None |} (fun _ => 0)).
    left. simpl. lra.
  - apply (proj2 (simulate_returns_without_validation
             {| GameTheory.given_players := Some 3;
                GameTheory.given_strategies := None;
                GameTheory.given_payoffs := None;
                GameTheory.given_iterations := None |} (fun _ => 0)) 3%nat).
    + reflexivity.
    + reflexivity.
    + right. split.
      * left. lia.
      * eexists _, _. split; reflexivity.
Defined.

(** ** EPRSimulator: the bounds of the shared state *)

Section EPRBounds.
Import EPR.

Lemma num_or_within (lo hi d : Q) (x : option Q) :
  within lo hi x -> lo <= d <= hi -> lo <= num_or x d <= hi.
Proof.
  destruct x as [q|]; simpl; intros Hx Hd; [|exact Hd].
  destruct (Qeq_bool q 0); assumption.
Qed.

Lemma constructor_in_bounds (sc : EPRScenario) :
  valid_initial (initial sc) -> in_bounds (state (constructor sc)).
Proof.
  intros (Hs & He & Hr & Hres). unfold in_bounds. simpl.
  repeat split; eapply num_or_within; eauto; lra.
Qed.

Lemma applySystemDynamics_in_bounds (z : Zone) (st : EPRState)
  (rnd : nat -> Q) (pos : nat) :
  in_bounds (fst (applySystemDynamics z st rnd pos)).
Proof.
  unfold applySystemDynamics, bind, random, ret, in_bounds. simpl.
  repeat split; apply clamp_bounds; lra.
Qed.

Lemma step_in_bounds (sim : EPRSimulator) (rnd : nat -> Q) (pos : nat) :
  in_bounds (state (fst (step sim rnd pos))).
Proof.
  unfold step, bind.
  destruct (actAll (agents sim) (zone_of (state sim)) (state sim) rnd pos)
    as [st pos1].
  pose proof (applySystemDynamics_in_bounds (zone_of (state sim)) st rnd pos1)
    as Hb.
  destruct (applySystemDynamics (zone_of (state sim)) st rnd pos1)
    as [st' pos2].
  exact Hb.
Qed.

Lemma recordedStates_in_bounds (rnd : nat -> Q) :
  forall todo sim pos,
    in_bounds (state sim) ->
    Forall in_bounds (recordedStates todo sim rnd pos).
Proof.
  induction todo as [|todo IH]; intros sim pos Hb; simpl; constructor.
  - exact Hb.
  - pose proof (step_in_bounds sim rnd pos) as Hs.
    destruct (step sim rnd pos) as [sim' pos']. apply IH. exact Hs.
Qed.

Lemma recordedStates_length (rnd : nat -> Q) :
  forall todo sim pos, length (recordedStates todo sim rnd pos) = todo.
Proof.
  induction todo as [|todo IH]; intros sim pos; simpl; [reflexivity|].
  destruct (step sim rnd pos) as [sim' pos']. rewrite IH. reflexivity.
Qed.

Lemma loop_records (rnd : nat -> Q) :
  forall todo sim h pos,
    snd (fst (loop todo sim h rnd pos))
    = pushAll h (recordedStates todo sim rnd pos).
Proof.
  induction todo as [|todo IH]; intros sim h pos; simpl.
  - unfold ret, pushAll. simpl. rewrite !app_nil_r. destruct h; reflexivity.
  - unfold bind at 1. destruct (step sim rnd pos) as [sim' pos'].
    rewrite IH. unfold pushAll, push. simpl.
    rewrite <- !app_assoc. reflexivity.
Qed.

Lemma loop_final_in_bounds (rnd : nat -> Q) :
  forall todo sim h pos,
    in_bounds (state sim) ->
    in_bounds (state (fst (fst (loop todo sim h rnd pos)))).
Proof.
  induction todo as [|todo IH]; intros sim h pos Hb; simpl.
  - exact Hb.
  - unfold bind at 1. pose proof (step_in_bounds sim rnd pos) as Hs.
    destruct (step sim rnd pos) as [sim' pos']. apply IH. exact Hs.
Qed.

End EPRBounds.

(** C2.  From a valid initial configuration, for every step count and all
    draws, the recorded series are the projections of the states at the
    recording points, one per step, and each of these states, as well as the
    final state, has stability in [0,2], equity and reputation in [0,1] and
    resources in [0,300]. *)
Theorem simulate_within_bounds (sc : EPR.EPRScenario) (rnd : nat -> Q)
  (pos : nat) :
  valid_initial (EPR.initial sc) ->
  let sim := EPR.constructor sc in
  let res := fst (fst (EPR.simulate sim rnd pos)) in
  let states := recordedStates (EPR.steps sc) sim rnd pos in
  length states = EPR.steps sc /\
  EPR.h_stability (EPR.history res) = map EPR.stability states /\
  EPR.h_equity (EPR.history res) = map EPR.equity states /\
  EPR.h_reputation (EPR.history res) = map EPR.reputation states /\
  Forall in_bounds states /\
  Forall (fun s => 0 <= s <= 2) (EPR.h_stability (EPR.history res)) /\
  Forall (fun e => 0 <= e <= 1) (EPR.h_equity (EPR.history res)) /\
  Forall (fun p => 0 <= p <= 1) (EPR.h_reputation (EPR.history res)) /\
  in_bounds (EPR.finalState res).
Proof.
  intros Hvalid sim res states.
  pose proof (constructor_in_bounds sc Hvalid) as Hb0. fold sim in Hb0.
  pose proof (recordedStates_in_bounds rnd (EPR.steps sc) sim pos Hb0) as Hall.
  fold states in Hall.
  pose proof (loop_records rnd (EPR.steps sc) sim EPR.empty_history pos) as Hrec.
  pose proof (loop_final_in_bounds rnd (EPR.steps sc) sim EPR.empty_history pos
                Hb0) as Hfin.
  fold states in Hrec.
  assert (Hh : EPR.history res = pushAll EPR.empty_history states
               /\ in_bounds (EPR.finalState res)).
  { subst res. unfold EPR.simulate, bind.
    change (EPR.scenario sim) with sc.
    destruct (EPR.loop (EPR.steps sc) sim EPR.empty_history rnd pos)
      as [[sim' h] pos'].
    simpl in *. split; assumption. }
  destruct Hh as [Hh Hf]. rewrite Hh. simpl.
  assert (Hproj : forall (f : EPR.EPRState -> Q) (lo hi : Q),
            (forall st, in_bounds st -> lo <= f st <= hi) ->
            Forall (fun x => lo <= x <= hi) (map f states)).
  { intros f lo hi Hf'. rewrite Forall_map.
    eapply Forall_impl; [|exact Hall]. exact Hf'. }
  split; [apply recordedStates_length|].
  split; [reflexivity|]. split; [reflexivity|]. split; [reflexivity|].
  split; [exact Hall|].
  split; [apply Hproj; intros st Hst; apply Hst|].
  split; [apply Hproj; intros st Hst; apply Hst|].
  split; [apply Hproj; intros st Hst; apply Hst|].
  exact Hf.
Qed.

Lemma simulate_within_bounds_witness :
  valid_initial (EPR.initial EPR.demographicsCollapse) /\
  Forall in_bounds
    (recordedStates (EPR.steps EPR.demographicsCollapse)
       (EPR.constructor EPR.demographicsCollapse) (fun _ => 1 # 2) 0).
Proof.
  assert (Hvalid : valid_initial (EPR.initial EPR.demographicsCollapse)).
  { unfold valid_initial, within; simpl. lra. }
  split; [exact Hvalid|].
  apply (simulate_within_bounds EPR.demographicsCollapse (fun _ => 1 # 2)
           0%nat Hvalid).
Defined.

(** ** EPRSimulator: zero initial values *)

(** C10, as stated, fails: the default stability 1.0 is below 1.2, so the
    run starts in the red zone. *)
Lemma zero_stability_starts_red :
  EPR.stability (EPR.state (EPR.constructor zeroStabilityScenario)) = 1 /\
  EPR.zone_of (EPR.state (EPR.constructor zeroStabilityScenario)) = EPR.red /\
  ~ zero_stability_starts_blue zeroStabilityScenario.
Proof.
  split; [reflexivity|]. split; [reflexivity|].
  intros H. destruct (H eq_refl) as [_ Hz]. vm_compute in Hz. discriminate.
Qed.

(** C10, amended.  The constructor replaces an initial value that is zero by
    the default of its field (value 80, stability 1, equity 0.5, reputation
    0.7, resources 100) and keeps one that is not zero; the four agents start
    from a copy of the resulting state; with a zero initial stability the run
    starts from stability 1, in the red zone. *)
Theorem constructor_replaces_zero (sc : EPR.EPRScenario) :
  let init := EPR.initial sc in
  let st := EPR.state (EPR.constructor sc) in
  (forall q, EPR.init_value init = Some q ->
     (q == 0 -> EPR.value st = 80) /\ (~ q == 0 -> EPR.value st = q)) /\
  (forall q, EPR.init_stability init = Some q ->
     (q == 0 -> EPR.stability st = 1 /\ EPR.zone_of st = EPR.red) /\
     (~ q == 0 -> EPR.stability st = q)) /\
  (forall q, EPR.init_equity init = Some q ->
     (q == 0 -> EPR.equity st = 5 # 10) /\ (~ q == 0 -> EPR.equity st = q)) /\
  (forall q, EPR.init_reputation init = Some q ->
     (q == 0 -> EPR.reputation st = 7 # 10) /\
     (~ q == 0 -> EPR.reputation st = q)) /\
  (forall q, EPR.init_resources init = Some q ->
     (q == 0 -> EPR.resources st = 100) /\ (~ q == 0 -> EPR.resources st = q)) /\
  map EPR.agent_state (EPR.agents (EPR.constructor sc)) = [st; st; st; st].
Proof.
  assert (Hor : forall q d,
            (q == 0 -> num_or (Some q) d = d) /\
            (~ q == 0 -> num_or (Some q) d = q)).
  { intros q d. unfold num_or. destruct (Qeq_bool q 0) eqn:E.
    - apply Qeq_bool_iff in E. split; [reflexivity | contradiction].
    - split; [|reflexivity]. intros Hq. apply Qeq_bool_iff in Hq. congruence. }
  intros init st. subst init st. simpl.
  split; [intros q H; rewrite H; apply Hor|].
  split.
  { intros q H. split.
    - intros Hq. unfold EPR.zone_of. simpl. rewrite H.
      rewrite (proj1 (Hor q 1) Hq). split; reflexivity.
    - rewrite H. apply Hor. }
  split; [intros q H; rewrite H; apply Hor|].
  split; [intros q H; rewrite H; apply Hor|].
  split; [intros q H; rewrite H; apply Hor|].
  reflexivity.
Qed.

Lemma constructor_replaces_zero_witness :
  EPR.stability (EPR.state (EPR.constructor zeroStabilityScenario)) = 1 /\
  EPR.zone_of (EPR.state (EPR.constructor zeroStabilityScenario)) = EPR.red.
Proof.
  apply (proj1 (proj2 (constructor_replaces_zero zeroStabilityScenario))
           0 eq_refl).
  reflexivity.
Defined.

(** ** EvolutionarySimulator: sorting and elitism *)

Section Evolution.
Import Evolutionary.

Variable fitnessCallback : option (list Q -> Q).

Lemma evaluateFitness_map (pop : list Individual) :
  evaluateFitness fitnessCallback pop = map (evaluated fitnessCallback) pop.
Proof.
  unfold evaluateFitness, evaluated, fit. destruct fitnessCallback; reflexivity.
Qed.

Lemma insert_not_nil (a : Individual) (l : list Individual) : insert a l <> [].
Proof.
  destruct l as [|b l]; simpl; [discriminate|].
  destruct (Qle_bool (fitness b) (fitness a)); discriminate.
Qed.

Lemma sort_nil (l : list Individual) : sort l = [] -> l = [].
Proof.
  destruct l as [|a l]; [reflexivity|]. unfold sort. simpl.
  intros H. destruct (insert_not_nil _ _ H).
Qed.

Lemma insert_In (a x : Individual) (l : list Individual) :
  In x (insert a l) <-> x = a \/ In x l.
Proof.
  induction l as [|b l IH]; simpl.
  - intuition.
  - destruct (Qle_bool (fitness b) (fitness a)); simpl.
    + intuition.
    + rewrite IH. intuition.
Qed.

Lemma sort_In (x : Individual) (l : list Individual) :
  In x (sort l) <-> In x l.
Proof.
  induction l as [|a l IH]; simpl; [tauto|].
  unfold sort in *. simpl. rewrite insert_In, IH. intuition.
Qed.

(** The first element of the sorted population has the highest fitness. *)
Lemma sort_head_max (l : list Individual) (b : Individual)
  (t : list Individual) :
  sort l = b :: t -> forall x, In x l -> fitness x <= fitness b.
Proof.
  revert b t. induction l as [|a l IH]; intros b t Hs x Hx; [destruct Hx|].
  unfold sort in Hs. simpl in Hs. fold (sort l) in Hs.
  destruct (sort l) as [|b' t'] eqn:Hl.
  - apply sort_nil in Hl. subst l. simpl in Hs. injection Hs as <- _.
    destruct Hx as [<-|[]]. lra.
  - specialize (IH b' t' eq_refl). simpl in Hs.
    destruct (Qle_bool (fitness b') (fitness a)) eqn:E.
    + apply Qle_bool_iff in E. injection Hs as <- _.
      destruct Hx as [<-|Hx]; [lra|]. specialize (IH x Hx). lra.
    + apply Qle_bool_false in E. injection Hs as <- _.
      destruct Hx as [<-|Hx]; [lra|]. apply IH. exact Hx.
Qed.

Lemma sorted_head_evaluated (pop : list Individual) (b : Individual)
  (t : list Individual) :
  sort (evaluateFitness fitnessCallback pop) = b :: t ->
  evaluated fitnessCallback b = b /\
  forall x, In x pop -> fit fitnessCallback (genes x) <= fitness b.
Proof.
  intros Hs. rewrite evaluateFitness_map in Hs. split.
  - assert (Hb : In b (map (evaluated fitnessCallback) pop)).
    { apply sort_In. rewrite Hs. left. reflexivity. }
    apply in_map_iff in Hb. destruct Hb as (x & <- & _). reflexivity.
  - intros x Hx.
    apply (sort_head_max _ _ _ Hs (evaluated fitnessCallback x)). apply in_map. exact Hx.
Qed.

(** *** Selection and reproduction return, with draws in [0, 1) *)

Variable rnd : nat -> Q.
Hypothesis rnd_range : forall i, 0 <= rnd i < 1.

Lemma pick_returns (pop : list Individual) (pos : nat) :
  pop <> [] ->
  exists x, pick pop rnd pos = Normal (Some x, S pos) /\ In x pop.
Proof.
  intros Hne. unfold pick, bindE, liftE, retE, random.
  assert (Hlt : (floor_index (rnd pos) (length pop) < length pop)%nat).
  { apply floor_index_lt; [apply rnd_range|].
    destruct pop; [contradiction | simpl; lia]. }
  destruct (nth_error pop (floor_index (rnd pos) (length pop))) as [x|] eqn:E.
  - exists x. split; [reflexivity|]. eapply nth_error_In. exact E.
  - apply nth_error_None in E. lia.
Qed.

Lemma tournamentLoop_returns (pop : list Individual) :
  pop <> [] ->
  forall todo b pos, In b pop ->
    exists b' pos',
      tournamentLoop pop todo (Some b) rnd pos = Normal (Some b', pos') /\
      In b' pop.
Proof.
  intros Hne. induction todo as [|todo IH]; intros b pos Hb; simpl.
  - exists b, pos. split; [reflexivity | exact Hb].
  - unfold bindE at 1.
    destruct (pick_returns pop pos Hne) as (c & -> & Hc).
    destruct (Qgtb (fitness c) (fitness b)); apply IH; assumption.
Qed.

Lemma tournamentSelection_returns (pop : list Individual) (pos : nat) :
  pop <> [] ->
  exists b pos', tournamentSelection pop rnd pos = Normal (b, pos') /\ In b pop.
Proof.
  intros Hne. unfold tournamentSelection. unfold bindE at 1.
  destruct (pick_returns pop pos Hne) as (b0 & -> & Hb0).
  unfold bindE at 1.
  destruct (tournamentLoop_returns pop Hne 2 b0 (S pos) Hb0)
    as (b & pos' & -> & Hb).
  exists b, pos'. split; [reflexivity | exact Hb].
Qed.

Lemma breed_returns (pop : list Individual) (rate : Q) :
  pop <> [] ->
  forall todo newPopulation pos,
    exists children pos',
      breed pop rate todo newPopulation rnd pos
      = Normal (newPopulation ++ children, pos') /\
      length children = todo.
Proof.
  intros Hne. induction todo as [|todo IH]; intros newPopulation pos; simpl.
  - exists [], pos. rewrite app_nil_r. split; reflexivity.
  - unfold bindE at 1.
    destruct (tournamentSelection_returns pop pos Hne) as (p1 & pos1 & -> & _).
    unfold bindE at 1.
    destruct (tournamentSelection_returns pop pos1 Hne) as (p2 & pos2 & -> & _).
    unfold bindE at 1, liftE at 1.
    destruct (crossover p1 p2 rnd pos2) as [child pos3].
    unfold bindE at 1, liftE at 1.
    destruct (mutate child rate rnd pos3) as [child' pos4].
    destruct (IH (newPopulation ++ [child']) pos4)
      as (children & pos' & -> & Hlen).
    exists (child' :: children), pos'. rewrite <- app_assoc. simpl.
    split; [reflexivity | congruence].
Qed.

Lemma evolveGeneration_returns (cfg : EvolutionaryConfig)
  (pop : list Individual) (pos : nat) :
  pop <> [] ->
  exists children pos',
    evolveGeneration cfg pop rnd pos
    = Normal (slice0 pop (eliteCount cfg) ++ children, pos') /\
    length children
    = (populationSize cfg - length (slice0 pop (eliteCount cfg)))%nat.
Proof.
  intros Hne. unfold evolveGeneration. apply breed_returns. exact Hne.
Qed.

Lemma slice0_head (b : Individual) (t : list Individual) (e : Z) :
  (1 <= e)%Z -> exists t', slice0 (b :: t) e = b :: t'.
Proof.
  intros He. unfold slice0. destruct (Z.ltb_spec e 0); [lia|].
  destruct (Z.to_nat e) as [|k] eqn:E; [lia|].
  simpl. eexists. reflexivity.
Qed.

(** *** The loop over the generations *)

Lemma generationsLoop_returns :
  forall todo gen sim pos,
    population sim <> [] ->
    (1 <= populationSize (config sim))%nat ->
    exists sim' pos' added,
      generationsLoop fitnessCallback todo gen sim rnd pos = Normal (sim', pos')
      /\ generationHistory sim' = generationHistory sim ++ added
      /\ config sim' = config sim
      /\ population sim' <> []
      /\ map generation added = seq gen todo
      /\ (forall g, hd_error added = Some g ->
            forall x, In x (population sim) -> fit fitnessCallback (genes x) <= bestFitness g)
      /\ ((1 <= eliteCount (config sim))%Z ->
            nondecreasing (map bestFitness added)).
Proof.
  induction todo as [|todo IH]; intros gen sim pos Hne HN; simpl.
  - exists sim, pos, []. rewrite app_nil_r.
    repeat split; auto. intros g Hg. discriminate.
  - destruct (sort (evaluateFitness fitnessCallback (population sim)))
      as [|best rest] eqn:Hsort.
    { apply sort_nil in Hsort. rewrite evaluateFitness_map in Hsort.
      apply map_eq_nil in Hsort. contradiction. }
    destruct (sorted_head_evaluated _ _ _ Hsort) as [Hev Hmax].
    unfold bindE at 1.
    destruct (evolveGeneration_returns (config sim) (best :: rest) pos)
      as (children & pos1 & -> & Hlen); [discriminate|].
    set (data := {| generation := gen;
                    avgFitness := getAverageFitness (best :: rest);
                    bestFitness := fitness best;
                    diversity := calculateDiversity (best :: rest) |}).
    set (pop' := slice0 (best :: rest) (eliteCount (config sim)) ++ children).
    assert (Hne' : pop' <> []).
    { subst pop'. intros E. apply (f_equal (@length _)) in E.
      rewrite length_app in E. simpl in E. lia. }
    destruct (IH (S gen)
                {| config := config sim; population := pop';
                   generationHistory := generationHistory sim ++ [data] |}
                pos1 Hne' HN)
      as (sim' & pos' & added & Hrun & Hh & Hc & Hp & Hg & Hfirst & Hmono).
    simpl in *.
    exists sim', pos', (data :: added).
    split; [exact Hrun|]. rewrite Hh, <- app_assoc.
    split; [reflexivity|]. split; [exact Hc|]. split; [exact Hp|].
    split; [simpl; rewrite Hg; reflexivity|].
    split.
    + intros g Hg0 x Hx. injection Hg0 as <-. simpl. apply Hmax. exact Hx.
    + intros He. simpl. destruct added as [|g1 added']; [exact I|].
      split; [|apply Hmono; exact He].
      destruct (slice0_head best rest _ He) as [t' Ht'].
      specialize (Hfirst g1 eq_refl best).
      rewrite <- Hev at 1. simpl. apply Hfirst.
      subst pop'. rewrite Ht'. left. reflexivity.
Qed.

Lemma newIndividuals_length :
  forall n geneLength pos,
    length (fst (newIndividuals n geneLength rnd pos)) = n.
Proof.
  induction n as [|n IH]; intros geneLength pos; simpl; [reflexivity|].
  unfold bind at 1. destruct (draws geneLength rnd pos) as [g pos1].
  unfold bind at 1. specialize (IH geneLength pos1).
  destruct (newIndividuals n geneLength rnd pos1) as [rest pos2].
  simpl in *. congruence.
Qed.

Lemma evolve_returns (sim : EvolutionarySimulator) (pos : nat) :
  (1 <= populationSize (config sim))%nat ->
  exists res sim' pos' added,
    evolve fitnessCallback sim rnd pos = Normal (res, sim', pos') /\
    res_generations res = generationHistory sim ++ added /\
    generationHistory sim' = generationHistory sim ++ added /\
    map generation added = seq 0 (generations (config sim)) /\
    ((1 <= eliteCount (config sim))%Z -> nondecreasing (map bestFitness added))
    /\ config sim' = config sim /\ population sim' <> [].
Proof.
  intros HN. unfold evolve.
  set (geneLength := match population sim with
                     | first :: _ =>
                         if (length (genes first) =? 0)%nat then 5%nat
                         else length (genes first)
                     | [] => 5%nat
                     end).
  assert (Hinit : exists sim0 pos0,
             (match population sim with
              | [] => liftE (initialize sim geneLength)
              | _ :: _ => retE sim
              end) rnd pos = Normal (sim0, pos0) /\
             population sim0 <> [] /\ config sim0 = config sim /\
             generationHistory sim0 = generationHistory sim).
  { destruct (population sim) as [|i0 l0] eqn:Hpop.
    - unfold liftE, initialize, bind.
      pose proof (newIndividuals_length (populationSize (config sim))
                    geneLength pos) as Hl.
      destruct (newIndividuals (populationSize (config sim)) geneLength rnd pos)
        as [pop pos0].
      simpl in Hl. eexists _, _. split; [reflexivity|]. simpl.
      repeat split; auto. intros E. rewrite E in Hl. simpl in Hl. lia.
    - exists sim, pos. unfold retE. rewrite Hpop.
      repeat split; auto. discriminate. }
  destruct Hinit as (sim0 & pos0 & Hrun0 & Hne0 & Hc0 & Hh0).
  unfold bindE at 1. rewrite Hrun0. unfold bindE at 1. rewrite Hc0.
  destruct (generationsLoop_returns (generations (config sim)) 0%nat sim0 pos0
              Hne0 ltac:(rewrite Hc0; exact HN))
    as (sim' & pos' & added & Hrun & Hh & Hc & Hp & Hg & _ & Hmono).
  rewrite Hrun.
  destruct (sort (evaluateFitness fitnessCallback (population sim')))
    as [|best rest] eqn:Hsort.
  { apply sort_nil in Hsort. rewrite evaluateFitness_map in Hsort.
    apply map_eq_nil in Hsort. contradiction. }
  unfold retE. eexists _, _, _, added. split; [reflexivity|]. simpl.
  rewrite Hh, Hh0. split; [reflexivity|]. split; [reflexivity|].
  split; [exact Hg|]. split; [rewrite Hc0 in Hmono; exact Hmono|].
  split; [congruence | discriminate].
Qed.

End Evolution.

Lemma nondecreasing_consecutive (l : list Q) :
  nondecreasing l ->
  forall i a b, nth_error l i = Some a -> nth_error l (S i) = Some b -> a <= b.
Proof.
  induction l as [|x l IH]; intros Hl i a b Ha Hb; [destruct i; discriminate|].
  destruct l as [|y l]; [destruct i; discriminate|].
  destruct Hl as [Hxy Hl]. destruct i as [|i].
  - simpl in Ha, Hb. congruence.
  - apply (IH Hl i a b); assumption.
Qed.

Lemma eliteCount_populationSize (cfg : Evolutionary.EvolutionaryConfig) :
  (1 <= Evolutionary.eliteCount cfg)%Z ->
  (1 <= Evolutionary.populationSize cfg)%nat.
Proof.
  unfold Evolutionary.eliteCount.
  destruct (Evolutionary.populationSize cfg) as [|n]; [|lia].
  destruct (Evolutionary.selectionPressure cfg) as [a b]. cbn. lia.
Qed.

(** C4, as stated, fails.  With one individual and the default selection
    pressure no elite is kept ([Math.floor(1 * 0.2)] is 0); the child of the
    only individual has every gene mutated from 0.5 to 0.4, and the best
    fitness falls from 1.25 to 0.8. *)
Lemma best_fitness_can_decrease :
  Evolutionary.eliteCount (Evolutionary.config tinyPopulation) = 0%Z /\
  exists res sim' pos' g0 g1,
    Evolutionary.evolve None tinyPopulation halfThenZero 0%nat
    = Normal (res, sim', pos') /\
    Evolutionary.res_generations res = [g0; g1] /\
    Evolutionary.bestFitness g0 == 125 # 100 /\
    Evolutionary.bestFitness g1 == 8 # 10 /\
    Evolutionary.bestFitness g1 < Evolutionary.bestFitness g0.
Proof.
  split; [reflexivity|].
  eexists _, _, _, _, _.
  split; [vm_compute; reflexivity|].
  split; [reflexivity|].
  repeat split; vm_compute; reflexivity.
Qed.

(** C4, amended.  When at least one elite individual is kept
    ([Math.floor(populationSize * selectionPressure) >= 1]), [evolve] with the
    default fitness returns, and the best fitness it records never decreases
    from one generation to the next. *)
Theorem best_fitness_nondecreasing_with_elite
  (sim : Evolutionary.EvolutionarySimulator) (rnd : nat -> Q) (pos : nat) :
  (forall i, 0 <= rnd i < 1) ->
  Evolutionary.generationHistory sim = [] ->
  (1 <= Evolutionary.eliteCount (Evolutionary.config sim))%Z ->
  exists res sim' pos',
    Evolutionary.evolve None sim rnd pos = Normal (res, sim', pos') /\
    forall i g1 g2,
      nth_error (Evolutionary.res_generations res) i = Some g1 ->
      nth_error (Evolutionary.res_generations res) (S i) = Some g2 ->
      Evolutionary.bestFitness g1 <= Evolutionary.bestFitness g2.
Proof.
  intros Hrnd Hfresh Helite.
  destruct (evolve_returns None rnd Hrnd sim pos
              (eliteCount_populationSize _ Helite))
    as (res & sim' & pos' & added & Hrun & Hres & _ & _ & Hmono & _).
  exists res, sim', pos'. split; [exact Hrun|].
  intros i g1 g2 H1 H2. rewrite Hres, Hfresh, app_nil_l in H1, H2.
  apply (nondecreasing_consecutive _ (Hmono Helite) i).
  - rewrite nth_error_map, H1. reflexivity.
  - rewrite nth_error_map, H2. reflexivity.
Qed.

Lemma best_fitness_nondecreasing_with_elite_witness :
  exists res sim' pos',
    Evolutionary.evolve None defaultSimulator (fun _ => 1 # 2) 0%nat
    = Normal (res, sim', pos') /\
    forall i g1 g2,
      nth_error (Evolutionary.res_generations res) i = Some g1 ->
      nth_error (Evolutionary.res_generations res) (S i) = Some g2 ->
      Evolutionary.bestFitness g1 <= Evolutionary.bestFitness g2.
Proof.
  apply (best_fitness_nondecreasing_with_elite defaultSimulator
           (fun _ => 1 # 2) 0%nat).
  - intros i. lra.
  - reflexivity.
  - vm_compute. discriminate.
Defined.

(** ** EvolutionarySimulator: the number of generations *)

(** C7, as stated, fails for a population of size 0: [initialize] leaves the
    population empty and the first generation reads
    [this.population[0].fitness]. *)
Lemma evolve_throws_on_empty_population :
  (1 <= Evolutionary.generations (Evolutionary.config emptyPopulation))%nat /\
  Evolutionary.evolve None emptyPopulation (fun _ => 0) 0%nat = Throw TypeError.
Proof.
  split; [simpl; lia | reflexivity].
Qed.

(** C7, amended.  With a population size of at least one, a call of [evolve]
    on a simulator without recorded history returns, whatever the fitness
    function and the draws, and its [generations] array holds exactly one
    entry per configured generation, numbered [0 .. G-1]: the loop never
    stops on the convergence value. *)
Theorem evolve_runs_every_generation
  (fitnessCallback : option (list Q -> Q))
  (sim : Evolutionary.EvolutionarySimulator) (rnd : nat -> Q) (pos : nat) :
  (forall i, 0 <= rnd i < 1) ->
  Evolutionary.generationHistory sim = [] ->
  (1 <= Evolutionary.populationSize (Evolutionary.config sim))%nat ->
  exists res sim' pos',
    Evolutionary.evolve fitnessCallback sim rnd pos = Normal (res, sim', pos') /\
    length (Evolutionary.res_generations res)
    = Evolutionary.generations (Evolutionary.config sim) /\
    map Evolutionary.generation (Evolutionary.res_generations res)
    = seq 0 (Evolutionary.generations (Evolutionary.config sim)).
Proof.
  intros Hrnd Hfresh HN.
  destruct (evolve_returns fitnessCallback rnd Hrnd sim pos HN)
    as (res & sim' & pos' & added & Hrun & Hres & _ & Hgen & _).
  exists res, sim', pos'. split; [exact Hrun|].
  rewrite Hres, Hfresh. simpl. split; [|exact Hgen].
  rewrite <- (length_map Evolutionary.generation), Hgen. apply length_seq.
Qed.

Lemma evolve_runs_every_generation_witness :
  exists res sim' pos',
    Evolutionary.evolve None defaultSimulator (fun _ => 1 # 2) 0%nat
    = Normal (res, sim', pos') /\
    length (Evolutionary.res_generations res) = 100%nat /\
    map Evolutionary.generation (Evolutionary.res_generations res)
    = seq 0 100.
Proof.
  apply (evolve_runs_every_generation None defaultSimulator
           (fun _ => 1 # 2) 0%nat).
  - intros i. lra.
  - reflexivity.
  - simpl. lia.
Defined.

(** ** ProspectTheorySimulator: the probability weighting function *)

Section Weighting.
Import ProspectTheory.
Local Open Scope R_scope.

Lemma pow_positive_base (x y : R) : 0 < x -> pow x y = Rpower x y /\ 0 < pow x y.
Proof.
  intros Hx. unfold pow. destruct (Rlt_dec 0 x) as [_|N]; [|contradiction].
  split; [reflexivity|]. unfold Rpower. apply exp_pos.
Qed.

Lemma weightingDen_positive (p g : R) :
  0 < p < 1 -> g <> 0 ->
  weightingDen p g = Some (Rpower (Rpower p g + Rpower (1 - p) g) (1 / g)) /\
  0 < Rpower (Rpower p g + Rpower (1 - p) g) (1 / g).
Proof.
  intros [H0 H1] Hg. unfold weightingDen, exponent.
  destruct (Req_dec_T g 0) as [E | _]; [contradiction|].
  destruct (pow_positive_base p g H0) as [Ep Hp].
  destruct (pow_positive_base (1 - p) g ltac:(Lra.lra)) as [Eq Hq].
  destruct (pow_positive_base (pow p g + pow (1 - p) g) (1 / g)
              ltac:(Lra.lra)) as [Ed Hd].
  rewrite Ed, Ep, Eq in *. split; [reflexivity | exact Hd].
Qed.

End Weighting.

(** C5, as stated, fails at [gamma = 0].  With [p = 1/2] neither branch on
    [p] is taken and the formula is evaluated: its exponent [1 / gamma]
    divides by zero, the divisor is [Infinity] and the weight is 0. *)
Lemma weighting_exponent_divides_by_zero :
  (0 < 1 / 2 < 1)%R /\
  ProspectTheory.exponent 0 = None /\
  ProspectTheory.weightingDen (1 / 2) 0 = None /\
  ProspectTheory.weightingFunction (1 / 2) 0 = 0%R.
Proof.
  assert (E : ProspectTheory.exponent 0 = None).
  { unfold ProspectTheory.exponent.
    destruct (Req_dec_T 0 0) as [_ | N]; [reflexivity | contradiction]. }
  assert (D : ProspectTheory.weightingDen (1 / 2) 0 = None).
  { unfold ProspectTheory.weightingDen. rewrite E. reflexivity. }
  split; [Lra.lra|]. split; [exact E|]. split; [exact D|].
  unfold ProspectTheory.weightingFunction.
  destruct (Rle_dec (1 / 2) 0); [Lra.lra|].
  destruct (Rle_dec 1 (1 / 2)); [Lra.lra|].
  rewrite D. reflexivity.
Qed.

(** C5, amended.  For every [gamma], [weightingFunction] is 0 at [p = 0]
    (and below) and 1 at [p = 1] (and above), as are the first and the last
    sample of [calculateWeightingFunction].  For [0 < p < 1] and [gamma]
    from 0.001 to 1 it is [p^gamma / (p^gamma + (1-p)^gamma)^(1/gamma)],
    whose divisor is positive. *)
Theorem weightingFunction_boundaries (g : R) :
  (ProspectTheory.weightingFunction 0 g = 0 /\
   ProspectTheory.weightingFunction 1 g = 1 /\
   (forall p, p <= 0 -> ProspectTheory.weightingFunction p g = 0) /\
   (forall p, 1 <= p -> ProspectTheory.weightingFunction p g = 1) /\
   (1 / 1000 <= g <= 1 ->
    forall p, 0 < p < 1 ->
      ProspectTheory.weightingDen p g
      = Some (Rpower (Rpower p g + Rpower (1 - p) g) (1 / g)) /\
      0 < Rpower (Rpower p g + Rpower (1 - p) g) (1 / g) /\
      ProspectTheory.weightingFunction p g
      = Rpower p g / Rpower (Rpower p g + Rpower (1 - p) g) (1 / g)) /\
   (forall cfg,
      ProspectTheory.cfg_gamma cfg = g ->
      nth_error (ProspectTheory.calculateWeightingFunction cfg) 0 = Some 0 /\
      nth_error (ProspectTheory.calculateWeightingFunction cfg) 100 = Some 1))%R.
Proof.
  assert (Hlow : forall p, (p <= 0)%R -> ProspectTheory.weightingFunction p g = 0%R).
  { intros p Hp. unfold ProspectTheory.weightingFunction.
    destruct (Rle_dec p 0); [reflexivity | contradiction]. }
  assert (Hhigh : forall p, (1 <= p)%R ->
            ProspectTheory.weightingFunction p g = 1%R).
  { intros p Hp. unfold ProspectTheory.weightingFunction.
    destruct (Rle_dec p 0); [Lra.lra|].
    destruct (Rle_dec 1 p); [reflexivity | contradiction]. }
  split; [apply Hlow; Lra.lra|]. split; [apply Hhigh; Lra.lra|].
  split; [exact Hlow|]. split; [exact Hhigh|]. split.
  - intros Hg p [H0 H1].
    destruct (weightingDen_positive p g (conj H0 H1) ltac:(Lra.lra))
      as [Eden Hden].
    destruct (pow_positive_base p g H0) as [Ep Hp].
    split; [exact Eden|]. split; [exact Hden|].
    unfold ProspectTheory.weightingFunction.
    destruct (Rle_dec p 0); [Lra.lra|]. destruct (Rle_dec 1 p); [Lra.lra|].
    rewrite Eden, Ep. reflexivity.
  - intros cfg <-. unfold ProspectTheory.calculateWeightingFunction.
    rewrite !nth_error_map. split.
    + change (nth_error (seq 0 101) 0) with (Some 0%nat). simpl.
      f_equal. apply Hlow. Lra.lra.
    + replace (nth_error (seq 0 101) 100) with (Some 100%nat) by reflexivity.
      cbn [option_map]. f_equal.
      replace (IZR (Z.of_nat 100) / 100)%R with 1%R
        by (change (Z.of_nat 100) with 100%Z; Lra.lra).
      apply Hhigh. Lra.lra.
Qed.

Lemma weightingFunction_boundaries_witness :
  (ProspectTheory.weightingDen (1 / 2) (61 / 100)
   = Some (Rpower (Rpower (1 / 2) (61 / 100) + Rpower (1 - 1 / 2) (61 / 100))
             (1 / (61 / 100))) /\
   0 < Rpower (Rpower (1 / 2) (61 / 100) + Rpower (1 - 1 / 2) (61 / 100))
         (1 / (61 / 100)) /\
   ProspectTheory.weightingFunction (1 / 2) (61 / 100)
   = Rpower (1 / 2) (61 / 100)
     / Rpower (Rpower (1 / 2) (61 / 100) + Rpower (1 - 1 / 2) (61 / 100))
         (1 / (61 / 100)))%R.
Proof.
  apply (proj1 (proj2 (proj2 (proj2 (proj2
           (weightingFunction_boundaries (61 / 100)%R)))))).
  - Lra.lra.
  - Lra.lra.
Defined.

(** ** ProspectTheorySimulator: wealth *)

Section Wealth.
Import ProspectTheory.
Local Open Scope R_scope.

Variable cfg : ProspectTheoryConfig.
Variable rnd : nat -> R.

Lemma simulateAgentDecision_gain (a : PTAgent) (pos : nat) :
  gain a (fst (fst (simulateAgentDecision cfg a rnd pos))).
Proof.
  unfold simulateAgentDecision, bind, ret, random, gain, add_wealth,
    gambleHigh, sureGain.
  destruct (Rlt_dec 0 (cfg_lokLevel cfg));
    destruct (Rlt_dec 0 (lokLevel a));
    match goal with
    | |- context [Rlt_dec ?r ?p] => destruct (Rlt_dec r p)
    end;
    try (match goal with
         | |- context [Rltb ?r ?p] => destruct (Rltb r p)
         end);
    simpl; auto.
Qed.

Lemma agentsLoop_cons (a : PTAgent) (ags : list PTAgent) (pos : nat) :
  agentsLoop cfg (a :: ags) rnd pos
  = let '(a', (choice, risk), pos1) := simulateAgentDecision cfg a rnd pos in
    let '(rest', (stepWealth, stepRisk, stepDecisions), pos2) :=
      agentsLoop cfg ags rnd pos1 in
    (a' :: rest',
     (wealth a' :: stepWealth, risk :: stepRisk, choice :: stepDecisions),
     pos2).
Proof.
  simpl. unfold bind.
  destruct (simulateAgentDecision cfg a rnd pos) as [[a' [choice risk]] pos1].
  destruct (agentsLoop cfg ags rnd pos1)
    as [[rest' [[stepWealth stepRisk] stepDecisions]] pos2].
  reflexivity.
Qed.

Lemma agentsLoop_gain :
  forall ags pos,
    Forall2 gain ags (fst (fst (agentsLoop cfg ags rnd pos))) /\
    fst (fst (snd (fst (agentsLoop cfg ags rnd pos))))
    = map wealth (fst (fst (agentsLoop cfg ags rnd pos))).
Proof.
  induction ags as [|a ags IH]; intros pos.
  - simpl. split; [constructor | reflexivity].
  - rewrite agentsLoop_cons.
    pose proof (simulateAgentDecision_gain a pos) as Hg.
    destruct (simulateAgentDecision cfg a rnd pos)
      as [[a' [choice risk]] pos1].
    specialize (IH pos1).
    destruct (agentsLoop cfg ags rnd pos1)
      as [[rest' [[stepWealth stepRisk] stepDecisions]] pos2].
    simpl in *. destruct IH as [IH1 IH2]. split.
    + constructor; assumption.
    + f_equal. exact IH2.
Qed.

Lemma agentsAt_S (k : nat) :
  forall ags pos,
    Forall2 gain (fst (agentsAt cfg rnd k ags pos)) (fst (agentsAt cfg rnd (S k) ags pos)).
Proof.
  induction k as [|k IH]; intros ags pos.
  - simpl. pose proof (agentsLoop_gain ags pos) as [Hg _].
    destruct (agentsLoop cfg ags rnd pos) as [[ags1 series] pos1]. exact Hg.
  - change (agentsAt cfg rnd (S (S k)) ags pos)
      with (let '(ags1, _, pos1) := agentsLoop cfg ags rnd pos in
            agentsAt cfg rnd (S k) ags1 pos1).
    change (agentsAt cfg rnd (S k) ags pos)
      with (let '(ags1, _, pos1) := agentsLoop cfg ags rnd pos in
            agentsAt cfg rnd k ags1 pos1).
    destruct (agentsLoop cfg ags rnd pos) as [[ags1 series] pos1]. apply IH.
Qed.

Lemma gain_le (a a' : PTAgent) : gain a a' -> wealth a <= wealth a'.
Proof. unfold gain. intros [H|[H|H]]; Lra.lra. Qed.

Lemma agentsAt_nonnegative (ags : list PTAgent) (pos : nat) :
  Forall (fun a => 0 <= wealth a) ags ->
  forall k, Forall (fun a => 0 <= wealth a) (fst (agentsAt cfg rnd k ags pos)).
Proof.
  intros H0. induction k as [|k IH]; [exact H0|].
  pose proof (agentsAt_S k ags pos) as Hg.
  revert IH Hg. generalize (fst (agentsAt cfg rnd k ags pos)).
  generalize (fst (agentsAt cfg rnd (S k) ags pos)).
  intros l' l Hl Hg. induction Hg as [|a a' l l' Ha Hg IH]; constructor.
  - inversion Hl; subst. apply gain_le in Ha. Lra.lra.
  - apply IH. inversion Hl; assumption.
Qed.

Lemma fold_left_Rplus_le (l l' : list R) :
  Forall2 Rle l l' ->
  forall x x', x <= x' -> fold_left Rplus l x <= fold_left Rplus l' x'.
Proof.
  induction 1 as [|a a' l l' Ha Hl IH]; intros x x' Hx; simpl; [exact Hx|].
  apply IH. Lra.lra.
Qed.

Lemma average_le (l l' : list R) :
  Forall2 Rle l l' -> average l <= average l'.
Proof.
  intros H. unfold average. rewrite <- (Forall2_length H).
  destruct l as [|a l].
  - inversion H; subst. apply Rle_refl.
  - apply Rmult_le_compat_r.
    + apply Rlt_le, Rinv_0_lt_compat, lt_0_INR. simpl. lia.
    + apply fold_left_Rplus_le; [exact H | apply Rle_refl].
Qed.

Lemma average_wealth_le (l l' : list PTAgent) :
  Forall2 gain l l' -> average (map wealth l) <= average (map wealth l').
Proof.
  intros H. apply average_le. induction H; simpl; constructor; auto.
  apply gain_le. assumption.
Qed.

Lemma agentsAt_step (k : nat) (ags : list PTAgent) (pos : nat) :
  agentsAt cfg rnd (S k) ags pos
  = agentsAt cfg rnd k (fst (fst (agentsLoop cfg ags rnd pos)))
      (snd (agentsLoop cfg ags rnd pos)).
Proof.
  simpl. destruct (agentsLoop cfg ags rnd pos) as [[ags1 series] pos1].
  reflexivity.
Qed.

Lemma stepsLoop_S (todo : nat) (ags : list PTAgent) (s : Series) (pos : nat) :
  stepsLoop cfg (S todo) ags s rnd pos
  = let '(ags1, (stepWealth, stepRisk, stepDecisions), pos1) :=
      agentsLoop cfg ags rnd pos in
    stepsLoop cfg todo ags1
      {| s_wealth := s_wealth s ++ [average stepWealth];
         s_riskPropensity := s_riskPropensity s ++ [average stepRisk];
         s_decisions := s_decisions s ++ [average stepDecisions] |} rnd pos1.
Proof.
  simpl. unfold bind.
  destruct (agentsLoop cfg ags rnd pos)
    as [[ags1 [[stepWealth stepRisk] stepDecisions]] pos1].
  reflexivity.
Qed.

Lemma stepsLoop_agentsAt :
  forall todo ags s pos,
    fst (fst (stepsLoop cfg todo ags s rnd pos)) = fst (agentsAt cfg rnd todo ags pos) /\
    s_wealth (snd (fst (stepsLoop cfg todo ags s rnd pos)))
    = s_wealth s ++ averagesFrom cfg rnd ags pos todo.
Proof.
  induction todo as [|todo IH]; intros ags s pos.
  - simpl. unfold averagesFrom. simpl. rewrite app_nil_r. auto.
  - rewrite stepsLoop_S. unfold averagesFrom.
    change (seq 0 (S todo)) with (0%nat :: seq 1 todo).
    rewrite <- seq_shift. cbn [map]. rewrite map_map.
    rewrite (agentsAt_step todo), (agentsAt_step 0).
    rewrite (map_ext
               (fun k => average (map wealth (fst (agentsAt cfg rnd (S (S k)) ags pos))))
               (fun k => average (map wealth
                  (fst (agentsAt cfg rnd (S k)
                          (fst (fst (agentsLoop cfg ags rnd pos)))
                          (snd (agentsLoop cfg ags rnd pos)))))))
      by (intros k; rewrite (agentsAt_step (S k)); reflexivity).
    pose proof (agentsLoop_gain ags pos) as [_ Hw].
    destruct (agentsLoop cfg ags rnd pos)
      as [[ags1 [[stepWealth stepRisk] stepDecisions]] pos1].
    cbn [fst snd] in *. subst stepWealth.
    destruct (IH ags1
                {| s_wealth := s_wealth s ++ [average (map wealth ags1)];
                   s_riskPropensity := s_riskPropensity s ++ [average stepRisk];
                   s_decisions := s_decisions s ++ [average stepDecisions] |}
                pos1) as [IH1 IH2].
    split; [exact IH1|]. rewrite IH2. cbn [s_wealth agentsAt fst].
    rewrite <- app_assoc. reflexivity.
Qed.

End Wealth.

Lemma simulate_agentsAt (sim : ProspectTheory.ProspectTheorySimulator)
  (steps : nat) (rnd : nat -> R) (pos : nat) :
  ProspectTheory.agents (snd (fst (ProspectTheory.simulate sim steps rnd pos)))
  = fst (agentsAt (ProspectTheory.config sim) rnd steps (startAgents sim) pos)
  /\
  ProspectTheory.res_wealth (fst (fst (ProspectTheory.simulate sim steps rnd pos)))
  = averagesFrom (ProspectTheory.config sim) rnd (startAgents sim) pos steps.
Proof.
  unfold ProspectTheory.simulate, startAgents, bind.
  set (sim0 := match ProspectTheory.agents sim with
               | [] => ProspectTheory.initialize sim 500 1000%R
               | _ :: _ => sim
               end).
  assert (Hc : ProspectTheory.config sim0 = ProspectTheory.config sim).
  { subst sim0. destruct (ProspectTheory.agents sim); reflexivity. }
  assert (Ha : ProspectTheory.agents sim0
               = match ProspectTheory.agents sim with
                 | [] => ProspectTheory.agents
                           (ProspectTheory.initialize sim 500 1000%R)
                 | _ :: _ => ProspectTheory.agents sim
                 end).
  { subst sim0. destruct (ProspectTheory.agents sim) eqn:E;
      [reflexivity | exact E]. }
  rewrite <- Ha, <- Hc.
  destruct (stepsLoop_agentsAt (ProspectTheory.config sim0) rnd steps
              (ProspectTheory.agents sim0)
              {| ProspectTheory.s_wealth := [];
                 ProspectTheory.s_riskPropensity := [];
                 ProspectTheory.s_decisions := [] |} pos) as [H1 H2].
  destruct (ProspectTheory.stepsLoop (ProspectTheory.config sim0) steps
              (ProspectTheory.agents sim0) _ rnd pos) as [[ags s] pos'].
  simpl in *. split; assumption.
Qed.

Lemma nth_error_map_seq {A : Type} (f : nat -> A) (n i : nat) (x : A) :
  nth_error (map f (seq 0 n)) i = Some x -> x = f i /\ (i < n)%nat.
Proof.
  intros H.
  assert (Hi : (i < length (map f (seq 0 n)))%nat).
  { apply nth_error_Some. congruence. }
  rewrite length_map, length_seq in Hi.
  split; [|exact Hi].
  apply (nth_error_nth _ _ (f 0%nat)) in H. rewrite <- H.
  rewrite map_nth, seq_nth by exact Hi. reflexivity.
Qed.

(** C9.  Each decision adds 0, 50 or 300 to the wealth of the agent; so does
    every step of a run of [simulate], for every agent; from wealths that are
    not negative no wealth ever becomes negative; and the series of average
    wealths that [simulate] returns never decreases. *)
Theorem wealth_never_decreases
  (sim : ProspectTheory.ProspectTheorySimulator) (steps : nat)
  (rnd : nat -> R) (pos : nat) :
  let cfg := ProspectTheory.config sim in
  let start := startAgents sim in
  let res := fst (fst (ProspectTheory.simulate sim steps rnd pos)) in
  let sim' := snd (fst (ProspectTheory.simulate sim steps rnd pos)) in
  (forall a p,
     gain a (fst (fst (ProspectTheory.simulateAgentDecision cfg a rnd p)))) /\
  (forall k,
     Forall2 gain (fst (agentsAt cfg rnd k start pos))
                  (fst (agentsAt cfg rnd (S k) start pos))) /\
  (Forall (fun a => 0 <= ProspectTheory.wealth a)%R start ->
   forall k, Forall (fun a => 0 <= ProspectTheory.wealth a)%R
               (fst (agentsAt cfg rnd k start pos))) /\
  ProspectTheory.agents sim' = fst (agentsAt cfg rnd steps start pos) /\
  ProspectTheory.res_wealth res = averagesFrom cfg rnd start pos steps /\
  (forall i x y,
     nth_error (ProspectTheory.res_wealth res) i = Some x ->
     nth_error (ProspectTheory.res_wealth res) (S i) = Some y ->
     (x <= y)%R).
Proof.
  intros cfg start res sim'.
  destruct (simulate_agentsAt sim steps rnd pos) as [Hagents Hseries].
  fold cfg start res sim' in Hagents, Hseries.
  split; [intros a p; apply simulateAgentDecision_gain|].
  split; [intros k; apply agentsAt_S|].
  split; [intros H0 k; apply agentsAt_nonnegative; exact H0|].
  split; [exact Hagents|]. split; [exact Hseries|].
  intros i x y Hx Hy. rewrite Hseries in Hx, Hy. unfold averagesFrom in Hx, Hy.
  apply nth_error_map_seq in Hx, Hy.
  destruct Hx as [-> _]. destruct Hy as [-> _].
  apply average_wealth_le. apply agentsAt_S.
Qed.

Lemma wealth_never_decreases_witness :
  Forall (fun a => 0 <= ProspectTheory.wealth a)%R (startAgents oneAgent) /\
  Forall (fun a => 0 <= ProspectTheory.wealth a)%R
    (fst (agentsAt (ProspectTheory.config oneAgent) (fun _ => 0%R) 50
            (startAgents oneAgent) 0)).
Proof.
  assert (H0 : Forall (fun a => 0 <= ProspectTheory.wealth a)%R
                 (startAgents oneAgent)).
  { constructor; [simpl; Lra.lra | constructor]. }
  split; [exact H0|].
  apply (wealth_never_decreases oneAgent 50 (fun _ => 0%R) 0%nat). exact H0.
Defined.

(** ** State kept between two calls on one instance *)


Lemma simulate_unfold (sim : EPR.EPRSimulator) (rnd : nat -> Q) (pos : nat) :
  let run := EPR.loop (EPR.steps (EPR.scenario sim)) sim EPR.empty_history
               rnd pos in
  snd (fst (EPR.simulate sim rnd pos)) = fst (fst run) /\
  EPR.finalState (fst (fst (EPR.simulate sim rnd pos))) = EPR.state (fst (fst run))
  /\ EPR.history (fst (fst (EPR.simulate sim rnd pos))) = snd (fst run) /\
  snd (EPR.simulate sim rnd pos) = snd run.
Proof.
  unfold EPR.simulate, bind. simpl.
  destruct (EPR.loop (EPR.steps (EPR.scenario sim)) sim EPR.empty_history
              rnd pos) as [[sim' h] pos'].
  simpl. auto.
Qed.

Lemma recordedStates_head (rnd : nat -> Q) (todo : nat)
  (sim : EPR.EPRSimulator) (pos : nat) :
  (1 <= todo)%nat ->
  hd_error (recordedStates todo sim rnd pos) = Some (EPR.state sim).
Proof.
  destruct todo as [|todo]; [lia|]. reflexivity.
Qed.


Lemma startAgents_not_nil (sim : ProspectTheory.ProspectTheorySimulator) :
  startAgents sim <> [].
Proof.
  unfold startAgents. destruct (ProspectTheory.agents sim); discriminate.
Qed.




(** * Further properties *)

(** ** GameTheorySimulator: the shape of a result and the stopping rule *)

Section GameRun.
Import GameTheory.
Variable cfg : GameTheoryConfig.

Lemma round_length (ps ps' : list nat) :
  round cfg ps = Normal ps' -> length ps = players cfg ->
  length ps' = players cfg.
Proof.
  intros Hrun Hlen. unfold round in Hrun.
  apply respondFrom_sequential in Hrun; [|simpl; lia].
  destruct Hrun as [Hl _]. congruence.
Qed.

Lemma count_matches_le (c p : list nat) : (count_matches c p <= length c)%nat.
Proof.
  revert p. induction c as [|x c IH]; intros p; simpl; [lia|].
  destruct p as [|y p].
  - specialize (IH []). lia.
  - specialize (IH p). destruct (x =? y)%nat; lia.
Qed.

Lemma count_matches_all (c p : list nat) :
  length c = length p -> count_matches c p = length c -> c = p.
Proof.
  revert p. induction c as [|x c IH]; intros [|y p] Hlen Hcnt;
    simpl in *; try discriminate; [reflexivity|].
  pose proof (count_matches_le c p) as Hle.
  destruct (Nat.eqb_spec x y) as [->|Hne]; [|lia].
  f_equal. apply IH; lia.
Qed.

Lemma ratio_unit (a b : nat) :
  (a <= b)%nat -> (1 <= b)%nat -> exists q, ratio a b = Some q /\ 0 <= q <= 1.
Proof.
  intros Hab Hb. destruct b as [|b]; [lia|]. simpl ratio.
  eexists. split; [reflexivity|].
  assert (Hpos : 0 < inject_Z (Z.of_nat (S b))).
  { change 0 with (inject_Z 0). rewrite <- Zlt_Qlt. lia. }
  split.
  - apply Qle_shift_div_l; [exact Hpos|]. rewrite Qmult_0_l.
    change 0 with (inject_Z 0). rewrite <- Zle_Qle. lia.
  - apply Qle_shift_div_r; [exact Hpos|]. rewrite Qmult_1_l.
    rewrite <- Zle_Qle. lia.
Qed.

Lemma calculateConvergence_unit (h : list (list nat)) (ps : list nat) :
  (1 <= length ps)%nat ->
  exists q, calculateConvergence (h ++ [ps]) = Some q /\ 0 <= q <= 1.
Proof.
  intros Hlen. unfold calculateConvergence. rewrite rev_app_distr. simpl.
  destruct (rev h) as [|previous rest].
  - exists 0. split; [reflexivity | lra].
  - apply ratio_unit; [apply count_matches_le | exact Hlen].
Qed.

(** The entries the loop of [simulate] adds to the convergence series. *)
Lemma iterate_series :
  forall todo ps h conv final conv',
    iterate cfg todo ps h conv = Normal (final, conv') ->
    exists added,
      conv' = conv ++ added /\
      (length added <= todo)%nat /\
      Forall (fun c => converged_enough c = false) (removelast added) /\
      ((length added < todo)%nat ->
       converged_enough (last added (Some 0)) = true) /\
      (h = [] -> (1 <= todo)%nat -> hd_error added = Some (Some 0)) /\
      ((1 <= players cfg)%nat -> length ps = players cfg ->
       Forall (fun c => exists q, c = Some q /\ 0 <= q <= 1) added).
Proof.
  induction todo as [|todo IH]; intros ps h conv final conv' Hrun;
    simpl in Hrun.
  - injection Hrun as <- <-. exists []. rewrite app_nil_r.
    repeat split; auto; intros; lia.
  - destruct (round cfg ps) as [ps'|e] eqn:Hround; simpl in Hrun;
      [|discriminate].
    destruct (converged_enough (calculateConvergence (h ++ [ps]))) eqn:Hc.
    + injection Hrun as <- <-.
      exists [calculateConvergence (h ++ [ps])].
      split; [reflexivity|]. split; [simpl; lia|]. split; [constructor|].
      split; [intros _; exact Hc|]. split.
      * intros -> _. reflexivity.
      * intros Hn Hlen. constructor; [|constructor].
        apply calculateConvergence_unit. lia.
    + apply IH in Hrun.
      destruct Hrun as (added & -> & Hle & Hall & Hlast & _ & Hunit).
      exists (calculateConvergence (h ++ [ps]) :: added).
      split; [rewrite <- app_assoc; reflexivity|].
      split; [simpl; lia|]. split.
      * destruct added as [|c added]; [constructor|].
        change (removelast (calculateConvergence (h ++ [ps]) :: c :: added))
          with (calculateConvergence (h ++ [ps]) :: removelast (c :: added)).
        constructor; assumption.
      * split.
        -- intros Hlt. simpl in Hlt.
           assert (Hlt' : (length added < todo)%nat) by lia.
           specialize (Hlast Hlt').
           destruct added as [|c added]; [simpl in Hlast; discriminate|].
           exact Hlast.
        -- split.
           ++ intros -> _. reflexivity.
           ++ intros Hn Hlen. constructor.
              ** apply calculateConvergence_unit. lia.
              ** apply Hunit; [exact Hn|].
                 eapply round_length; eassumption.
Qed.

Lemma calculatePayoffsFrom_length (strats : list nat) :
  forall todo player l,
    calculatePayoffsFrom cfg todo player strats = Normal l -> length l = todo.
Proof.
  induction todo as [|todo IH]; intros player l H; simpl in H.
  - injection H as <-. reflexivity.
  - destruct (getPayoff cfg player strats) as [p|e]; simpl in H;
      [|discriminate].
    destruct (calculatePayoffsFrom cfg todo (S player) strats) as [ps|e] eqn:E;
      simpl in H; [|discriminate].
    injection H as <-. simpl. f_equal. eapply IH. exact E.
Qed.

Lemma iterate_length :
  forall todo ps h conv final conv',
    iterate cfg todo ps h conv = Normal (final, conv') ->
    length ps = players cfg -> length final = players cfg.
Proof.
  induction todo as [|todo IH]; intros ps h conv final conv' Hrun Hlen;
    simpl in Hrun.
  - injection Hrun as <- _. exact Hlen.
  - destruct (round cfg ps) as [ps'|e] eqn:Hround; simpl in Hrun;
      [|discriminate].
    pose proof (round_length _ _ Hround Hlen) as Hlen'.
    destruct (converged_enough (calculateConvergence (h ++ [ps]))).
    + injection Hrun as <- _. exact Hlen'.
    + eapply IH; eassumption.
Qed.

End GameRun.

Lemma initialStrategies_length (cfg : GameTheory.GameTheoryConfig)
  (rnd : nat -> Q) :
  length (GameTheory.initialStrategies cfg rnd) = GameTheory.players cfg.
Proof.
  unfold GameTheory.initialStrategies. rewrite length_map, length_seq.
  reflexivity.
Qed.

(** X1.  A result of [simulate] has one equilibrium label and one payoff
    per player; [iterations] is the length of the convergence series and
    does not exceed the configured cap; the series starts with 0; every
    entry but the last is at most 0.99, and the last one is above 0.99 when
    the run stopped before the cap; with at least one player every entry is
    a number between 0 and 1. *)
Theorem simulate_result_shape (cfg : GameTheory.GameTheoryConfig)
  (rnd : nat -> Q) (r : GameTheory.GameTheoryResult) :
  GameTheory.simulate cfg rnd = Normal r ->
  length (GameTheory.equilibrium r) = GameTheory.players cfg /\
  length (GameTheory.res_payoffs r) = GameTheory.players cfg /\
  GameTheory.res_iterations r = length (GameTheory.convergence r) /\
  (GameTheory.res_iterations r <= GameTheory.iterations cfg)%nat /\
  ((1 <= GameTheory.iterations cfg)%nat ->
   hd_error (GameTheory.convergence r) = Some (Some 0)) /\
  Forall (fun c => GameTheory.converged_enough c = false)
         (removelast (GameTheory.convergence r)) /\
  ((GameTheory.res_iterations r < GameTheory.iterations cfg)%nat ->
   GameTheory.converged_enough (last (GameTheory.convergence r) (Some 0))
   = true) /\
  ((1 <= GameTheory.players cfg)%nat ->
   Forall (fun c => exists q, c = Some q /\ 0 <= q <= 1)
          (GameTheory.convergence r)).
Proof.
  unfold GameTheory.simulate, GameTheory.simulateFrom. intros Hrun.
  destruct (GameTheory.iterate cfg (GameTheory.iterations cfg)
              (GameTheory.initialStrategies cfg rnd) [] [])
    as [[final conv]|e] eqn:Hit; simpl in Hrun; [|discriminate].
  destruct (GameTheory.calculatePayoffs cfg final) as [pay|e] eqn:Hpay;
    simpl in Hrun; [|discriminate].
  injection Hrun as <-. simpl.
  pose proof (iterate_length cfg _ _ _ _ _ _ Hit
                (initialStrategies_length cfg rnd)) as Hlen.
  destruct (iterate_series cfg _ _ _ _ _ _ Hit)
    as (added & Hconv & Hle & Hall & Hlast & Hhd & Hunit).
  simpl in Hconv. subst conv.
  split; [rewrite length_map; exact Hlen|].
  split; [eapply calculatePayoffsFrom_length; exact Hpay|].
  split; [reflexivity|]. split; [exact Hle|].
  split; [intros H1; apply Hhd; [reflexivity | exact H1]|].
  split; [exact Hall|]. split; [exact Hlast|].
  intros Hn. apply Hunit; [exact Hn | apply initialStrategies_length].
Qed.

Lemma simulate_result_shape_witness :
  exists r,
    GameTheory.simulate (GameTheory.hawkDoveConfig 100) (fun _ => 0) = Normal r /\
    length (GameTheory.equilibrium r) = 2%nat /\
    (GameTheory.res_iterations r <= 100)%nat.
Proof.
  eexists. split; [vm_compute; reflexivity|].
  split.
  - apply (simulate_result_shape (GameTheory.hawkDoveConfig 100) (fun _ => 0)).
    vm_compute. reflexivity.
  - apply (simulate_result_shape (GameTheory.hawkDoveConfig 100) (fun _ => 0)).
    vm_compute. reflexivity.
Defined.

(** ** GameTheorySimulator: a run that stops early ends in an equilibrium *)

Section GameEquilibrium.
Import GameTheory.
Variable cfg : GameTheoryConfig.

Lemma getPayoff_degenerate (player : nat) (s1 s2 : list nat) :
  length s1 <> 2%nat -> length s2 <> 2%nat ->
  getPayoff cfg player s1 = getPayoff cfg player s2.
Proof.
  intros H1 H2. unfold getPayoff.
  destruct (Nat.eqb_spec (length s1) 2); [contradiction|].
  destruct (Nat.eqb_spec (length s2) 2); [contradiction|]. reflexivity.
Qed.

Lemma getPayoff_degenerate_some (player : nat) (s : list nat)
  (v : option Q) :
  length s <> 2%nat -> getPayoff cfg player s = Normal v -> exists q, v = Some q.
Proof.
  intros H. unfold getPayoff.
  destruct (Nat.eqb_spec (length s) 2); [contradiction|].
  destruct (nth_error (payoffs cfg) 0) as [row|]; [|discriminate].
  destruct (nth_error row 0) as [cell|]; [|discriminate].
  intros E. injection E as <-. eexists. reflexivity.
Qed.

(** Off the two-player lookup every candidate has the same payoff, and the
    first candidate is kept. *)
Lemma findBestResponse_degenerate (player : nat) (cur : list nat) (b : nat) :
  length cur <> 2%nat ->
  findBestResponse cfg player cur = Normal b -> b = 0%nat.
Proof.
  intros Hlen Hrun.
  destruct (length (strategies cfg)) as [|k] eqn:Hk.
  - unfold findBestResponse in Hrun. rewrite Hk in Hrun. simpl in Hrun.
    congruence.
  - assert (Hlen' : forall s, length (set_nth cur player s) <> 2%nat)
      by (intros s; rewrite set_nth_length; exact Hlen).
    destruct (candidatePayoff cfg player cur 0) as [v|e] eqn:E0.
    + destruct (getPayoff_degenerate_some _ _ _ (Hlen' 0%nat) E0) as [q ->].
      destruct (findBestResponse_lowest_maximiser cfg player cur b 0%nat q
                  Hrun ltac:(lia) E0) as (v' & Hb & Hle & Hlt).
      unfold candidatePayoff in Hb, E0.
      rewrite (getPayoff_degenerate player _ (set_nth cur player 0%nat)
                 (Hlen' b) (Hlen' 0%nat)), E0 in Hb.
      injection Hb as <-.
      destruct b as [|b]; [reflexivity|].
      assert (q < q) by (apply Hlt; lia). lra.
    + unfold findBestResponse in Hrun. rewrite Hk in Hrun. simpl in Hrun.
      unfold candidatePayoff in E0. rewrite E0 in Hrun. discriminate.
Qed.

Lemma round_best_responses (ps ps' : list nat) :
  length ps = players cfg -> round cfg ps = Normal ps' ->
  forall p, (p < players cfg)%nat ->
    findBestResponse cfg p (firstn p ps' ++ skipn p ps)
    = Normal (nth p ps' 0%nat).
Proof.
  intros Hlen Hrun p Hp. unfold round in Hrun.
  apply respondFrom_sequential in Hrun; [|simpl; lia].
  destruct Hrun as (_ & _ & _ & Hbr). apply Hbr. simpl. lia.
Qed.

Lemma round_degenerate (ps ps' : list nat) :
  players cfg <> 2%nat -> length ps = players cfg ->
  round cfg ps = Normal ps' -> ps' = repeat 0%nat (players cfg).
Proof.
  intros Hn Hlen Hrun.
  pose proof (round_length cfg _ _ Hrun Hlen) as Hlen'.
  pose proof (round_best_responses ps ps' Hlen Hrun) as Hbr.
  apply (nth_ext _ _ 0%nat 0%nat).
  - rewrite repeat_length. exact Hlen'.
  - intros p Hp. rewrite Hlen' in Hp. rewrite nth_repeat.
    apply (findBestResponse_degenerate p (firstn p ps' ++ skipn p ps)).
    + rewrite length_app, length_firstn, length_skipn. lia.
    + apply Hbr. exact Hp.
Qed.

Lemma converged_enough_two (c : nat) :
  (c <= 2)%nat -> converged_enough (ratio c 2) = true -> c = 2%nat.
Proof.
  intros Hc. destruct c as [|[|[|c]]]; try lia; vm_compute; congruence.
Qed.

Lemma iterate_early_stop :
  forall todo ps h conv final conv',
    iterate cfg todo ps h conv = Normal (final, conv') ->
    length ps = players cfg ->
    (length conv' < length conv + todo)%nat ->
    follows cfg h ps ->
    round cfg final = Normal final.
Proof.
  induction todo as [|todo IH]; intros ps h conv final conv' Hrun Hlen Hlt Hf;
    simpl in Hrun.
  - injection Hrun as _ <-. lia.
  - destruct (round cfg ps) as [ps'|e] eqn:Hround; simpl in Hrun;
      [|discriminate].
    destruct (converged_enough (calculateConvergence (h ++ [ps]))) eqn:Hc.
    + injection Hrun as <- _.
      destruct Hf as [-> | (h0 & prev & -> & Hprev & Hstep)];
        [vm_compute in Hc; discriminate|].
      assert (E : ps' = ps).
      { destruct (Nat.eq_dec (players cfg) 2) as [H2|H2].
        - unfold calculateConvergence in Hc.
          rewrite !rev_app_distr in Hc. simpl in Hc. rewrite Hlen, H2 in Hc.
          apply converged_enough_two in Hc.
          + assert (ps = prev)
              by (apply count_matches_all; congruence).
            subst prev. congruence.
          + pose proof (count_matches_le ps prev). lia.
        - rewrite (round_degenerate prev ps H2 Hprev Hstep).
          apply (round_degenerate ps ps' H2 Hlen Hround). }
      rewrite E. rewrite <- E at 2. exact Hround.
    + apply (IH ps' (h ++ [ps]) (conv ++ [calculateConvergence (h ++ [ps])])
               final conv' Hrun).
      * eapply round_length; eassumption.
      * rewrite length_app. simpl. lia.
      * right. exists h, ps. auto.
Qed.

End GameEquilibrium.

(** X2.  When [simulate] returns before the iteration cap, the profile it
    ends in is left unchanged by a further round, and the strategy of every
    player is that player's best response to it: a pure equilibrium of the
    payoffs as [getPayoff] reads them. *)
Theorem early_stop_is_equilibrium (cfg : GameTheory.GameTheoryConfig)
  (rnd : nat -> Q) (r : GameTheory.GameTheoryResult) :
  GameTheory.simulate cfg rnd = Normal r ->
  (GameTheory.res_iterations r < GameTheory.iterations cfg)%nat ->
  exists final,
    GameTheory.iterate cfg (GameTheory.iterations cfg)
      (GameTheory.initialStrategies cfg rnd) [] []
    = Normal (final, GameTheory.convergence r) /\
    GameTheory.equilibrium r
    = map (nth_error (GameTheory.strategies cfg)) final /\
    GameTheory.calculatePayoffs cfg final = Normal (GameTheory.res_payoffs r) /\
    GameTheory.round cfg final = Normal final /\
    forall p, (p < GameTheory.players cfg)%nat ->
      GameTheory.findBestResponse cfg p final = Normal (nth p final 0%nat).
Proof.
  unfold GameTheory.simulate, GameTheory.simulateFrom. intros Hrun Hearly.
  destruct (GameTheory.iterate cfg (GameTheory.iterations cfg)
              (GameTheory.initialStrategies cfg rnd) [] [])
    as [[final conv]|e] eqn:Hit; simpl in Hrun; [|discriminate].
  destruct (GameTheory.calculatePayoffs cfg final) as [pay|e] eqn:Hpay;
    simpl in Hrun; [|discriminate].
  injection Hrun as <-. simpl in *.
  exists final. split; [reflexivity|]. split; [reflexivity|].
  split; [exact Hpay|].
  assert (Hfix : GameTheory.round cfg final = Normal final).
  { apply (iterate_early_stop cfg _ _ _ _ _ _ Hit).
    - apply initialStrategies_length.
    - simpl. exact Hearly.
    - left. reflexivity. }
  split; [exact Hfix|]. intros p Hp.
  pose proof (iterate_length cfg _ _ _ _ _ _ Hit
                (initialStrategies_length cfg rnd)) as Hlen.
  pose proof (round_best_responses cfg final final Hlen Hfix p Hp) as Hbr.
  rewrite firstn_skipn in Hbr. exact Hbr.
Qed.

Lemma early_stop_is_equilibrium_witness :
  exists r final,
    GameTheory.simulate (GameTheory.hawkDoveConfig 100) (fun _ => 0) = Normal r /\
    GameTheory.round (GameTheory.hawkDoveConfig 100) final = Normal final /\
    GameTheory.equilibrium r
    = map (nth_error (GameTheory.strategies (GameTheory.hawkDoveConfig 100)))
        final.
Proof.
  assert (Hrun : exists r,
             GameTheory.simulate (GameTheory.hawkDoveConfig 100) (fun _ => 0)
             = Normal r /\
             (GameTheory.res_iterations r < 100)%nat).
  { eexists. split; [vm_compute; reflexivity|]. vm_compute. lia. }
  destruct Hrun as (r & Hrun & Hearly).
  destruct (early_stop_is_equilibrium (GameTheory.hawkDoveConfig 100)
              (fun _ => 0) r Hrun Hearly) as (final & _ & Heq & _ & Hfix & _).
  exists r, final. auto.
Defined.

(** ** GameTheorySimulator: findNashEquilibrium *)

Section GameIndices.
Import GameTheory.
Variable cfg : GameTheoryConfig.

Lemma bestResponseLoop_range (player : nat) (cur : list nat) :
  forall todo j bs bp b,
    bestResponseLoop cfg player cur todo j bs bp = Normal b ->
    b = bs \/ (j <= b < j + todo)%nat.
Proof.
  induction todo as [|todo IH]; intros j bs bp b Hrun; simpl in Hrun.
  - injection Hrun as <-. left. reflexivity.
  - destruct (getPayoff cfg player (set_nth cur player j)) as [payoff|e];
      simpl in Hrun; [|discriminate].
    destruct (payoff_gt payoff bp); apply IH in Hrun; lia.
Qed.

Lemma findBestResponse_range (player : nat) (cur : list nat) (b : nat) :
  (1 <= length (strategies cfg))%nat ->
  findBestResponse cfg player cur = Normal b ->
  (b < length (strategies cfg))%nat.
Proof.
  intros Hk Hrun. apply bestResponseLoop_range in Hrun. lia.
Qed.

Lemma set_nth_Forall {A : Type} (P : A -> Prop) (l : list A) (i : nat) (v : A) :
  Forall P l -> P v -> Forall P (set_nth l i v).
Proof.
  intros Hl Hv. revert i. induction Hl as [|x l Hx Hl IH]; intros [|i]; simpl;
    constructor; auto.
Qed.

Lemma respondFrom_range :
  (1 <= length (strategies cfg))%nat ->
  forall todo player cur out,
    respondFrom cfg todo player cur = Normal out ->
    Forall (fun s => (s < length (strategies cfg))%nat) cur ->
    Forall (fun s => (s < length (strategies cfg))%nat) out.
Proof.
  intros Hk. induction todo as [|todo IH]; intros player cur out Hrun Hcur;
    simpl in Hrun.
  - injection Hrun as <-. exact Hcur.
  - destruct (findBestResponse cfg player cur) as [b|e] eqn:Hb; simpl in Hrun;
      [|discriminate].
    apply IH in Hrun; [exact Hrun|].
    apply set_nth_Forall; [exact Hcur|].
    eapply findBestResponse_range; eassumption.
Qed.

Lemma iterate_range :
  (1 <= length (strategies cfg))%nat ->
  forall todo ps h conv final conv',
    iterate cfg todo ps h conv = Normal (final, conv') ->
    Forall (fun s => (s < length (strategies cfg))%nat) ps ->
    Forall (fun s => (s < length (strategies cfg))%nat) final.
Proof.
  intros Hk. induction todo as [|todo IH]; intros ps h conv final conv' Hrun Hps;
    simpl in Hrun.
  - injection Hrun as <- _. exact Hps.
  - destruct (round cfg ps) as [ps'|e] eqn:Hround; simpl in Hrun;
      [|discriminate].
    assert (Hps' : Forall (fun s => (s < length (strategies cfg))%nat) ps')
      by (eapply respondFrom_range; eassumption).
    destruct (converged_enough (calculateConvergence (h ++ [ps]))).
    + injection Hrun as <- _. exact Hps'.
    + eapply IH; eassumption.
Qed.

Lemma initialStrategies_range (rnd : nat -> Q) :
  (forall i, 0 <= rnd i < 1) ->
  (1 <= length (strategies cfg))%nat ->
  Forall (fun s => (s < length (strategies cfg))%nat)
         (initialStrategies cfg rnd).
Proof.
  intros Hrnd Hk. unfold initialStrategies. apply Forall_map.
  apply Forall_forall. intros i _. apply floor_index_lt; [apply Hrnd | lia].
Qed.

End GameIndices.

Lemma indexOfFrom_nth (l : list string) :
  NoDup l ->
  forall i s z, nth_error l i = Some s ->
    GameTheory.indexOfFrom l s z = (z + Z.of_nat i)%Z.
Proof.
  induction 1 as [|x l Hx Hl IH]; intros [|i] s z Hi; simpl in Hi;
    try discriminate.
  - injection Hi as ->. simpl. rewrite String.eqb_refl. lia.
  - simpl. destruct (String.eqb_spec x s) as [->|Hne].
    + exfalso. apply Hx. eapply nth_error_In. exact Hi.
    + rewrite (IH i s (z + 1)%Z Hi). lia.
Qed.

(** X3.  With at least one strategy and distinct labels,
    [findNashEquilibrium] returns the indices of the profile in which
    [simulate] ended, and the payoffs read at that profile.  With no
    strategy every returned index is [-1]. *)
Theorem findNashEquilibrium_indices (cfg : GameTheory.GameTheoryConfig)
  (rnd : nat -> Q) (ne : GameTheory.NashEquilibrium) :
  (forall i, 0 <= rnd i < 1) ->
  GameTheory.findNashEquilibrium cfg rnd = Normal ne ->
  exists final conv,
    GameTheory.iterate cfg (GameTheory.iterations cfg)
      (GameTheory.initialStrategies cfg rnd) [] [] = Normal (final, conv) /\
    GameTheory.calculatePayoffs cfg final = Normal (GameTheory.ne_payoffs ne) /\
    ((1 <= length (GameTheory.strategies cfg))%nat ->
     NoDup (GameTheory.strategies cfg) ->
     GameTheory.ne_strategies ne = map Z.of_nat final) /\
    (GameTheory.strategies cfg = [] ->
     GameTheory.ne_strategies ne = repeat (-1)%Z (GameTheory.players cfg)).
Proof.
  intros Hrnd.
  unfold GameTheory.findNashEquilibrium, GameTheory.simulate,
    GameTheory.simulateFrom.
  destruct (GameTheory.iterate cfg (GameTheory.iterations cfg)
              (GameTheory.initialStrategies cfg rnd) [] [])
    as [[final conv]|e] eqn:Hit; simpl; [|discriminate].
  destruct (GameTheory.calculatePayoffs cfg final) as [pay|e] eqn:Hpay;
    simpl; [|discriminate].
  intros H. injection H as <-. simpl.
  exists final, conv. split; [reflexivity|]. split; [exact Hpay|].
  pose proof (iterate_length cfg _ _ _ _ _ _ Hit
                (initialStrategies_length cfg rnd)) as Hlen.
  split.
  - intros Hk Hnd.
    pose proof (iterate_range cfg Hk _ _ _ _ _ _ Hit
                  (initialStrategies_range cfg rnd Hrnd Hk)) as Hrange.
    rewrite map_map. apply map_ext_in. intros s Hs.
    rewrite Forall_forall in Hrange. specialize (Hrange s Hs).
    destruct (nth_error (GameTheory.strategies cfg) s) as [label|] eqn:E.
    + simpl. rewrite (indexOfFrom_nth _ Hnd s label 0%Z E). lia.
    + apply nth_error_None in E. lia.
  - intros Hk. rewrite Hk, map_map, <- Hlen. clear.
    induction final as [|s final IH]; simpl; [reflexivity|].
    rewrite IH. destruct s; reflexivity.
Qed.

Lemma findNashEquilibrium_indices_witness :
  exists ne final conv,
    GameTheory.findNashEquilibrium (GameTheory.hawkDoveConfig 100)
      (fun _ => 0) = Normal ne /\
    GameTheory.iterate (GameTheory.hawkDoveConfig 100) 100
      (GameTheory.initialStrategies (GameTheory.hawkDoveConfig 100)
         (fun _ => 0)) [] [] = Normal (final, conv) /\
    GameTheory.ne_strategies ne = map Z.of_nat final.
Proof.
  assert (Hrun : exists ne,
             GameTheory.findNashEquilibrium (GameTheory.hawkDoveConfig 100)
               (fun _ => 0) = Normal ne)
    by (eexists; vm_compute; reflexivity).
  destruct Hrun as [ne Hrun].
  destruct (findNashEquilibrium_indices (GameTheory.hawkDoveConfig 100)
              (fun _ => 0) ne) as (final & conv & Hit & _ & Hidx & _).
  - intros i. lra.
  - exact Hrun.
  - exists ne, final, conv. split; [exact Hrun|]. split; [exact Hit|].
    apply Hidx.
    + simpl. lia.
    + repeat constructor; simpl; intuition discriminate.
Defined.

(** ** GameTheorySimulator: the first player's initial strategy *)

Section FirstPlayer.
Import GameTheory.
Variable cfg : GameTheoryConfig.
Hypothesis two_players : players cfg = 2%nat.

Lemma bestResponseLoop_first (a a' b : nat) :
  forall todo j bs bp,
    bestResponseLoop cfg 0 [a; b] todo j bs bp
    = bestResponseLoop cfg 0 [a'; b] todo j bs bp.
Proof.
  induction todo as [|todo IH]; intros j bs bp; simpl; [reflexivity|].
  destruct (getPayoff cfg 0 [j; b]) as [payoff|e]; simpl; [|reflexivity].
  destruct (payoff_gt payoff bp); apply IH.
Qed.

Lemma round_first (a a' b : nat) : round cfg [a; b] = round cfg [a'; b].
Proof.
  unfold round. rewrite two_players. simpl. unfold findBestResponse at 1 3.
  rewrite (bestResponseLoop_first a a' b). reflexivity.
Qed.

Lemma iterate_fixed_point (p : list nat) :
  round cfg p = Normal p ->
  forall todo h conv,
    finalProfile (iterate cfg todo p h conv) = Normal p.
Proof.
  intros Hfix. induction todo as [|todo IH]; intros h conv; simpl;
    [reflexivity|].
  rewrite Hfix. simpl.
  destruct (converged_enough (calculateConvergence (h ++ [p])));
    [reflexivity | apply IH].
Qed.

Lemma calculateConvergence_last (h1 h2 : list (list nat)) (x ps : list nat) :
  calculateConvergence ((h1 ++ [x]) ++ [ps])
  = calculateConvergence ((h2 ++ [x]) ++ [ps]).
Proof.
  unfold calculateConvergence. rewrite !rev_app_distr. reflexivity.
Qed.

Lemma iterate_last_recorded :
  forall todo ps h1 h2 x c1 c2,
    finalProfile (iterate cfg todo ps (h1 ++ [x]) c1)
    = finalProfile (iterate cfg todo ps (h2 ++ [x]) c2).
Proof.
  induction todo as [|todo IH]; intros ps h1 h2 x c1 c2; simpl;
    [reflexivity|].
  destruct (round cfg ps) as [ps'|e]; simpl; [|reflexivity].
  rewrite (calculateConvergence_last h1 h2 x ps).
  destruct (converged_enough (calculateConvergence ((h2 ++ [x]) ++ [ps])));
    [reflexivity | apply IH].
Qed.

Lemma stop_after_first_round (x ps1 : list nat) :
  length x = 2%nat -> length ps1 = 2%nat ->
  round cfg x = Normal ps1 ->
  converged_enough (calculateConvergence [x; ps1]) = true ->
  round cfg ps1 = Normal ps1.
Proof.
  intros Hx Hp Hround Hc. unfold calculateConvergence in Hc. simpl in Hc.
  rewrite Hp in Hc. apply converged_enough_two in Hc.
  - assert (ps1 = x) by (apply count_matches_all; congruence).
    subst x. exact Hround.
  - pose proof (count_matches_le ps1 x). lia.
Qed.

Lemma iterate_second_round (x y ps1 : list nat) :
  length x = 2%nat -> length y = 2%nat ->
  round cfg x = Normal ps1 -> round cfg y = Normal ps1 ->
  forall todo c1 c2,
    finalProfile (iterate cfg todo ps1 [x] c1)
    = finalProfile (iterate cfg todo ps1 [y] c2).
Proof.
  intros Hx Hy Hrx Hry.
  assert (Hp : length ps1 = 2%nat).
  { rewrite <- two_players. eapply round_length; [exact Hrx | congruence]. }
  intros [|todo] c1 c2; simpl; [reflexivity|].
  destruct (round cfg ps1) as [ps2|e] eqn:Hround; simpl; [|reflexivity].
  destruct (converged_enough (calculateConvergence [x; ps1])) eqn:Ex;
    destruct (converged_enough (calculateConvergence [y; ps1])) eqn:Ey.
  - reflexivity.
  - pose proof (stop_after_first_round x ps1 Hx Hp Hrx Ex) as Hfix.
    assert (ps2 = ps1) by congruence. subst ps2.
    rewrite (iterate_fixed_point ps1 Hfix). reflexivity.
  - pose proof (stop_after_first_round y ps1 Hy Hp Hry Ey) as Hfix.
    assert (ps2 = ps1) by congruence. subst ps2.
    rewrite (iterate_fixed_point ps1 Hfix). reflexivity.
  - apply (iterate_last_recorded todo ps2 [x] [y] ps1).
Qed.

Lemma iterate_first (a a' b : nat) (todo : nat) :
  (1 <= todo)%nat ->
  finalProfile (iterate cfg todo [a; b] [] [])
  = finalProfile (iterate cfg todo [a'; b] [] []).
Proof.
  destruct todo as [|todo]; [lia|]. intros _. simpl.
  rewrite (round_first a a' b).
  destruct (round cfg [a'; b]) as [ps1|e] eqn:Hround; simpl; [|reflexivity].
  change (converged_enough (calculateConvergence [[a; b]])) with false.
  change (converged_enough (calculateConvergence [[a'; b]])) with false.
  cbv iota.
  apply iterate_second_round; try reflexivity; [|exact Hround].
  rewrite (round_first a a' b). exact Hround.
Qed.

End FirstPlayer.

(** X4.  In a game of two players, with at least one round to run, the
    equilibrium and the payoffs [simulate] returns do not depend on the
    first draw, which is the initial strategy of the first player: that
    strategy is replaced before any payoff is read at it. *)
Theorem first_draw_is_irrelevant (cfg : GameTheory.GameTheoryConfig)
  (rnd rnd' : nat -> Q) :
  GameTheory.players cfg = 2%nat ->
  (1 <= GameTheory.iterations cfg)%nat ->
  rnd 1%nat = rnd' 1%nat ->
  outcome (GameTheory.simulate cfg rnd) = outcome (GameTheory.simulate cfg rnd').
Proof.
  intros Hn Hits Hdraw.
  unfold outcome, GameTheory.simulate, GameTheory.simulateFrom,
    GameTheory.initialStrategies.
  rewrite Hn. simpl. rewrite Hdraw.
  set (k := length (GameTheory.strategies cfg)).
  pose proof (iterate_first cfg Hn (floor_index (rnd 0%nat) k)
                (floor_index (rnd' 0%nat) k) (floor_index (rnd' 1%nat) k)
                (GameTheory.iterations cfg) Hits) as H.
  unfold finalProfile in H.
  destruct (GameTheory.iterate cfg (GameTheory.iterations cfg)
              [floor_index (rnd 0%nat) k; floor_index (rnd' 1%nat) k] [] [])
    as [[f1 c1]|e1];
    destruct (GameTheory.iterate cfg (GameTheory.iterations cfg)
                [floor_index (rnd' 0%nat) k; floor_index (rnd' 1%nat) k] [] [])
      as [[f2 c2]|e2]; simpl in *; try discriminate.
  - injection H as ->.
    destruct (GameTheory.calculatePayoffs cfg f2); reflexivity.
  - injection H as ->. reflexivity.
Qed.

Lemma first_draw_is_irrelevant_witness :
  outcome (GameTheory.simulate (GameTheory.hawkDoveConfig 100) (fun _ => 0))
  = outcome (GameTheory.simulate (GameTheory.hawkDoveConfig 100)
               (fun i => if (i =? 0)%nat then 1 # 2 else 0)).
Proof.
  apply first_draw_is_irrelevant.
  - reflexivity.
  - simpl. lia.
  - reflexivity.
Defined.

(** ** EPRSimulator: the shape of a result *)

Section EPRShape.
Import EPR.
Variable rnd : nat -> Q.

Lemma step_agents (sim : EPRSimulator) (pos : nat) :
  agents (fst (step sim rnd pos))
  = map (set_agent_state (state (fst (step sim rnd pos)))) (agents sim).
Proof.
  unfold step, bind.
  destruct (actAll (agents sim) (zone_of (state sim)) (state sim) rnd pos)
    as [st pos1].
  destruct (applySystemDynamics (zone_of (state sim)) st rnd pos1)
    as [st' pos2].
  reflexivity.
Qed.

Lemma loop_S (todo : nat) (sim : EPRSimulator) (h : History) (pos : nat) :
  loop (S todo) sim h rnd pos
  = loop todo (fst (step sim rnd pos)) (push h (state sim)) rnd
      (snd (step sim rnd pos)).
Proof.
  simpl. unfold bind. destruct (step sim rnd pos) as [sim' pos'].
  reflexivity.
Qed.

Lemma loop_agents :
  forall todo sim h pos,
    (1 <= todo)%nat ->
    agents (fst (fst (loop todo sim h rnd pos)))
    = map (set_agent_state (state (fst (fst (loop todo sim h rnd pos)))))
        (agents sim).
Proof.
  induction todo as [|todo IH]; intros sim h pos Hpos; [lia|].
  rewrite loop_S. destruct todo as [|todo].
  - simpl. apply step_agents.
  - rewrite (IH (fst (step sim rnd pos)) (push h (state sim))
               (snd (step sim rnd pos)) ltac:(lia)).
    rewrite step_agents, map_map. reflexivity.
Qed.

(** The run does not read the scenario: two simulators with the same state
    and the same agents go through the same states. *)
Lemma step_frame (sim1 sim2 : EPRSimulator) (pos : nat) :
  state sim1 = state sim2 -> agents sim1 = agents sim2 ->
  state (fst (step sim1 rnd pos)) = state (fst (step sim2 rnd pos)) /\
  agents (fst (step sim1 rnd pos)) = agents (fst (step sim2 rnd pos)) /\
  snd (step sim1 rnd pos) = snd (step sim2 rnd pos).
Proof.
  intros Hs Ha. unfold step, bind. rewrite Hs, Ha.
  destruct (actAll (agents sim2) (zone_of (state sim2)) (state sim2) rnd pos)
    as [st pos1].
  destruct (applySystemDynamics (zone_of (state sim2)) st rnd pos1)
    as [st' pos2].
  simpl. auto.
Qed.

Lemma loop_frame :
  forall todo sim1 sim2 h pos,
    state sim1 = state sim2 -> agents sim1 = agents sim2 ->
    state (fst (fst (loop todo sim1 h rnd pos)))
    = state (fst (fst (loop todo sim2 h rnd pos))) /\
    snd (fst (loop todo sim1 h rnd pos)) = snd (fst (loop todo sim2 h rnd pos)).
Proof.
  induction todo as [|todo IH]; intros sim1 sim2 h pos Hs Ha.
  - simpl. auto.
  - rewrite !loop_S. destruct (step_frame sim1 sim2 pos Hs Ha) as (H1 & H2 & H3).
    rewrite H3, Hs. apply IH; assumption.
Qed.

End EPRShape.

(** X5.  Each of the four series [simulate] returns has exactly one entry
    per step; when there is at least one step their first entries are the
    value, stability, equity and reputation the call started from; the
    returned zone is red exactly when the final stability is below 1.2. *)
Theorem simulate_history_shape (sim : EPR.EPRSimulator) (rnd : nat -> Q)
  (pos : nat) :
  let res := fst (fst (EPR.simulate sim rnd pos)) in
  let n := EPR.steps (EPR.scenario sim) in
  length (EPR.h_value (EPR.history res)) = n /\
  length (EPR.h_stability (EPR.history res)) = n /\
  length (EPR.h_equity (EPR.history res)) = n /\
  length (EPR.h_reputation (EPR.history res)) = n /\
  ((1 <= n)%nat ->
   hd_error (EPR.h_value (EPR.history res)) = Some (EPR.value (EPR.state sim)) /\
   hd_error (EPR.h_stability (EPR.history res))
   = Some (EPR.stability (EPR.state sim)) /\
   hd_error (EPR.h_equity (EPR.history res))
   = Some (EPR.equity (EPR.state sim)) /\
   hd_error (EPR.h_reputation (EPR.history res))
   = Some (EPR.reputation (EPR.state sim))) /\
  (EPR.zone res = EPR.red <-> EPR.stability (EPR.finalState res) < 12 # 10).
Proof.
  intros res n.
  destruct (simulate_unfold sim rnd pos) as (_ & Hfin & Hh & _).
  fold res n in Hfin, Hh.
  rewrite Hh, loop_records. unfold pushAll. simpl.
  rewrite !length_map, recordedStates_length.
  repeat (split; [reflexivity|]). split.
  - intros Hn. pose proof (recordedStates_head rnd n sim pos Hn) as Hhd.
    destruct (recordedStates n sim rnd pos) as [|st sts]; [discriminate|].
    injection Hhd as ->. simpl. repeat split.
  - assert (Hz : EPR.zone res = EPR.zone_of (EPR.finalState res)).
    { subst res. unfold EPR.simulate, bind.
      destruct (EPR.loop (EPR.steps (EPR.scenario sim)) sim EPR.empty_history
                  rnd pos) as [[sim' h] pos']. reflexivity. }
    rewrite Hz. unfold EPR.zone_of.
    destruct (Qltb (EPR.stability (EPR.finalState res)) (12 # 10)) eqn:E.
    + apply Qltb_true in E. tauto.
    + apply Qltb_false in E. split; [discriminate | intros H; lra].
Qed.

Lemma simulate_history_shape_witness :
  hd_error (EPR.h_value (EPR.history
     (fst (fst (EPR.simulate (EPR.constructor EPR.demographicsCollapse)
                  (fun _ => 1 # 2) 0%nat)))))
  = Some (EPR.value (EPR.state (EPR.constructor EPR.demographicsCollapse))).
Proof.
  apply (simulate_history_shape (EPR.constructor EPR.demographicsCollapse)
           (fun _ => 1 # 2) 0%nat).
  simpl. lia.
Defined.

(** X6.  After a call of [simulate] with at least one step, the private
    state of every agent is a copy of the final shared state, and the names,
    roles and principles of the agents are unchanged; with no step the
    agents are left as they were. *)
Theorem agents_hold_final_state (sim : EPR.EPRSimulator) (rnd : nat -> Q)
  (pos : nat) :
  let res := fst (fst (EPR.simulate sim rnd pos)) in
  let sim' := snd (fst (EPR.simulate sim rnd pos)) in
  ((1 <= EPR.steps (EPR.scenario sim))%nat ->
   EPR.getAgents sim'
   = map (EPR.set_agent_state (EPR.finalState res)) (EPR.agents sim) /\
   Forall (fun a => EPR.agent_state a = EPR.getState sim') (EPR.getAgents sim'))
  /\
  (EPR.steps (EPR.scenario sim) = 0%nat ->
   EPR.getAgents sim' = EPR.agents sim /\ EPR.getState sim' = EPR.state sim).
Proof.
  intros res sim'.
  destruct (simulate_unfold sim rnd pos) as (Hsim & Hfin & _ & _).
  fold res sim' in Hsim, Hfin. unfold EPR.getAgents, EPR.getState. split.
  - intros Hn.
    pose proof (loop_agents rnd (EPR.steps (EPR.scenario sim)) sim
                  EPR.empty_history pos Hn) as Ha.
    rewrite <- Hsim in Ha.
    assert (Hst : EPR.state sim' = EPR.finalState res) by congruence.
    rewrite Hst in Ha. split; [exact Ha|].
    rewrite Ha, Hst. apply Forall_map. apply Forall_forall.
    intros a _. reflexivity.
  - intros H0. rewrite Hsim, H0. simpl. auto.
Qed.

Lemma agents_hold_final_state_witness :
  let run := EPR.simulate (EPR.constructor EPR.demographicsCollapse)
               (fun _ => 1 # 2) 0%nat in
  Forall (fun a => EPR.agent_state a = EPR.getState (snd (fst run)))
         (EPR.getAgents (snd (fst run))).
Proof.
  apply (agents_hold_final_state (EPR.constructor EPR.demographicsCollapse)
           (fun _ => 1 # 2) 0%nat).
  simpl. lia.
Defined.

(** X7.  [simulate] never reads the name or the declared zone of the
    scenario: two scenarios with the same initial values and the same number
    of steps give the same result on the same draws.  The zone
    [customScenario] declares is nevertheless the zone the run starts in,
    also when the given stability is 0 and is replaced by 1. *)
Theorem declared_zone_is_not_read :
  (forall (sc1 sc2 : EPR.EPRScenario) (rnd : nat -> Q) (pos : nat),
     EPR.initial sc1 = EPR.initial sc2 -> EPR.steps sc1 = EPR.steps sc2 ->
     fst (fst (EPR.simulate (EPR.constructor sc1) rnd pos))
     = fst (fst (EPR.simulate (EPR.constructor sc2) rnd pos))) /\
  (forall name v s e res stepCount,
     EPR.scenario_zone (EPR.customScenario name v s e res stepCount)
     = EPR.zone_of
         (EPR.state
            (EPR.constructor (EPR.customScenario name v s e res stepCount)))).
Proof.
  split.
  - intros sc1 sc2 rnd pos Hi Hs.
    assert (Hst : EPR.state (EPR.constructor sc1)
                  = EPR.state (EPR.constructor sc2))
      by (simpl; rewrite Hi; reflexivity).
    assert (Hag : EPR.agents (EPR.constructor sc1)
                  = EPR.agents (EPR.constructor sc2))
      by (simpl; rewrite Hi; reflexivity).
    destruct (loop_frame rnd (EPR.steps sc2) (EPR.constructor sc1)
                (EPR.constructor sc2) EPR.empty_history pos Hst Hag)
      as [H1 H2].
    unfold EPR.simulate, bind.
    change (EPR.scenario (EPR.constructor sc1)) with sc1.
    change (EPR.scenario (EPR.constructor sc2)) with sc2.
    rewrite Hs.
    destruct (EPR.loop (EPR.steps sc2) (EPR.constructor sc1)
                EPR.empty_history rnd pos) as [[sim1 h1] pos1].
    destruct (EPR.loop (EPR.steps sc2) (EPR.constructor sc2)
                EPR.empty_history rnd pos) as [[sim2 h2] pos2].
    simpl in *. subst h2. rewrite H1. reflexivity.
  - intros name v s e res stepCount. unfold EPR.zone_of. simpl.
    destruct (Qeq_bool s 0) eqn:E; [|reflexivity].
    apply Qeq_bool_iff in E.
    assert (H1 : Qltb s (12 # 10) = true) by (apply Qltb_true; lra).
    rewrite H1. reflexivity.
Qed.

Lemma declared_zone_is_not_read_witness :
  fst (fst (EPR.simulate
              (EPR.constructor
                 (EPR.customScenario "first" 40 (85 # 100) (35 # 100) 40 None))
              (fun _ => 1 # 2) 0%nat))
  = fst (fst (EPR.simulate
                (EPR.constructor
                   (EPR.customScenario "second" 40 (85 # 100) (35 # 100) 40
                      (Some 20%nat)))
                (fun _ => 1 # 2) 0%nat)).
Proof.
  apply (proj1 declared_zone_is_not_read); reflexivity.
Defined.

(** ** EPRSimulator: what the actions of the agents do to the state *)

Lemma Math_min_spec (a b : Q) :
  (a <= b /\ Math.min a b = a) \/ (b < a /\ Math.min a b = b).
Proof.
  unfold Math.min. destruct (Qle_bool a b) eqn:E.
  - apply Qle_bool_iff in E. left. auto.
  - apply Qle_bool_false in E. right. auto.
Qed.

Lemma Math_max_spec (a b : Q) :
  (a <= b /\ Math.max a b = b) \/ (b < a /\ Math.max a b = a).
Proof.
  unfold Math.max. destruct (Qle_bool a b) eqn:E.
  - apply Qle_bool_iff in E. left. auto.
  - apply Qle_bool_false in E. right. auto.
Qed.

Section EPRActions.
Import EPR.
Variable rnd : nat -> Q.

Lemma executeAgentAction_unfold (agent : EPRAgent) (z : Zone) (st : EPRState)
  (pos : nat) :
  executeAgentAction agent z st rnd pos
  = (applyAction st (fst (selectAction agent rnd pos)) z,
     snd (selectAction agent rnd pos)).
Proof.
  unfold executeAgentAction, bind, ret.
  destruct (selectAction agent rnd pos) as [action pos']. reflexivity.
Qed.

Lemma actAll_cons (agent : EPRAgent) (rest : list EPRAgent) (z : Zone)
  (st : EPRState) (pos : nat) :
  actAll (agent :: rest) z st rnd pos
  = actAll rest z (applyAction st (fst (selectAction agent rnd pos)) z) rnd
      (snd (selectAction agent rnd pos)).
Proof.
  simpl. unfold bind. rewrite executeAgentAction_unfold. reflexivity.
Qed.

Lemma selectAction_mastery (agent : EPRAgent) (pos : nat) :
  role agent = mastery -> fst (selectAction agent rnd pos) = restrain.
Proof.
  intros Hr. unfold selectAction, bind, ret, random. rewrite Hr.
  destruct (includes (principles agent) "gracian_restraint");
    [destruct (Qltb (rnd pos) (25 # 100))|]; reflexivity.
Qed.


Lemma applyAction_reputation (st : EPRState) (action : Action) (z : Zone) :
  reputation st <= 1 ->
  reputation st <= reputation (applyAction st action z) <= 1 /\
  (action = restrain ->
   reputation (applyAction st action z)
   = Math.min 1 (reputation st + (8 # 100))).
Proof.
  intros Hr. destruct action; simpl.
  - destruct (Qle_bool 10 (resources st)); simpl;
      (split; [lra | discriminate]).
  - split; [lra | discriminate].
  - destruct (Math_min_spec 1 (reputation st + (5 # 100))) as [[H ->]|[H ->]];
      (split; [lra | discriminate]).
  - destruct (Math_min_spec 1 (reputation st + (8 # 100))) as [[H E]|[H E]];
      rewrite E; (split; [lra | reflexivity]).
Qed.

Lemma actAll_reputation :
  forall l z st pos,
    reputation st <= 1 ->
    reputation st <= reputation (fst (actAll l z st rnd pos)) <= 1 /\
    (In mastery (map role l) ->
     Math.min 1 (reputation st + (8 # 100))
     <= reputation (fst (actAll l z st rnd pos))).
Proof.
  induction l as [|agent rest IH]; intros z st pos Hr.
  - simpl. split; [lra | intros []].
  - rewrite actAll_cons.
    set (st1 := applyAction st (fst (selectAction agent rnd pos)) z).
    destruct (applyAction_reputation st (fst (selectAction agent rnd pos)) z Hr)
      as [H1 Hres]. fold st1 in H1, Hres.
    destruct (IH z st1 (snd (selectAction agent rnd pos)) ltac:(lra))
      as [H2 Hm].
    split; [lra|]. intros [Hin|Hin].
    + rewrite (Hres (selectAction_mastery agent pos Hin)) in H2. lra.
    + specialize (Hm Hin).
      destruct (Math_min_spec 1 (reputation st + (8 # 100))) as [[? ->]|[? ->]];
        destruct (Math_min_spec 1 (reputation st1 + (8 # 100)))
          as [[? E]|[? E]]; rewrite E in Hm; lra.
Qed.



End EPRActions.



(** ** EPRSimulator: reputation over a run *)

Section EPRRun.
Import EPR.
Variable rnd : nat -> Q.
Hypothesis rnd_range : forall i, 0 <= rnd i < 1.

Lemma step_unfold (sim : EPRSimulator) (pos : nat) :
  state (fst (step sim rnd pos))
  = fst (applySystemDynamics (zone_of (state sim))
           (fst (actAll (agents sim) (zone_of (state sim)) (state sim) rnd pos))
           rnd
           (snd (actAll (agents sim) (zone_of (state sim)) (state sim) rnd pos))).
Proof.
  unfold step, bind.
  destruct (actAll (agents sim) (zone_of (state sim)) (state sim) rnd pos)
    as [st pos1].
  cbn [fst snd].
  destruct (applySystemDynamics (zone_of (state sim)) st rnd pos1)
    as [st' pos2].
  reflexivity.
Qed.

Lemma applySystemDynamics_drift (z : Zone) (st : EPRState) (pos : nat) :
  let st' := fst (applySystemDynamics z st rnd pos) in
  value st - (3 # 2) <= value st' /\ value st' < value st + (7 # 2) /\
  Math.min 1 (reputation st - (12 # 1000)) <= reputation st' /\
  reputation st' <= 1.
Proof.
  unfold applySystemDynamics, bind, random, ret. simpl.
  pose proof (rnd_range pos) as H1.
  pose proof (rnd_range (S (S (S pos)))) as H4.
  split; [lra|]. split; [lra|].
  set (p := reputation st + (rnd (S (S (S pos))) - (4 # 10)) * (3 # 100)).
  assert (Hp : reputation st - (12 # 1000) <= p) by (subst p; lra).
  destruct (Math_min_spec 1 p) as [[? Ep]|[? Ep]];
    destruct (Math_max_spec 0 (Math.min 1 p)) as [[? Em]|[? Em]];
    destruct (Math_min_spec 1 (reputation st - (12 # 1000)))
      as [[? Er]|[? Er]];
    rewrite Em, ?Er; rewrite Ep in *; split; lra.
Qed.

Lemma step_reputation (sim : EPRSimulator) (pos : nat) :
  reputation (state sim) <= 1 ->
  In mastery (map role (agents sim)) ->
  Math.min (reputation (state sim) + (68 # 1000)) (988 # 1000)
  <= reputation (state (fst (step sim rnd pos))) /\
  reputation (state (fst (step sim rnd pos))) <= 1.
Proof.
  intros Hr Hm. rewrite step_unfold.
  set (z := zone_of (state sim)).
  destruct (actAll_reputation rnd (agents sim) z (state sim) pos Hr)
    as [[H1 H2] H3]. specialize (H3 Hm).
  set (acted := actAll (agents sim) z (state sim) rnd pos) in *.
  destruct (applySystemDynamics_drift z (fst acted) (snd acted))
    as (_ & _ & H4 & H5).
  split; [|exact H5].
  destruct (Math_min_spec 1 (reputation (state sim) + (8 # 100)))
    as [[? E1]|[? E1]]; rewrite E1 in H3;
    destruct (Math_min_spec 1 (reputation (fst acted) - (12 # 1000)))
      as [[? E2]|[? E2]]; rewrite E2 in H4;
    destruct (Math_min_spec (reputation (state sim) + (68 # 1000)) (988 # 1000))
      as [[? E3]|[? E3]]; rewrite E3; lra.
Qed.

Lemma step_roles (sim : EPRSimulator) (pos : nat) :
  map role (agents (fst (step sim rnd pos))) = map role (agents sim).
Proof.
  rewrite step_agents, map_map. reflexivity.
Qed.

Lemma loop_reputation :
  forall todo sim h pos,
    reputation (state sim) <= 1 ->
    In mastery (map role (agents sim)) ->
    Math.min (reputation (state sim)
              + (68 # 1000) * inject_Z (Z.of_nat todo)) (988 # 1000)
    <= reputation (state (fst (fst (loop todo sim h rnd pos)))) /\
    reputation (state (fst (fst (loop todo sim h rnd pos)))) <= 1.
Proof.
  induction todo as [|todo IH]; intros sim h pos Hr Hm.
  - change (loop 0 sim h rnd pos) with (sim, h, pos). cbn [fst].
    change (inject_Z (Z.of_nat 0)) with 0. split; [|exact Hr].
    destruct (Math_min_spec (reputation (state sim) + (68 # 1000) * 0)
                (988 # 1000)) as [[? ->]|[? ->]]; lra.
  - rewrite loop_S.
    destruct (step_reputation sim pos Hr Hm) as [H1 H2].
    destruct (IH (fst (step sim rnd pos)) (push h (state sim))
                (snd (step sim rnd pos)) H2
                ltac:(rewrite step_roles; exact Hm)) as [H3 H4].
    split; [|exact H4].
    rewrite Nat2Z.inj_succ, <- Z.add_1_r, inject_Z_plus.
    change (inject_Z 1) with 1.
    assert (H0 : 0 <= inject_Z (Z.of_nat todo)).
    { change 0 with (inject_Z 0). rewrite <- Zle_Qle. lia. }
    destruct (Math_min_spec (reputation (state sim) + (68 # 1000))
                (988 # 1000)) as [[? E1]|[? E1]]; rewrite E1 in H1;
      destruct (Math_min_spec
                  (reputation (state (fst (step sim rnd pos)))
                   + (68 # 1000) * inject_Z (Z.of_nat todo)) (988 # 1000))
        as [[? E2]|[? E2]]; rewrite E2 in H3;
      destruct (Math_min_spec
                  (reputation (state sim)
                   + (68 # 1000) * (inject_Z (Z.of_nat todo) + 1))
                  (988 # 1000)) as [[? E3]|[? E3]]; rewrite E3; lra.
Qed.

End EPRRun.

(** X9.  As long as one agent has the mastery role, which always restrains,
    reputation that is at most 1 rises at every step by at least 0.06, or
    to at least 0.98: after [n] steps the final reputation is at least the
    smaller of the initial reputation plus [0.06 n] and 0.98, and at most 1.
    (A step adds 0.08 for the restraint and takes at most 0.012 for the
    drift; the margin left here is far above what the rounding of the
    sums can take.) *)
Theorem reputation_rises_to_saturation (sim : EPR.EPRSimulator)
  (rnd : nat -> Q) (pos : nat) :
  (forall i, 0 <= rnd i < 1) ->
  EPR.reputation (EPR.state sim) <= 1 ->
  In EPR.mastery (map EPR.role (EPR.agents sim)) ->
  let res := fst (fst (EPR.simulate sim rnd pos)) in
  let n := inject_Z (Z.of_nat (EPR.steps (EPR.scenario sim))) in
  Math.min (EPR.reputation (EPR.state sim) + (6 # 100) * n) (98 # 100)
  <= EPR.reputation (EPR.finalState res) /\
  EPR.reputation (EPR.finalState res) <= 1 /\
  Math.min (EPR.reputation (EPR.state sim) + (6 # 100)) (98 # 100)
  <= EPR.reputation (EPR.state (fst (EPR.step sim rnd pos))).
Proof.
  intros Hrnd Hr Hm res n.
  destruct (simulate_unfold sim rnd pos) as (_ & Hfin & _ & _).
  fold res in Hfin. rewrite Hfin.
  destruct (loop_reputation rnd Hrnd (EPR.steps (EPR.scenario sim)) sim
              EPR.empty_history pos Hr Hm) as [H1 H2].
  fold n in H1.
  assert (H0 : 0 <= n).
  { subst n. change 0 with (inject_Z 0). rewrite <- Zle_Qle. lia. }
  split; [|split; [exact H2|]].
  - destruct (Math_min_spec (EPR.reputation (EPR.state sim) + (68 # 1000) * n)
                (988 # 1000)) as [[? E1]|[? E1]]; rewrite E1 in H1;
      destruct (Math_min_spec (EPR.reputation (EPR.state sim) + (6 # 100) * n)
                  (98 # 100)) as [[? E2]|[? E2]]; rewrite E2; nra.
  - destruct (step_reputation rnd Hrnd sim pos Hr Hm) as [H3 _].
    destruct (Math_min_spec (EPR.reputation (EPR.state sim) + (68 # 1000))
                (988 # 1000)) as [[? E1]|[? E1]]; rewrite E1 in H3;
      destruct (Math_min_spec (EPR.reputation (EPR.state sim) + (6 # 100))
                  (98 # 100)) as [[? E2]|[? E2]]; rewrite E2; lra.
Qed.

Lemma reputation_rises_to_saturation_witness :
  let sim := EPR.constructor EPR.demographicsCollapse in
  98 # 100
  <= EPR.reputation
       (EPR.finalState (fst (fst (EPR.simulate sim (fun _ => 1 # 2) 0%nat)))).
Proof.
  intros sim.
  destruct (reputation_rises_to_saturation sim (fun _ => 1 # 2) 0%nat)
    as (H & _ & _).
  - intros i. lra.
  - simpl. lra.
  - simpl. auto.
  - change (EPR.steps (EPR.scenario sim)) with 20%nat in H.
    change (EPR.reputation (EPR.state sim)) with (6 # 10) in H.
    destruct (Math_min_spec ((6 # 10) + (6 # 100) * inject_Z (Z.of_nat 20))
                (98 # 100)) as [[Hc E]|[Hc E]].
    + exfalso. vm_compute in Hc. apply Hc. reflexivity.
    + rewrite E in H. exact H.
Defined.

(** ** EPRSimulator: the insights *)

Lemma trend_short (l : list Q) (c : Q) :
  (length l <= 1)%nat -> 0 <= c -> EPR.trend_gt (EPR.trend l) c = false.
Proof.
  intros Hl Hc. destruct l as [|x [|y l]]; simpl in Hl; try lia.
  - reflexivity.
  - unfold EPR.trend. simpl. unfold Qgtb. apply Qltb_false. lra.
Qed.

Lemma generateInsights_spec (st : EPR.EPRState) (h : EPR.History) :
  (In warningInsight (EPR.generateInsights st h)
   <-> EPR.stability st < 1) /\
  (In virtuousInsight (EPR.generateInsights st h)
   -> 12 # 10 <= EPR.stability st) /\
  (length (EPR.generateInsights st h) <= 5)%nat.
Proof.
  unfold EPR.generateInsights, warningInsight, virtuousInsight.
  destruct (Qltb (EPR.stability st) 1) eqn:Ew;
    [apply Qltb_true in Ew | apply Qltb_false in Ew];
    (destruct (Qle_bool (12 # 10) (EPR.stability st)) eqn:Ev;
     [apply Qle_bool_iff in Ev | apply Qle_bool_false in Ev]);
    destruct (EPR.trend_gt (EPR.trend (EPR.h_reputation h)) (1 # 10));
    destruct (EPR.trend_gt (EPR.trend (EPR.h_stability h)) 0);
    destruct (EPR.trend_gt (EPR.trend (EPR.h_equity h)) 0);
    destruct (EPR.trend_gt (EPR.trend (EPR.h_value h)) 50);
    simpl; (split; [split; [intros H; try exact Ew;
                            repeat (destruct H as [H|H]; try discriminate H);
                            try lra; try contradiction
                           | intros H; try lra; auto 10]
                   | split; [intros H;
                             repeat (destruct H as [H|H]; try discriminate H);
                             try lra; try contradiction
                            | lia]]).
Qed.

(** X11.  The instability warning is among the insights exactly when the
    final stability is below 1; the "virtuous motion" insight requires a
    final stability of at least 1.2, so the two never come together; there
    are at most five insights; a run of at most one step yields no insight
    but, possibly, the warning. *)
Theorem insights_on_stability (sim : EPR.EPRSimulator) (rnd : nat -> Q)
  (pos : nat) :
  let res := fst (fst (EPR.simulate sim rnd pos)) in
  (In warningInsight (EPR.insights res)
   <-> EPR.stability (EPR.finalState res) < 1) /\
  (In virtuousInsight (EPR.insights res) ->
   12 # 10 <= EPR.stability (EPR.finalState res)) /\
  ~ (In virtuousInsight (EPR.insights res) /\
     In warningInsight (EPR.insights res)) /\
  (length (EPR.insights res) <= 5)%nat /\
  ((EPR.steps (EPR.scenario sim) <= 1)%nat ->
   EPR.insights res = [] \/ EPR.insights res = [warningInsight]).
Proof.
  intros res.
  assert (Hins : EPR.insights res
                 = EPR.generateInsights (EPR.finalState res) (EPR.history res)).
  { subst res. unfold EPR.simulate, bind.
    destruct (EPR.loop (EPR.steps (EPR.scenario sim)) sim EPR.empty_history
                rnd pos) as [[sim' h] pos']. reflexivity. }
  destruct (generateInsights_spec (EPR.finalState res) (EPR.history res))
    as (Hw & Hv & Hlen).
  rewrite Hins. split; [exact Hw|]. split; [exact Hv|].
  split; [intros [H1 H2]; apply Hv in H1; apply Hw in H2; lra|].
  split; [exact Hlen|].
  intros Hsteps.
  destruct (simulate_history_shape sim rnd pos) as (L1 & L2 & L3 & L4 & _).
  fold res in L1, L2, L3, L4.
  unfold EPR.generateInsights.
  rewrite (trend_short (EPR.h_reputation (EPR.history res)) (1 # 10))
    by (try lra; lia).
  rewrite (trend_short (EPR.h_stability (EPR.history res)) 0)
    by (try lra; lia).
  rewrite (trend_short (EPR.h_equity (EPR.history res)) 0) by (try lra; lia).
  rewrite (trend_short (EPR.h_value (EPR.history res)) 50) by (try lra; lia).
  simpl. destruct (Qltb (EPR.stability (EPR.finalState res)) 1); auto.
Qed.

Lemma insights_on_stability_witness :
  let sim := EPR.constructor
               (EPR.customScenario "one step" 40 (85 # 100) (35 # 100) 40
                  (Some 1%nat)) in
  let res := fst (fst (EPR.simulate sim (fun _ => 1 # 2) 0%nat)) in
  EPR.insights res = [] \/ EPR.insights res = [warningInsight].
Proof.
  intros sim res.
  apply (insights_on_stability sim (fun _ => 1 # 2) 0%nat).
  simpl. lia.
Defined.

(** ** EPRSimulator: the number of draws *)

Section EPRDraws.
Import EPR.
Variable rnd : nat -> Q.

Lemma selectAction_draws (a : EPRAgent) (pos : nat) :
  drawsOnce a -> snd (selectAction a rnd pos) = S pos.
Proof.
  unfold selectAction, bind, ret, random.
  intros [[-> Hr] | [-> Hr]].
  - destruct (role a); try contradiction; reflexivity.
  - rewrite Hr. destruct (Qltb (rnd pos) (25 # 100)); reflexivity.
Qed.

Lemma actAll_draws :
  forall l z st pos,
    Forall drawsOnce l ->
    snd (actAll l z st rnd pos) = (pos + length l)%nat.
Proof.
  induction l as [|a l IH]; intros z st pos Hl.
  - simpl. lia.
  - rewrite actAll_cons. inversion Hl; subst.
    rewrite IH by assumption. rewrite selectAction_draws by assumption.
    simpl. lia.
Qed.

Lemma step_draws (sim : EPRSimulator) (pos : nat) :
  Forall drawsOnce (agents sim) ->
  snd (step sim rnd pos) = (pos + length (agents sim) + 4)%nat /\
  Forall drawsOnce (agents (fst (step sim rnd pos))).
Proof.
  intros Hl. split.
  - pose proof (actAll_draws (agents sim) (zone_of (state sim)) (state sim)
                  pos Hl) as Ha.
    unfold step, bind.
    destruct (actAll (agents sim) (zone_of (state sim)) (state sim) rnd pos)
      as [st pos1].
    simpl in Ha. subst pos1.
    unfold applySystemDynamics, bind, random, ret. simpl. lia.
  - rewrite step_agents. apply Forall_map.
    eapply Forall_impl; [|exact Hl]. intros a Ha. exact Ha.
Qed.

Lemma loop_draws :
  forall todo sim h pos,
    Forall drawsOnce (agents sim) ->
    snd (loop todo sim h rnd pos)
    = (pos + todo * (length (agents sim) + 4))%nat.
Proof.
  induction todo as [|todo IH]; intros sim h pos Hl.
  - simpl. lia.
  - rewrite loop_S. destruct (step_draws sim pos Hl) as [Hp Hl'].
    rewrite IH by exact Hl'. rewrite Hp, step_agents, length_map. simpl. lia.
Qed.

End EPRDraws.

(** X12.  On a simulator made by the constructor, [simulate] calls
    [Math.random()] exactly eight times per step: once for each of the four
    agents and four times for the drift. *)
Theorem simulate_draws_eight_per_step (sc : EPR.EPRScenario) (rnd : nat -> Q)
  (pos : nat) :
  snd (EPR.simulate (EPR.constructor sc) rnd pos)
  = (pos + 8 * EPR.steps sc)%nat.
Proof.
  destruct (simulate_unfold (EPR.constructor sc) rnd pos) as (_ & _ & _ & ->).
  rewrite loop_draws.
  - simpl. lia.
  - simpl.
    apply Forall_cons; [left; split; [reflexivity | discriminate]|].
    apply Forall_cons; [left; split; [reflexivity | discriminate]|].
    apply Forall_cons; [left; split; [reflexivity | discriminate]|].
    apply Forall_cons; [right; split; reflexivity | apply Forall_nil].
Qed.

(** ** EvolutionarySimulator: the population over a run *)

Section EvolutionInvariant.
Import Evolutionary.

Variable fitnessCallback : option (list Q -> Q).
Variable rnd : nat -> Q.
Hypothesis rnd_range : forall i, 0 <= rnd i < 1.
Variable L : nat.

Lemma draws_spec :
  forall n pos,
    length (fst (draws n rnd pos)) = n /\
    Forall (fun g => 0 <= g <= 1) (fst (draws n rnd pos)).
Proof.
  induction n as [|n IH]; intros pos; simpl; [split; [reflexivity | constructor]|].
  unfold bind, random, ret. specialize (IH (S pos)).
  destruct (draws n rnd (S pos)) as [rs pos']. simpl in *.
  destruct IH as [IH1 IH2]. split; [congruence|].
  constructor; [|exact IH2]. pose proof (rnd_range pos). lra.
Qed.

Lemma newIndividuals_wellFormed :
  forall n pos, wellFormed L (fst (newIndividuals n L rnd pos)).
Proof.
  induction n as [|n IH]; intros pos; simpl; [constructor|].
  unfold bind at 1. pose proof (draws_spec L pos) as Hd.
  destruct (draws L rnd pos) as [g pos1]. unfold bind at 1.
  specialize (IH pos1).
  destruct (newIndividuals n L rnd pos1) as [rest pos2]. simpl in *.
  constructor; [exact Hd | exact IH].
Qed.

Lemma evaluateFitness_wellFormed (pop : list Individual) :
  wellFormed L pop -> wellFormed L (evaluateFitness fitnessCallback pop).
Proof.
  intros H. rewrite evaluateFitness_map. apply Forall_map.
  eapply Forall_impl; [|exact H]. intros x Hx. exact Hx.
Qed.

Lemma sort_wellFormed (pop : list Individual) :
  wellFormed L pop -> wellFormed L (sort pop).
Proof.
  unfold wellFormed. rewrite !Forall_forall. intros H x Hx.
  apply H. apply sort_In. exact Hx.
Qed.

Lemma insert_length (a : Individual) (l : list Individual) :
  length (insert a l) = S (length l).
Proof.
  induction l as [|b l IH]; simpl; [reflexivity|].
  destruct (Qle_bool (fitness b) (fitness a)); simpl; congruence.
Qed.

Lemma sort_length (pop : list Individual) : length (sort pop) = length pop.
Proof.
  induction pop as [|a pop IH]; [reflexivity|].
  unfold sort in *. simpl. rewrite insert_length. congruence.
Qed.

Lemma crossover_wellFormed (p1 p2 : Individual) (pos : nat) :
  wellFormed L [p1; p2] -> wellFormed L [fst (crossover p1 p2 rnd pos)].
Proof.
  intros H. destruct (Forall_inv H) as [Hl1 Hg1].
  destruct (Forall_inv (Forall_inv_tail H)) as [Hl2 Hg2].
  unfold crossover, bind, random, ret. cbn [fst]. constructor; [|constructor].
  cbn [genes].
  split; [rewrite length_map, length_seq; exact Hl1|].
  apply Forall_map. apply Forall_forall. intros i _.
  assert (Hnth : forall g, Forall (fun x => 0 <= x <= 1) g ->
                           0 <= nth i g 0 <= 1).
  { intros g Hg. destruct (nth_in_or_default i g 0) as [Hin | ->]; [|lra].
    rewrite Forall_forall in Hg. apply Hg. exact Hin. }
  destruct (i <? _)%nat; apply Hnth; assumption.
Qed.

Lemma mutateGenes_cons (gene : Q) (rest : list Q) (rate : Q) (pos : nat) :
  mutateGenes (gene :: rest) rate rnd pos
  = if Qltb (rnd pos) rate
    then (Math.max 0 (Math.min 1 (gene + (rnd (S pos) - (5 # 10)) * (2 # 10)))
          :: fst (mutateGenes rest rate rnd (S (S pos))),
          snd (mutateGenes rest rate rnd (S (S pos))))
    else (gene :: fst (mutateGenes rest rate rnd (S pos)),
          snd (mutateGenes rest rate rnd (S pos))).
Proof.
  simpl. unfold bind, random, ret.
  destruct (Qltb (rnd pos) rate).
  - destruct (mutateGenes rest rate rnd (S (S pos))). reflexivity.
  - destruct (mutateGenes rest rate rnd (S pos)). reflexivity.
Qed.

Lemma mutateGenes_spec (rate : Q) :
  forall g pos,
    Forall (fun x => 0 <= x <= 1) g ->
    length (fst (mutateGenes g rate rnd pos)) = length g /\
    Forall (fun x => 0 <= x <= 1) (fst (mutateGenes g rate rnd pos)) /\
    Forall2 (fun x y => - (1 # 10) <= y - x <= 1 # 10) g
            (fst (mutateGenes g rate rnd pos)).
Proof.
  induction g as [|gene rest IH]; intros pos Hg.
  - simpl. repeat split; constructor.
  - pose proof (Forall_inv Hg) as Hgene. cbv beta in Hgene.
    pose proof (Forall_inv_tail Hg) as Hrest.
    rewrite mutateGenes_cons.
    destruct (Qltb (rnd pos) rate); cbn [fst length].
    + destruct (IH (S (S pos)) Hrest) as (IH1 & IH2 & IH3).
      pose proof (rnd_range (S pos)) as Hr.
      pose proof (clamp_bounds 0 1
                    (gene + (rnd (S pos) - (5 # 10)) * (2 # 10))
                    ltac:(lra)) as Hc.
      split; [congruence|]. split; [constructor; assumption|].
      constructor; [|exact IH3].
      destruct (Math_min_spec 1 (gene + (rnd (S pos) - (5 # 10)) * (2 # 10)))
        as [[? E1]|[? E1]]; rewrite E1 in *;
        destruct (Math_max_spec 0 1) as [[? E2]|[? E2]];
        destruct (Math_max_spec 0
                    (gene + (rnd (S pos) - (5 # 10)) * (2 # 10)))
          as [[? E3]|[? E3]]; rewrite ?E2, ?E3 in *; lra.
    + destruct (IH (S pos) Hrest) as (IH1 & IH2 & IH3).
      split; [congruence|]. split; [constructor; assumption|].
      constructor; [lra | exact IH3].
Qed.

Lemma mutate_wellFormed (child : Individual) (rate : Q) (pos : nat) :
  wellFormed L [child] -> wellFormed L [fst (mutate child rate rnd pos)].
Proof.
  intros H. destruct (Forall_inv H) as [Hl Hg].
  unfold mutate, bind, ret.
  destruct (mutateGenes_spec rate (genes child) pos Hg) as (H1 & H2 & _).
  destruct (mutateGenes (genes child) rate rnd pos) as [g pos'].
  simpl in *. constructor; [|constructor]. simpl.
  split; [congruence | exact H2].
Qed.

Lemma wellFormed_In (pop : list Individual) (x : Individual) :
  wellFormed L pop -> In x pop -> wellFormed L [x].
Proof.
  unfold wellFormed. rewrite Forall_forall. intros H Hx.
  constructor; [apply H; exact Hx | constructor].
Qed.

Lemma breed_wellFormed (pop : list Individual) (rate : Q) :
  pop <> [] -> wellFormed L pop ->
  forall todo newPopulation pos,
    wellFormed L newPopulation ->
    exists out pos',
      breed pop rate todo newPopulation rnd pos = Normal (out, pos') /\
      length out = (length newPopulation + todo)%nat /\
      firstn (length newPopulation) out = newPopulation /\
      wellFormed L out.
Proof.
  intros Hne Hpop. induction todo as [|todo IH]; intros newPopulation pos Hnew;
    simpl.
  - exists newPopulation, pos. split; [reflexivity|].
    split; [lia|]. split; [apply firstn_all | exact Hnew].
  - unfold bindE at 1.
    destruct (tournamentSelection_returns rnd rnd_range pop pos Hne)
      as (p1 & pos1 & -> & Hp1).
    unfold bindE at 1.
    destruct (tournamentSelection_returns rnd rnd_range pop pos1 Hne)
      as (p2 & pos2 & -> & Hp2).
    unfold bindE at 1, liftE at 1.
    assert (Hparents : wellFormed L [p1; p2]).
    { pose proof (wellFormed_In pop p1 Hpop Hp1) as W1.
      pose proof (wellFormed_In pop p2 Hpop Hp2) as W2.
      constructor; [exact (Forall_inv W1)|]. exact W2. }
    pose proof (crossover_wellFormed p1 p2 pos2 Hparents) as Hchild.
    destruct (crossover p1 p2 rnd pos2) as [child pos3].
    unfold bindE at 1, liftE at 1. simpl in Hchild.
    pose proof (mutate_wellFormed child rate pos3 Hchild) as Hchild'.
    destruct (mutate child rate rnd pos3) as [child' pos4]. simpl in Hchild'.
    destruct (IH (newPopulation ++ [child']) pos4) as (out & pos' & -> & Hlen & Hpre & Hwf).
    { apply Forall_app. split; assumption. }
    exists out, pos'. split; [reflexivity|].
    rewrite length_app in Hlen, Hpre. simpl in Hlen, Hpre.
    split; [lia|]. split; [|exact Hwf].
    apply (f_equal (firstn (length newPopulation))) in Hpre.
    rewrite firstn_firstn in Hpre.
    replace (Nat.min (length newPopulation) (length newPopulation + 1))
      with (length newPopulation) in Hpre by lia.
    rewrite Hpre, firstn_app, Nat.sub_diag, firstn_all. simpl.
    apply app_nil_r.
Qed.

Lemma firstn_Forall {A : Type} (P : A -> Prop) (n : nat) (l : list A) :
  Forall P l -> Forall P (firstn n l).
Proof.
  intros H. revert n. induction H as [|x l Hx Hl IH]; intros [|n]; simpl;
    constructor; auto.
Qed.

Lemma slice0_wellFormed (pop : list Individual) (e : Z) :
  wellFormed L pop ->
  wellFormed L (slice0 pop e) /\ (length (slice0 pop e) <= length pop)%nat.
Proof.
  intros H. unfold slice0. destruct (e <? 0)%Z.
  - split; [apply firstn_Forall; exact H | rewrite length_firstn; lia].
  - split; [apply firstn_Forall; exact H | rewrite length_firstn; lia].
Qed.

Lemma evolveGeneration_wellFormed (cfg : EvolutionaryConfig)
  (pop : list Individual) (pos : nat) :
  pop <> [] -> wellFormed L pop ->
  exists out pos',
    evolveGeneration cfg pop rnd pos = Normal (out, pos') /\
    wellFormed L out /\
    (length pop = populationSize cfg -> length out = populationSize cfg) /\
    ((1 <= populationSize cfg)%nat -> out <> []).
Proof.
  intros Hne Hwf. unfold evolveGeneration.
  destruct (slice0_wellFormed pop (eliteCount cfg) Hwf) as [Hs Hl].
  destruct (breed_wellFormed pop (mutationRate cfg) Hne Hwf
              (populationSize cfg - length (slice0 pop (eliteCount cfg)))
              (slice0 pop (eliteCount cfg)) pos Hs)
    as (out & pos' & Hrun & Hlen & _ & Hout).
  exists out, pos'. split; [exact Hrun|]. split; [exact Hout|].
  split; [intros; lia|].
  intros HN E. rewrite E in Hlen. simpl in Hlen. lia.
Qed.

Lemma generationsLoop_wellFormed :
  forall todo gen sim pos,
    population sim <> [] -> wellFormed L (population sim) ->
    (1 <= populationSize (config sim))%nat ->
    exists sim' pos' added,
      generationsLoop fitnessCallback todo gen sim rnd pos = Normal (sim', pos')
      /\ generationHistory sim' = generationHistory sim ++ added
      /\ config sim' = config sim
      /\ population sim' <> []
      /\ wellFormed L (population sim')
      /\ (length (population sim) = populationSize (config sim) ->
          length (population sim') = populationSize (config sim))
      /\ Forall (recordedFrom fitnessCallback L) added.
Proof.
  induction todo as [|todo IH]; intros gen sim pos Hne Hwf HN; simpl.
  - exists sim, pos, []. rewrite app_nil_r. repeat split; auto.
  - pose proof (sort_wellFormed _ (evaluateFitness_wellFormed _ Hwf)) as Hwf1.
    pose proof (sort_length (evaluateFitness fitnessCallback (population sim)))
      as Hlen1.
    rewrite evaluateFitness_map, length_map in Hlen1.
    rewrite <- evaluateFitness_map in Hlen1.
    destruct (sort (evaluateFitness fitnessCallback (population sim)))
      as [|best rest] eqn:Hsort.
    { destruct (population sim); [contradiction | discriminate]. }
    unfold bindE at 1.
    destruct (evolveGeneration_wellFormed (config sim) (best :: rest) pos
                ltac:(discriminate) Hwf1)
      as (out & pos1 & -> & Hout & Hlen & Hne').
    set (data := {| generation := gen;
                    avgFitness := getAverageFitness (best :: rest);
                    bestFitness := fitness best;
                    diversity := calculateDiversity (best :: rest) |}).
    destruct (IH (S gen)
                {| config := config sim; population := out;
                   generationHistory := generationHistory sim ++ [data] |}
                pos1 (Hne' HN) Hout HN)
      as (sim' & pos' & added & Hrun & Hh & Hc & Hp & Hw & Hl & Hrec).
    simpl in *. exists sim', pos', (data :: added).
    split; [exact Hrun|]. rewrite Hh, <- app_assoc.
    split; [reflexivity|]. split; [exact Hc|]. split; [exact Hp|].
    split; [exact Hw|]. split; [intros E; apply Hl, Hlen; congruence|].
    constructor; [|exact Hrec].
    exists (population sim), best, rest. auto.
Qed.

Lemma evolve_wellFormed (sim : EvolutionarySimulator) (pos : nat) :
  (1 <= populationSize (config sim))%nat ->
  wellFormed L (population sim) ->
  L = geneLengthOf sim \/ population sim <> [] ->
  exists res sim' pos' added,
    evolve fitnessCallback sim rnd pos = Normal (res, sim', pos') /\
    res_generations res = generationHistory sim ++ added /\
    Forall (recordedFrom fitnessCallback L) added /\
    wellFormed L (population sim') /\
    (population sim = [] \/ length (population sim) = populationSize (config sim)
     -> length (population sim') = populationSize (config sim)) /\
    (exists rest, population sim' = {| genes := bestSolution res;
                                       fitness := finalFitness res |} :: rest) /\
    Forall (fun x => fitness x = fit fitnessCallback (genes x) /\
                     fitness x <= finalFitness res) (population sim') /\
    convergence res = calculateConvergence (res_generations res) /\
    config sim' = config sim.
Proof.
  intros HN Hwf HL. unfold evolve. fold (geneLengthOf sim).
  assert (Hinit : exists sim0 pos0,
             (match population sim with
              | [] => liftE (initialize sim (geneLengthOf sim))
              | _ :: _ => retE sim
              end) rnd pos = Normal (sim0, pos0) /\
             population sim0 <> [] /\ config sim0 = config sim /\
             generationHistory sim0 = generationHistory sim /\
             wellFormed L (population sim0) /\
             (population sim = [] \/
              length (population sim) = populationSize (config sim) ->
              length (population sim0) = populationSize (config sim))).
  { destruct (population sim) as [|i0 l0] eqn:Hpop.
    - destruct HL as [HL | HL]; [|contradiction]. rewrite <- HL.
      unfold liftE, initialize, bind.
      pose proof (newIndividuals_length rnd (populationSize (config sim))
                    L pos) as Hl.
      pose proof (newIndividuals_wellFormed (populationSize (config sim)) pos)
        as Hw.
      destruct (newIndividuals (populationSize (config sim)) L rnd pos)
        as [pop pos0].
      simpl in Hl, Hw. eexists _, _. split; [reflexivity|]. simpl.
      repeat split; auto. intros E. rewrite E in Hl. simpl in Hl. lia.
    - exists sim, pos. unfold retE. rewrite Hpop.
      repeat split; auto; try discriminate.
      intros [E|E]; [discriminate | exact E]. }
  destruct Hinit as (sim0 & pos0 & Hrun0 & Hne0 & Hc0 & Hh0 & Hw0 & Hl0).
  unfold bindE at 1. rewrite Hrun0. unfold bindE at 1. rewrite Hc0.
  destruct (generationsLoop_wellFormed (generations (config sim)) 0%nat sim0
              pos0 Hne0 Hw0 ltac:(rewrite Hc0; exact HN))
    as (sim' & pos' & added & Hrun & Hh & Hc & Hp & Hw & Hl & Hrec).
  rewrite Hrun.
  pose proof (sort_wellFormed _ (evaluateFitness_wellFormed _ Hw)) as Hwf1.
  pose proof (sort_length (evaluateFitness fitnessCallback (population sim')))
    as Hlen1.
  rewrite evaluateFitness_map, length_map in Hlen1.
  rewrite <- evaluateFitness_map in Hlen1.
  destruct (sort (evaluateFitness fitnessCallback (population sim')))
    as [|best rest] eqn:Hsort.
  { destruct (population sim'); [contradiction | discriminate]. }
  unfold retE. eexists _, _, _, added. split; [reflexivity|]. simpl.
  rewrite Hh, Hh0. split; [reflexivity|]. split; [exact Hrec|].
  split; [exact Hwf1|].
  split; [intros E; simpl in Hlen1 |- *; rewrite Hlen1; rewrite Hc0 in Hl;
          apply Hl, Hl0, E|].
  split; [exists rest; destruct best; reflexivity|].
  split; [|split; [reflexivity | congruence]].
  apply Forall_forall. intros x Hx. split.
  - assert (Hin : In x (evaluateFitness fitnessCallback (population sim')))
      by (apply sort_In; rewrite Hsort; exact Hx).
    rewrite evaluateFitness_map in Hin. apply in_map_iff in Hin.
    destruct Hin as (y & <- & _). reflexivity.
  - apply (sort_head_max _ _ _ Hsort). apply sort_In. rewrite Hsort. exact Hx.
Qed.

End EvolutionInvariant.

(** ** EvolutionarySimulator: the recorded metrics *)

Lemma nat_Q_nonneg (n : nat) : 0 <= inject_Z (Z.of_nat n).
Proof. change 0 with (inject_Z 0). rewrite <- Zle_Qle. lia. Qed.

Lemma nat_Q_pos (n : nat) : (1 <= n)%nat -> 0 < inject_Z (Z.of_nat n).
Proof. intros H. change 0 with (inject_Z 0). rewrite <- Zlt_Qlt. lia. Qed.

Lemma nat_Q_succ (n : nat) :
  inject_Z (Z.of_nat (S n)) == inject_Z (Z.of_nat n) + 1.
Proof.
  rewrite Nat2Z.inj_succ, <- Z.add_1_r, inject_Z_plus. reflexivity.
Qed.

Lemma sum_le (hi : Q) (l : list Q) :
  Forall (fun x => x <= hi) l ->
  forall a, fold_left Qplus l a <= a + hi * inject_Z (Z.of_nat (length l)).
Proof.
  induction 1 as [|x l Hx Hl IH]; intros a.
  - cbn [fold_left length]. change (inject_Z (Z.of_nat 0)) with 0. lra.
  - cbv beta in Hx. cbn [fold_left length]. specialize (IH (a + x)).
    pose proof (nat_Q_succ (length l)) as E. rewrite E. lra.
Qed.

Lemma sum_ge (lo : Q) (l : list Q) :
  Forall (fun x => lo <= x) l ->
  forall a, a + lo * inject_Z (Z.of_nat (length l)) <= fold_left Qplus l a.
Proof.
  induction 1 as [|x l Hx Hl IH]; intros a.
  - cbn [fold_left length]. change (inject_Z (Z.of_nat 0)) with 0. lra.
  - cbv beta in Hx. cbn [fold_left length]. specialize (IH (a + x)).
    pose proof (nat_Q_succ (length l)) as E. rewrite E. lra.
Qed.

Lemma average_le_best (pop : list Evolutionary.Individual) (b : Q) :
  pop <> [] ->
  Forall (fun x => Evolutionary.fitness x <= b) pop ->
  Evolutionary.getAverageFitness pop <= b.
Proof.
  intros Hne Hall. unfold Evolutionary.getAverageFitness, Evolutionary.sumQ.
  assert (Hn : 0 < inject_Z (Z.of_nat (length pop))).
  { apply nat_Q_pos. destruct pop; [contradiction | simpl; lia]. }
  apply Qle_shift_div_r; [exact Hn|].
  pose proof (sum_le b (map Evolutionary.fitness pop)
                ltac:(apply Forall_map; exact Hall) 0) as H.
  rewrite length_map in H. lra.
Qed.

Lemma average_nonneg (pop : list Evolutionary.Individual) :
  Forall (fun x => 0 <= Evolutionary.fitness x) pop ->
  0 <= Evolutionary.getAverageFitness pop.
Proof.
  intros Hall. unfold Evolutionary.getAverageFitness, Evolutionary.sumQ.
  pose proof (sum_ge 0 (map Evolutionary.fitness pop)
                ltac:(apply Forall_map; exact Hall) 0) as H.
  apply Qmult_le_0_compat; [lra|].
  apply Qinv_le_0_compat, nat_Q_nonneg.
Qed.

Lemma defaultFitnessFunction_bounds (g : list Q) :
  Forall (fun x => 0 <= x <= 1) g ->
  0 <= Evolutionary.defaultFitnessFunction g <= inject_Z (Z.of_nat (length g)).
Proof.
  unfold Evolutionary.defaultFitnessFunction. intros H.
  assert (Hgen : forall a,
            a <= fold_left (fun sum gene => sum + gene * gene) g a /\
            fold_left (fun sum gene => sum + gene * gene) g a
            <= a + inject_Z (Z.of_nat (length g))).
  { induction H as [|x l Hx Hl IH]; intros a.
    - cbn [fold_left length]. change (inject_Z (Z.of_nat 0)) with 0.
      split; lra.
    - cbv beta in Hx. cbn [fold_left length].
      destruct (IH (a + x * x)) as [H1 H2].
      pose proof (nat_Q_succ (length l)) as E. rewrite E. split; nra. }
  destruct (Hgen 0). split; lra.
Qed.

Lemma calculateVariance_nonneg (values : list Q) :
  0 <= Evolutionary.calculateVariance values.
Proof.
  unfold Evolutionary.calculateVariance.
  set (mean := Evolutionary.sumQ values / inject_Z (Z.of_nat (length values))).
  assert (Hgen : forall l a, 0 <= a ->
            0 <= fold_left (fun acc val => acc + (val - mean) ^ 2) l a).
  { induction l as [|x l IH]; intros a Ha; simpl fold_left; [exact Ha|].
    apply IH. change ((x - mean) ^ 2) with ((x - mean) * (x - mean)).
    generalize (x - mean). intros t.
    assert (0 <= t * t) by (destruct (Qlt_le_dec t 0); nra). lra. }
  apply Qmult_le_0_compat; [apply Hgen; lra|].
  apply Qinv_le_0_compat, nat_Q_nonneg.
Qed.


Lemma calculateDiversity_spec (L : nat)
  (best : Evolutionary.Individual) (rest : list Evolutionary.Individual) :
  length (Evolutionary.genes best) = L ->
  (L = 0%nat -> Evolutionary.calculateDiversity (best :: rest) = None) /\
  ((1 <= L)%nat ->
   exists d, Evolutionary.calculateDiversity (best :: rest) = Some d /\ 0 <= d).
Proof.
  intros HL. unfold Evolutionary.calculateDiversity. rewrite HL. split.
  - intros ->. reflexivity.
  - intros H1. destruct L as [|L]; [lia|]. eexists. split; [reflexivity|].
    apply Qmult_le_0_compat; [|apply Qinv_le_0_compat, nat_Q_nonneg].
    generalize (seq 0 (S L)). intros l.
    assert (Hgen : forall a, 0 <= a ->
              0 <= fold_left
                     (fun total i =>
                        total + Evolutionary.calculateVariance
                                  (map (fun ind =>
                                          nth i (Evolutionary.genes ind) 0)
                                       (best :: rest))) l a).
    { induction l as [|i l IH]; intros a Ha; simpl fold_left; [exact Ha|].
      apply IH.
      match goal with
      | |- 0 <= _ + Evolutionary.calculateVariance ?v =>
          pose proof (calculateVariance_nonneg v) as Hv;
          revert Hv; generalize (Evolutionary.calculateVariance v)
      end.
      intros v Hv. lra. }
    apply Hgen. lra.
Qed.

Section Records.
Variable fitnessCallback : option (list Q -> Q).
Variable L : nat.

Lemma recordedFrom_spec (g : Evolutionary.GenerationData) :
  recordedFrom fitnessCallback L g ->
  Evolutionary.avgFitness g <= Evolutionary.bestFitness g /\
  (exists genes, length genes = L /\ Forall (fun x => 0 <= x <= 1) genes /\
                 Evolutionary.bestFitness g = fit fitnessCallback genes) /\
  (L = 0%nat -> Evolutionary.diversity g = None) /\
  ((1 <= L)%nat -> exists d, Evolutionary.diversity g = Some d /\ 0 <= d) /\
  ((forall genes, length genes = L -> Forall (fun x => 0 <= x <= 1) genes ->
                  0 <= fit fitnessCallback genes) ->
   0 <= Evolutionary.avgFitness g).
Proof.
  intros (pop0 & best & rest & Hwf & Hsort & Havg & Hbest & Hdiv).
  assert (Hin : forall x, In x (best :: rest) ->
                  exists y, In y pop0 /\ x = evaluated fitnessCallback y).
  { intros x Hx. rewrite <- Hsort in Hx.
    apply (proj1 (sort_In _ _)) in Hx.
    rewrite evaluateFitness_map in Hx. apply in_map_iff in Hx.
    destruct Hx as (y & <- & Hy). exists y. auto. }
  assert (Hgenes : forall x, In x (best :: rest) ->
                     length (Evolutionary.genes x) = L /\
                     Forall (fun v => 0 <= v <= 1) (Evolutionary.genes x) /\
                     Evolutionary.fitness x
                     = fit fitnessCallback (Evolutionary.genes x)).
  { intros x Hx. destruct (Hin x Hx) as (y & Hy & ->).
    unfold wellFormed in Hwf. rewrite Forall_forall in Hwf.
    destruct (Hwf y Hy) as [H1 H2]. simpl. auto. }
  destruct (Hgenes best (or_introl eq_refl)) as (Hl & Hg & Hf).
  rewrite Havg, Hbest, Hdiv. split.
  - apply average_le_best; [discriminate|].
    apply Forall_forall. intros x Hx.
    apply (sort_head_max _ _ _ Hsort). apply sort_In. rewrite Hsort. exact Hx.
  - split; [exists (Evolutionary.genes best); auto|].
    destruct (calculateDiversity_spec L best rest Hl) as [D0 D1].
    split; [exact D0|]. split; [exact D1|].
    intros Hpos. apply average_nonneg. apply Forall_forall. intros x Hx.
    destruct (Hgenes x Hx) as (H1 & H2 & ->). apply Hpos; assumption.
Qed.

End Records.

Section EvolveRecords.
Import Evolutionary.
Variable fitnessCallback : option (list Q -> Q).
Variable rnd : nat -> Q.
Hypothesis rnd_range : forall i, 0 <= rnd i < 1.
Variable L : nat.

(** A simulator as the class makes it: not yet initialised, for five genes,
    or holding [populationSize] individuals. *)
Lemma evolve_records (sim : EvolutionarySimulator) (pos : nat) :
  (1 <= populationSize (config sim))%nat ->
  wellFormed L (population sim) ->
  (population sim = [] /\ L = 5%nat) \/
  length (population sim) = populationSize (config sim) ->
  exists res sim' pos' added,
    evolve fitnessCallback sim rnd pos = Normal (res, sim', pos') /\
    res_generations res = generationHistory sim ++ added /\
    Forall (recordedFrom fitnessCallback L) added /\
    wellFormed L (population sim') /\
    length (population sim') = populationSize (config sim) /\
    (exists rest, population sim' = {| genes := bestSolution res;
                                       fitness := finalFitness res |} :: rest) /\
    Forall (fun x => fitness x = fit fitnessCallback (genes x) /\
                     fitness x <= finalFitness res) (population sim').
Proof.
  intros HN Hwf Hcase.
  destruct (evolve_wellFormed fitnessCallback rnd rnd_range L sim pos HN Hwf)
    as (res & sim' & pos' & added & Hrun & Hres & Hrec & Hw & Hl & Hbest & Hall
        & _ & _).
  { destruct Hcase as [[Hp ->] | Hlen].
    - left. unfold geneLengthOf. rewrite Hp. reflexivity.
    - right. intros E. rewrite E in Hlen. simpl in Hlen. lia. }
  exists res, sim', pos', added. repeat split; auto.
  apply Hl. destruct Hcase as [[Hp _] | Hlen]; auto.
Qed.

End EvolveRecords.

(** X13.  [initialize] makes [populationSize] individuals of [geneLength]
    genes, each within [0, 1].  From such a population, or from a simulator
    not yet initialised (five genes), [evolve] returns and leaves
    [populationSize] individuals with the same number of genes, each gene
    still within [0, 1]; so is the best solution it returns. *)
Theorem population_stays_well_formed
  (fitnessCallback : option (list Q -> Q)) (rnd : nat -> Q) :
  (forall i, 0 <= rnd i < 1) ->
  (forall sim geneLength pos,
     let sim1 := fst (Evolutionary.initialize sim geneLength rnd pos) in
     wellFormed geneLength (Evolutionary.getPopulation sim1) /\
     length (Evolutionary.getPopulation sim1)
     = Evolutionary.populationSize (Evolutionary.config sim) /\
     Evolutionary.config sim1 = Evolutionary.config sim /\
     Evolutionary.generationHistory sim1 = Evolutionary.generationHistory sim)
  /\
  (forall sim pos L,
     (1 <= Evolutionary.populationSize (Evolutionary.config sim))%nat ->
     wellFormed L (Evolutionary.population sim) ->
     (Evolutionary.population sim = [] /\ L = 5%nat) \/
     length (Evolutionary.population sim)
     = Evolutionary.populationSize (Evolutionary.config sim) ->
     exists res sim' pos',
       Evolutionary.evolve fitnessCallback sim rnd pos
       = Normal (res, sim', pos') /\
       length (Evolutionary.getPopulation sim')
       = Evolutionary.populationSize (Evolutionary.config sim) /\
       wellFormed L (Evolutionary.getPopulation sim') /\
       length (Evolutionary.bestSolution res) = L /\
       Forall (fun g => 0 <= g <= 1) (Evolutionary.bestSolution res)).
Proof.
  intros Hrnd. split.
  - intros sim geneLength pos sim1. subst sim1.
    unfold Evolutionary.initialize, bind, ret, Evolutionary.getPopulation.
    pose proof (newIndividuals_length rnd
                  (Evolutionary.populationSize (Evolutionary.config sim))
                  geneLength pos) as Hl.
    pose proof (newIndividuals_wellFormed rnd Hrnd geneLength
                  (Evolutionary.populationSize (Evolutionary.config sim)) pos)
      as Hw.
    destruct (Evolutionary.newIndividuals
                (Evolutionary.populationSize (Evolutionary.config sim))
                geneLength rnd pos) as [pop pos'].
    simpl in *. auto.
  - intros sim pos L HN Hwf Hcase.
    destruct (evolve_records fitnessCallback rnd Hrnd L sim pos HN Hwf Hcase)
      as (res & sim' & pos' & added & Hrun & _ & _ & Hw & Hl & [rest Hbest] & _).
    exists res, sim', pos'. unfold Evolutionary.getPopulation.
    split; [exact Hrun|]. split; [exact Hl|]. split; [exact Hw|].
    rewrite Hbest in Hw. apply Forall_inv in Hw. simpl in Hw. exact Hw.
Qed.

Lemma population_stays_well_formed_witness :
  exists res sim' pos',
    Evolutionary.evolve None defaultSimulator (fun _ => 1 # 2) 0%nat
    = Normal (res, sim', pos') /\
    length (Evolutionary.getPopulation sim') = 50%nat /\
    wellFormed 5 (Evolutionary.getPopulation sim') /\
    length (Evolutionary.bestSolution res) = 5%nat /\
    Forall (fun g => 0 <= g <= 1) (Evolutionary.bestSolution res).
Proof.
  refine (proj2 (population_stays_well_formed None (fun _ => 1 # 2) _)
            defaultSimulator 0%nat 5%nat _ _ _).
  - intros i. lra.
  - simpl. lia.
  - constructor.
  - left. split; reflexivity.
Defined.

(** X14.  Every best fitness [evolve] records is the fitness of an
    individual with [L] genes within [0, 1]; the final fitness is the
    fitness of the best solution and no individual of the final population
    has a higher one. *)
Theorem final_fitness_is_the_maximum
  (fitnessCallback : option (list Q -> Q))
  (sim : Evolutionary.EvolutionarySimulator) (rnd : nat -> Q) (pos L : nat) :
  (forall i, 0 <= rnd i < 1) ->
  (1 <= Evolutionary.populationSize (Evolutionary.config sim))%nat ->
  wellFormed L (Evolutionary.population sim) ->
  (Evolutionary.population sim = [] /\ L = 5%nat) \/
  length (Evolutionary.population sim)
  = Evolutionary.populationSize (Evolutionary.config sim) ->
  Evolutionary.generationHistory sim = [] ->
  exists res sim' pos',
    Evolutionary.evolve fitnessCallback sim rnd pos = Normal (res, sim', pos') /\
    Forall (fun g => exists genes,
                       length genes = L /\
                       Forall (fun x => 0 <= x <= 1) genes /\
                       Evolutionary.bestFitness g = fit fitnessCallback genes)
           (Evolutionary.res_generations res) /\
    Evolutionary.finalFitness res
    = fit fitnessCallback (Evolutionary.bestSolution res) /\
    Forall (fun x => Evolutionary.fitness x
                     = fit fitnessCallback (Evolutionary.genes x) /\
                     Evolutionary.fitness x <= Evolutionary.finalFitness res)
           (Evolutionary.getPopulation sim').
Proof.
  intros Hrnd HN Hwf Hcase Hfresh.
  destruct (evolve_records fitnessCallback rnd Hrnd L sim pos HN Hwf Hcase)
    as (res & sim' & pos' & added & Hrun & Hres & Hrec & _ & _ & [rest Hbest]
        & Hall).
  exists res, sim', pos'. split; [exact Hrun|].
  rewrite Hres, Hfresh, app_nil_l. split; [|split].
  - eapply Forall_impl; [|exact Hrec]. intros g Hg.
    apply (recordedFrom_spec fitnessCallback L g Hg).
  - rewrite Hbest in Hall. apply Forall_inv in Hall. simpl in Hall.
    apply Hall.
  - exact Hall.
Qed.

Lemma final_fitness_is_the_maximum_witness :
  exists res sim' pos',
    Evolutionary.evolve None defaultSimulator (fun _ => 1 # 2) 0%nat
    = Normal (res, sim', pos') /\
    Evolutionary.finalFitness res = fit None (Evolutionary.bestSolution res) /\
    Forall (fun x => Evolutionary.fitness x <= Evolutionary.finalFitness res)
           (Evolutionary.getPopulation sim').
Proof.
  destruct (final_fitness_is_the_maximum None defaultSimulator
              (fun _ => 1 # 2) 0%nat 5%nat)
    as (res & sim' & pos' & Hrun & _ & Hfin & Hall).
  - intros i. lra.
  - simpl. lia.
  - constructor.
  - left. split; reflexivity.
  - reflexivity.
  - exists res, sim', pos'. split; [exact Hrun|]. split; [exact Hfin|].
    eapply Forall_impl; [|exact Hall]. intros x Hx. apply Hx.
Defined.

(** X15.  With the default sum-of-squares fitness and [L] genes per
    individual, every recorded average fitness, every recorded best fitness
    and the final fitness lie between 0 and [L]. *)
Theorem default_fitness_is_bounded
  (sim : Evolutionary.EvolutionarySimulator) (rnd : nat -> Q) (pos L : nat) :
  (forall i, 0 <= rnd i < 1) ->
  (1 <= Evolutionary.populationSize (Evolutionary.config sim))%nat ->
  wellFormed L (Evolutionary.population sim) ->
  (Evolutionary.population sim = [] /\ L = 5%nat) \/
  length (Evolutionary.population sim)
  = Evolutionary.populationSize (Evolutionary.config sim) ->
  Evolutionary.generationHistory sim = [] ->
  exists res sim' pos',
    Evolutionary.evolve None sim rnd pos = Normal (res, sim', pos') /\
    Forall (fun g => 0 <= Evolutionary.avgFitness g <= inject_Z (Z.of_nat L) /\
                     0 <= Evolutionary.bestFitness g <= inject_Z (Z.of_nat L))
           (Evolutionary.res_generations res) /\
    0 <= Evolutionary.finalFitness res <= inject_Z (Z.of_nat L).
Proof.
  intros Hrnd HN Hwf Hcase Hfresh.
  destruct (evolve_records None rnd Hrnd L sim pos HN Hwf Hcase)
    as (res & sim' & pos' & added & Hrun & Hres & Hrec & Hw & _ & [rest Hbest]
        & Hall).
  assert (Hfit : forall genes, length genes = L ->
                   Forall (fun x => 0 <= x <= 1) genes ->
                   0 <= fit None genes <= inject_Z (Z.of_nat L)).
  { intros genes <- Hg. apply defaultFitnessFunction_bounds. exact Hg. }
  exists res, sim', pos'. split; [exact Hrun|].
  rewrite Hres, Hfresh, app_nil_l. split.
  - eapply Forall_impl; [|exact Hrec]. intros g Hg.
    destruct (recordedFrom_spec None L g Hg)
      as (Havg & (genes & Hl & Hin & Hb) & _ & _ & Hpos).
    assert (H0 : 0 <= Evolutionary.avgFitness g)
      by (apply Hpos; intros; apply Hfit; assumption).
    destruct (Hfit genes Hl Hin) as [Hb0 Hb1]. rewrite <- Hb in Hb0, Hb1.
    split; split; lra.
  - rewrite Hbest in Hall, Hw.
    apply Forall_inv in Hall. apply Forall_inv in Hw. simpl in Hall, Hw.
    destruct Hall as [-> _]. apply Hfit; apply Hw.
Qed.

Lemma default_fitness_is_bounded_witness :
  exists res sim' pos',
    Evolutionary.evolve None defaultSimulator (fun _ => 1 # 2) 0%nat
    = Normal (res, sim', pos') /\
    Forall (fun g => 0 <= Evolutionary.avgFitness g <= inject_Z (Z.of_nat 5) /\
                     0 <= Evolutionary.bestFitness g <= inject_Z (Z.of_nat 5))
           (Evolutionary.res_generations res) /\
    0 <= Evolutionary.finalFitness res <= inject_Z (Z.of_nat 5).
Proof.
  apply (default_fitness_is_bounded defaultSimulator (fun _ => 1 # 2)
           0%nat 5%nat).
  - intros i. lra.
  - simpl. lia.
  - constructor.
  - left. split; reflexivity.
  - reflexivity.
Defined.



(** ** EvolutionarySimulator: strategy optimisation *)

Lemma initialize_spec (rnd : nat -> Q) (sim : Evolutionary.EvolutionarySimulator)
  (geneLength pos : nat) :
  (forall i, 0 <= rnd i < 1) ->
  let sim1 := fst (Evolutionary.initialize sim geneLength rnd pos) in
  wellFormed geneLength (Evolutionary.population sim1) /\
  length (Evolutionary.population sim1)
  = Evolutionary.populationSize (Evolutionary.config sim) /\
  Evolutionary.config sim1 = Evolutionary.config sim /\
  Evolutionary.generationHistory sim1 = Evolutionary.generationHistory sim.
Proof.
  intros Hrnd sim1. subst sim1.
  unfold Evolutionary.initialize, bind, ret.
  pose proof (newIndividuals_length rnd
                (Evolutionary.populationSize (Evolutionary.config sim))
                geneLength pos) as Hl.
  pose proof (newIndividuals_wellFormed rnd Hrnd geneLength
                (Evolutionary.populationSize (Evolutionary.config sim)) pos)
    as Hw.
  destruct (Evolutionary.newIndividuals
              (Evolutionary.populationSize (Evolutionary.config sim))
              geneLength rnd pos) as [pop pos'].
  simpl in *. auto.
Qed.

Lemma strategyScore_nonneg (m : nat) (constraints : list (list Q))
  (g : list Q) : 0 <= Evolutionary.strategyScore m constraints g.
Proof. unfold Evolutionary.strategyScore. apply Math_max_ge_l. Qed.

(** X17.  [optimizeStrategy] returns for every list of objectives and of
    constraints: it records 100 generations, numbered from 0, whose best
    score never decreases; no recorded best or average score is negative;
    the best solution has one gene per objective, each within [0, 1], and
    the final score is its score. *)
Theorem optimizeStrategy_returns (objectives : list string)
  (constraints : list (list Q)) (rnd : nat -> Q) (pos : nat) :
  (forall i, 0 <= rnd i < 1) ->
  exists res sim' pos',
    Evolutionary.optimizeStrategy objectives constraints rnd pos
    = Normal (res, sim', pos') /\
    map Evolutionary.generation (Evolutionary.res_generations res)
    = seq 0 100 /\
    nondecreasing
      (map Evolutionary.bestFitness (Evolutionary.res_generations res)) /\
    Forall (fun g => 0 <= Evolutionary.avgFitness g /\
                     0 <= Evolutionary.bestFitness g)
           (Evolutionary.res_generations res) /\
    length (Evolutionary.bestSolution res) = length objectives /\
    Forall (fun g => 0 <= g <= 1) (Evolutionary.bestSolution res) /\
    Evolutionary.finalFitness res
    = Evolutionary.strategyScore (length objectives) constraints
        (Evolutionary.bestSolution res) /\
    length (Evolutionary.getPopulation sim') = 100%nat.
Proof.
  intros Hrnd. unfold Evolutionary.optimizeStrategy, bindE, liftE.
  set (sim0 := Evolutionary.constructor _).
  set (cb := Some (Evolutionary.strategyScore (length objectives) constraints)).
  destruct (initialize_spec rnd sim0 (length objectives) pos Hrnd)
    as (Hw1 & Hl1 & Hc1 & Hh1).
  destruct (Evolutionary.initialize sim0 (length objectives) rnd pos)
    as [sim1 pos1].
  cbn [fst] in Hw1, Hl1, Hc1, Hh1.
  assert (HN : (1 <= Evolutionary.populationSize (Evolutionary.config sim1))%nat).
  { rewrite Hc1. simpl. lia. }
  assert (Hcase : (Evolutionary.population sim1 = [] /\
                   length objectives = 5%nat) \/
                  length (Evolutionary.population sim1)
                  = Evolutionary.populationSize (Evolutionary.config sim1)).
  { right. rewrite Hc1. exact Hl1. }
  destruct (evolve_records cb rnd Hrnd (length objectives) sim1 pos1 HN Hw1
              Hcase)
    as (res & sim' & pos' & added & Hrun & Hres & Hrec & Hw & Hl & [rest Hbest]
        & Hall).
  destruct (evolve_returns cb rnd Hrnd sim1 pos1 HN)
    as (res2 & sim2 & pos2 & added2 & Hrun2 & Hres2 & _ & Hgen & Hmono & _).
  rewrite Hrun in Hrun2. injection Hrun2 as <- <- <-.
  exists res, sim', pos'. split; [exact Hrun|].
  rewrite Hh1 in Hres, Hres2. simpl in Hres, Hres2.
  split; [|split; [|split; [|split; [|split; [|split]]]]].
  - rewrite Hres2, Hgen, Hc1. reflexivity.
  - rewrite Hres2. apply Hmono. rewrite Hc1. vm_compute. discriminate.
  - rewrite Hres. eapply Forall_impl; [|exact Hrec]. intros g Hg.
    destruct (recordedFrom_spec cb (length objectives) g Hg)
      as (_ & (genes & _ & _ & Hb) & _ & _ & Hpos).
    split.
    + apply Hpos. intros genes' _ _. apply strategyScore_nonneg.
    + rewrite Hb. apply strategyScore_nonneg.
  - rewrite Hbest in Hw. apply Forall_inv in Hw. apply Hw.
  - rewrite Hbest in Hw. apply Forall_inv in Hw. apply Hw.
  - rewrite Hbest in Hall. apply Forall_inv in Hall. simpl in Hall.
    apply Hall.
  - unfold Evolutionary.getPopulation. rewrite Hl, Hc1. reflexivity.
Qed.

Lemma optimizeStrategy_returns_witness :
  exists res sim' pos',
    Evolutionary.optimizeStrategy ["growth"%string; "margin"%string]
      [[1; 1]] (fun _ => 1 # 2) 0%nat
    = Normal (res, sim', pos') /\
    length (Evolutionary.bestSolution res) = 2%nat.
Proof.
  destruct (optimizeStrategy_returns ["growth"%string; "margin"%string]
              [[1; 1]] (fun _ => 1 # 2) 0%nat)
    as (res & sim' & pos' & Hrun & _ & _ & _ & Hl & _).
  - intros i. lra.
  - exists res, sim', pos'. split; [exact Hrun | exact Hl].
Defined.

(** ** EvolutionarySimulator: crossover and mutation *)

Lemma crossover_genes (cp : nat) :
  forall a b : list Q,
    length b = length a ->
    map (fun i => if (i <? cp)%nat then nth i a 0 else nth i b 0)
        (seq 0 (length a))
    = firstn cp a ++ skipn cp b.
Proof.
  induction cp as [|c IH]; intros a b Hlen.
  - simpl. revert b Hlen. induction a as [|x a IHa]; intros [|y b] Hlen;
      simpl in *; try discriminate; [reflexivity|].
    f_equal. rewrite <- seq_shift, map_map. apply IHa. lia.
  - destruct a as [|x a]; destruct b as [|y b]; simpl in *;
      try discriminate; [reflexivity|].
    f_equal. rewrite <- seq_shift, map_map.
    rewrite <- (IH a b) by lia. apply map_ext. intros i. reflexivity.
Qed.

(** X18.  The child [crossover] makes of two parents with the same number of
    genes has the genes of the first parent before the crossover point and
    those of the second parent from that point on; the point is drawn below
    the number of genes, and the child's fitness is 0. *)
Theorem crossover_is_one_point (rnd : nat -> Q)
  (parent1 parent2 : Evolutionary.Individual) (pos : nat) :
  (forall i, 0 <= rnd i < 1) ->
  length (Evolutionary.genes parent2) = length (Evolutionary.genes parent1) ->
  let child := fst (Evolutionary.crossover parent1 parent2 rnd pos) in
  let point := floor_index (rnd pos) (length (Evolutionary.genes parent1)) in
  Evolutionary.genes child
  = firstn point (Evolutionary.genes parent1)
    ++ skipn point (Evolutionary.genes parent2) /\
  (Evolutionary.genes parent1 <> [] ->
   (point < length (Evolutionary.genes parent1))%nat) /\
  Evolutionary.fitness child = 0 /\
  snd (Evolutionary.crossover parent1 parent2 rnd pos) = S pos.
Proof.
  intros Hrnd Hlen child point. subst child point.
  unfold Evolutionary.crossover, bind, random, ret. cbn [fst snd].
  cbn [Evolutionary.genes Evolutionary.fitness].
  split; [apply crossover_genes; exact Hlen|].
  split; [|split; reflexivity].
  intros Hne. apply floor_index_lt; [apply Hrnd|].
  destruct (Evolutionary.genes parent1); [congruence | simpl; lia].
Qed.

Lemma crossover_is_one_point_witness :
  Evolutionary.genes
    (fst (Evolutionary.crossover
            {| Evolutionary.genes := [0; 0; 0; 0]; Evolutionary.fitness := 0 |}
            {| Evolutionary.genes := [1; 1; 1; 1]; Evolutionary.fitness := 0 |}
            (fun _ => 1 # 2) 0%nat))
  = [0; 0; 1; 1].
Proof.
  apply (crossover_is_one_point (fun _ => 1 # 2)
           {| Evolutionary.genes := [0; 0; 0; 0]; Evolutionary.fitness := 0 |}
           {| Evolutionary.genes := [1; 1; 1; 1]; Evolutionary.fitness := 0 |}
           0%nat).
  - intros i. lra.
  - reflexivity.
Defined.




(** ** ProspectTheorySimulator: the value function *)

Section Values.
Import ProspectTheory.
Local Open Scope R_scope.

Variable cfg : ProspectTheoryConfig.

Lemma valueFunction_gain (x : R) :
  0 < x -> valueFunction cfg x = Rpower x (alpha cfg) /\ 0 < valueFunction cfg x.
Proof.
  intros Hx. unfold valueFunction.
  destruct (Rle_dec 0 x) as [_ | N]; [|Lra.lra].
  apply pow_positive_base. exact Hx.
Qed.

Lemma valueFunction_loss (x : R) :
  x < 0 -> valueFunction cfg x = - lambda cfg * Rpower (- x) (beta cfg).
Proof.
  intros Hx. unfold valueFunction.
  destruct (Rle_dec 0 x) as [N | _]; [Lra.lra|].
  rewrite (proj1 (pow_positive_base (- x) (beta cfg) ltac:(Lra.lra))).
  reflexivity.
Qed.

Lemma valueFunction_zero : 0 < alpha cfg -> valueFunction cfg 0 = 0.
Proof.
  intros Ha. unfold valueFunction, pow.
  destruct (Rle_dec 0 0) as [_ | N]; [|Lra.lra].
  destruct (Rlt_dec 0 0) as [N | _]; [Lra.lra|].
  destruct (Rlt_dec 0 (alpha cfg)) as [_ | N]; [reflexivity | contradiction].
Qed.

Lemma valueFunction_nonneg (x : R) : 0 <= x -> 0 <= valueFunction cfg x.
Proof.
  intros Hx. unfold valueFunction, pow.
  destruct (Rle_dec 0 x) as [_ | N]; [|contradiction].
  destruct (Rlt_dec 0 x) as [Hpos | _].
  - left. unfold Rpower. apply exp_pos.
  - destruct (Rlt_dec 0 (alpha cfg)); Lra.lra.
Qed.

End Values.

(** X21.  [valueFunction] is not negative on gains and, when [lambda] is
    positive, not positive on losses; it is 0 at 0 when [alpha] is
    positive.  When [alpha] equals [beta], a loss weighs [lambda] times the
    gain of the same size.  [calculateValueFunction] samples it at the 101
    integers from -50 to 50. *)
Theorem valueFunction_signs_and_loss_aversion
  (cfg : ProspectTheory.ProspectTheoryConfig) :
  ((0 < ProspectTheory.alpha cfg)%R ->
   ProspectTheory.valueFunction cfg 0 = 0%R /\
   nth_error (ProspectTheory.calculateValueFunction cfg) 50 = Some 0%R) /\
  (forall x, (0 <= x)%R -> (0 <= ProspectTheory.valueFunction cfg x)%R) /\
  ((0 < ProspectTheory.lambda cfg)%R ->
   forall x, (x < 0)%R -> (ProspectTheory.valueFunction cfg x <= 0)%R) /\
  (ProspectTheory.alpha cfg = ProspectTheory.beta cfg ->
   forall x, (0 < x)%R ->
     ProspectTheory.valueFunction cfg (- x)
     = (- ProspectTheory.lambda cfg * ProspectTheory.valueFunction cfg x)%R) /\
  length (ProspectTheory.calculateValueFunction cfg) = 101%nat /\
  (forall i, (i <= 100)%nat ->
     nth_error (ProspectTheory.calculateValueFunction cfg) i
     = Some (ProspectTheory.valueFunction cfg (IZR (Z.of_nat i) - 50))).
Proof.
  assert (Hnth : forall i, (i <= 100)%nat ->
            nth_error (ProspectTheory.calculateValueFunction cfg) i
            = Some (ProspectTheory.valueFunction cfg (IZR (Z.of_nat i) - 50))).
  { intros i Hi. unfold ProspectTheory.calculateValueFunction.
    rewrite nth_error_map, nth_error_seq.
    destruct (Nat.ltb_spec i 101) as [_ | N]; [reflexivity | lia]. }
  split; [|split; [|split; [|split; [|split]]]].
  - intros Ha. pose proof (valueFunction_zero cfg Ha) as Hz.
    split; [exact Hz|]. rewrite (Hnth 50%nat) by lia.
    replace (IZR (Z.of_nat 50) - 50)%R with 0%R
      by (change (Z.of_nat 50) with 50%Z; Lra.lra).
    rewrite Hz. reflexivity.
  - apply valueFunction_nonneg.
  - intros Hl x Hx. rewrite (valueFunction_loss cfg x Hx).
    assert (0 < Rpower (- x) (ProspectTheory.beta cfg))%R
      by (unfold Rpower; apply exp_pos).
    Lra.nra.
  - intros Hab x Hx.
    rewrite (valueFunction_loss cfg (- x)) by Lra.lra.
    rewrite (proj1 (valueFunction_gain cfg x Hx)).
    rewrite Hab, Ropp_involutive. reflexivity.
  - unfold ProspectTheory.calculateValueFunction.
    rewrite length_map, length_seq. reflexivity.
  - exact Hnth.
Qed.

Lemma valueFunction_signs_and_loss_aversion_witness :
  ProspectTheory.valueFunction (ProspectTheory.config oneAgent) (- 50)
  = (- ProspectTheory.lambda (ProspectTheory.config oneAgent)
     * ProspectTheory.valueFunction (ProspectTheory.config oneAgent) 50)%R.
Proof.
  apply (valueFunction_signs_and_loss_aversion (ProspectTheory.config oneAgent)).
  - reflexivity.
  - Lra.lra.
Defined.

(** ** ProspectTheorySimulator: decisions, risk and the series of a run *)

Section Decisions.
Import ProspectTheory.
Local Open Scope R_scope.

Variable cfg : ProspectTheoryConfig.
Variable rnd : nat -> R.

Lemma logistic_unit (x : R) : 0 < 1 / (1 + exp (- x)) < 1.
Proof.
  pose proof (exp_pos (- x)) as He.
  split.
  - apply Rdiv_lt_0_compat; Lra.lra.
  - apply (Rmult_lt_reg_r (1 + exp (- x))); [Lra.lra|].
    unfold Rdiv. rewrite Rmult_assoc, Rinv_l by Lra.lra. Lra.lra.
Qed.

(** The sure gain adds 50 and takes no risk; the gamble adds 300 or nothing
    and its risk is the probability with which it was chosen. *)
Lemma simulateAgentDecision_spec (a : PTAgent) (pos : nat) :
  let '(a', (choice, risk), pos') := simulateAgentDecision cfg a rnd pos in
  gamma a' = gamma a /\ lokLevel a' = lokLevel a /\
  referencePoint a' = referencePoint a /\
  ((choice = 0 /\ risk = 0 /\ wealth a' = wealth a + 50) \/
   (choice = 1 /\ 0 < risk < 1 /\
    (wealth a' = wealth a + 300 \/ wealth a' = wealth a + 0))) /\
  (pos < pos' <= pos + 4)%nat.
Proof.
  unfold simulateAgentDecision, bind, ret, random, add_wealth,
    gambleHigh, sureGain.
  destruct (Rlt_dec 0 (cfg_lokLevel cfg));
    destruct (Rlt_dec 0 (lokLevel a));
    match goal with
    | |- context [Rlt_dec ?r (1 / (1 + exp (- ?x)))] =>
        pose proof (logistic_unit x);
        destruct (Rlt_dec r (1 / (1 + exp (- x))))
    end;
    try (match goal with
         | |- context [Rltb ?r ?p] => destruct (Rltb r p)
         end);
    cbn [wealth gamma lokLevel referencePoint];
    (split; [reflexivity|]); (split; [reflexivity|]);
    (split; [reflexivity|]);
    (split; [|lia]); auto 6.
Qed.

Lemma advanced_once (a a' : PTAgent) :
  gamma a' = gamma a -> lokLevel a' = lokLevel a ->
  referencePoint a' = referencePoint a -> gain a a' -> advanced 1 a a'.
Proof.
  intros Hg Hl Hr Hw. unfold advanced. simpl INR.
  repeat (split; [assumption|]).
  unfold gain in Hw. destruct Hw as [H | [H | H]]; Lra.lra.
Qed.

Lemma agentsLoop_spec :
  forall ags pos,
    let '(ags', (stepWealth, stepRisk, stepDecisions), pos') :=
      agentsLoop cfg ags rnd pos in
    Forall2 (advanced 1) ags ags' /\
    stepWealth = map wealth ags' /\
    length stepRisk = length ags /\
    length stepDecisions = length ags /\
    Forall (fun r => 0 <= r < 1) stepRisk /\
    Forall (fun c => c = 0 \/ c = 1) stepDecisions /\
    (pos + length ags <= pos' <= pos + 4 * length ags)%nat.
Proof.
  induction ags as [|a ags IH]; intros pos.
  - simpl. unfold ret.
    repeat split; try constructor; simpl; lia.
  - rewrite agentsLoop_cons.
    pose proof (simulateAgentDecision_spec a pos) as Hd.
    destruct (simulateAgentDecision cfg a rnd pos)
      as [[a' [choice risk]] pos1].
    specialize (IH pos1).
    destruct (agentsLoop cfg ags rnd pos1)
      as [[rest' [[stepWealth stepRisk] stepDecisions]] pos2].
    destruct Hd as (Hg & Hl & Hr & Hcase & Hpos).
    destruct IH as (IH1 & IH2 & IH3 & IH4 & IH5 & IH6 & IH7).
    split.
    { constructor; [|exact IH1].
      apply advanced_once; try assumption. unfold gain.
      destruct Hcase as [(_ & _ & H) | (_ & _ & [H | H])]; auto. }
    split; [simpl; f_equal; exact IH2|].
    split; [simpl; f_equal; exact IH3|].
    split; [simpl; f_equal; exact IH4|].
    split.
    { constructor; [|exact IH5].
      destruct Hcase as [(_ & -> & _) | (_ & H & _)]; Lra.lra. }
    split.
    { constructor; [|exact IH6].
      destruct Hcase as [(-> & _) | (-> & _)]; auto. }
    simpl length. lia.
Qed.

Lemma advanced_trans (j k : nat) (a b c : PTAgent) :
  advanced j a b -> advanced k b c -> advanced (j + k) a c.
Proof.
  unfold advanced. intros (G1 & L1 & R1 & W1) (G2 & L2 & R2 & W2).
  rewrite plus_INR.
  split; [congruence|]. split; [congruence|]. split; [congruence|].
  Lra.lra.
Qed.

Lemma advanced_refl (k : nat) (a : PTAgent) : advanced k a a.
Proof.
  unfold advanced. repeat (split; [reflexivity|]).
  pose proof (pos_INR k). Lra.lra.
Qed.

Lemma Forall2_compose {A : Type} (P Q T : A -> A -> Prop) :
  (forall a b c, P a b -> Q b c -> T a c) ->
  forall l1 l2, Forall2 P l1 l2 ->
  forall l3, Forall2 Q l2 l3 -> Forall2 T l1 l3.
Proof.
  intros H l1 l2 H12. induction H12 as [|a b l1 l2 Hab _ IH]; intros l3 H23.
  - inversion H23. constructor.
  - inversion H23 as [|b' c l2' l3' Hbc Hrest]; subst.
    constructor; [eapply H; eassumption | apply IH; exact Hrest].
Qed.

Lemma agentsAt_advanced :
  forall k ags pos, Forall2 (advanced k) ags (fst (agentsAt cfg rnd k ags pos)).
Proof.
  induction k as [|k IH]; intros ags pos.
  - simpl. induction ags; constructor; [apply advanced_refl | assumption].
  - rewrite agentsAt_step.
    pose proof (agentsLoop_spec ags pos) as Hs.
    destruct (agentsLoop cfg ags rnd pos)
      as [[ags1 [[stepWealth stepRisk] stepDecisions]] pos1].
    cbn [fst snd]. destruct Hs as (H1 & _).
    apply (Forall2_compose (advanced 1) (advanced k) (advanced (S k)))
      with (l2 := ags1); [|exact H1 | apply IH].
    intros a b c Hab Hbc. apply (advanced_trans 1 k a b c); assumption.
Qed.

Lemma fold_left_Rplus_lt (hi : R) :
  forall l x, l <> [] -> Forall (fun v => v < hi) l ->
              fold_left Rplus l x < x + hi * INR (length l).
Proof.
  induction l as [|a l IH]; intros x Hne Hl; [congruence|].
  pose proof (Forall_inv Hl) as Ha. cbv beta in Ha.
  pose proof (Forall_inv_tail Hl) as Hrest.
  change (length (a :: l)) with (S (length l)). rewrite S_INR.
  cbn [fold_left].
  destruct l as [|b l].
  - simpl. Lra.lra.
  - specialize (IH (x + a) ltac:(discriminate) Hrest). Lra.lra.
Qed.

Lemma fold_left_Rplus_ge (lo : R) :
  forall l x, Forall (fun v => lo <= v) l ->
              x + lo * INR (length l) <= fold_left Rplus l x.
Proof.
  induction l as [|a l IH]; intros x Hl.
  - simpl. Lra.lra.
  - pose proof (Forall_inv Hl) as Ha. cbv beta in Ha.
    pose proof (Forall_inv_tail Hl) as Hrest.
    change (length (a :: l)) with (S (length l)). rewrite S_INR.
    cbn [fold_left]. specialize (IH (x + a) Hrest). Lra.lra.
Qed.

Lemma fold_left_Rplus_upper (hi : R) :
  forall l x, Forall (fun v => v <= hi) l ->
              fold_left Rplus l x <= x + hi * INR (length l).
Proof.
  induction l as [|a l IH]; intros x Hl.
  - simpl. Lra.lra.
  - pose proof (Forall_inv Hl) as Ha. cbv beta in Ha.
    pose proof (Forall_inv_tail Hl) as Hrest.
    change (length (a :: l)) with (S (length l)). rewrite S_INR.
    cbn [fold_left]. specialize (IH (x + a) Hrest). Lra.lra.
Qed.

Lemma length_positive {A : Type} (l : list A) : l <> [] -> 0 < INR (length l).
Proof.
  intros Hne. apply lt_0_INR. destruct l; [congruence | simpl; lia].
Qed.

Lemma average_lt (hi : R) (l : list R) :
  l <> [] -> Forall (fun v => v < hi) l -> average l < hi.
Proof.
  intros Hne Hl. unfold average.
  pose proof (length_positive l Hne) as Hn.
  pose proof (fold_left_Rplus_lt hi l 0 Hne Hl) as Hs.
  apply (Rmult_lt_reg_r (INR (length l))); [exact Hn|].
  unfold Rdiv. rewrite Rmult_assoc, Rinv_l by Lra.lra. Lra.lra.
Qed.

Lemma average_ge (lo : R) (l : list R) :
  l <> [] -> Forall (fun v => lo <= v) l -> lo <= average l.
Proof.
  intros Hne Hl. unfold average.
  pose proof (length_positive l Hne) as Hn.
  pose proof (fold_left_Rplus_ge lo l 0 Hl) as Hs.
  apply (Rmult_le_reg_r (INR (length l))); [exact Hn|].
  unfold Rdiv. rewrite Rmult_assoc, Rinv_l by Lra.lra. Lra.lra.
Qed.

Lemma average_upper (hi : R) (l : list R) :
  l <> [] -> Forall (fun v => v <= hi) l -> average l <= hi.
Proof.
  intros Hne Hl. unfold average.
  pose proof (length_positive l Hne) as Hn.
  pose proof (fold_left_Rplus_upper hi l 0 Hl) as Hs.
  apply (Rmult_le_reg_r (INR (length l))); [exact Hn|].
  unfold Rdiv. rewrite Rmult_assoc, Rinv_l by Lra.lra. Lra.lra.
Qed.

Lemma stepsLoop_spec :
  forall todo ags s pos,
    ags <> [] ->
    Forall (fun r => 0 <= r < 1) (s_riskPropensity s) ->
    Forall (fun d => 0 <= d <= 1) (s_decisions s) ->
    let '(ags', s', pos') := stepsLoop cfg todo ags s rnd pos in
    length ags' = length ags /\
    length (s_wealth s') = (length (s_wealth s) + todo)%nat /\
    length (s_riskPropensity s') = (length (s_riskPropensity s) + todo)%nat /\
    length (s_decisions s') = (length (s_decisions s) + todo)%nat /\
    Forall (fun r => 0 <= r < 1) (s_riskPropensity s') /\
    Forall (fun d => 0 <= d <= 1) (s_decisions s') /\
    (pos + todo * length ags <= pos' <= pos + todo * (4 * length ags))%nat.
Proof.
  induction todo as [|todo IH]; intros ags s pos Hne Hr Hd.
  - simpl. unfold ret. repeat split; auto; lia.
  - rewrite stepsLoop_S.
    pose proof (agentsLoop_spec ags pos) as Hs.
    destruct (agentsLoop cfg ags rnd pos)
      as [[ags1 [[stepWealth stepRisk] stepDecisions]] pos1].
    destruct Hs as (H1 & H2 & H3 & H4 & H5 & H6 & H7).
    pose proof (Forall2_length H1) as Hlen.
    assert (Hne1 : ags1 <> []).
    { intros E. rewrite E in Hlen. destruct ags; [congruence | discriminate]. }
    assert (HneR : stepRisk <> []).
    { intros E. rewrite E in H3. destruct ags; [congruence | discriminate]. }
    assert (HneD : stepDecisions <> []).
    { intros E. rewrite E in H4. destruct ags; [congruence | discriminate]. }
    match goal with
    | |- context [stepsLoop cfg todo ags1 ?s1 rnd pos1] =>
        specialize (IH ags1 s1 pos1 Hne1)
    end.
    cbn [s_wealth s_riskPropensity s_decisions] in IH.
    assert (Hr1 : Forall (fun r => 0 <= r < 1)
                    (s_riskPropensity s ++ [average stepRisk])).
    { apply Forall_app. split; [exact Hr|]. constructor; [|constructor].
      split.
      - apply average_ge; [exact HneR|].
        eapply Forall_impl; [|exact H5]. intros r Hr0. apply Hr0.
      - apply average_lt; [exact HneR|].
        eapply Forall_impl; [|exact H5]. intros r Hr0. apply Hr0. }
    assert (Hd1 : Forall (fun d => 0 <= d <= 1)
                    (s_decisions s ++ [average stepDecisions])).
    { apply Forall_app. split; [exact Hd|]. constructor; [|constructor].
      split.
      - apply average_ge; [exact HneD|].
        eapply Forall_impl; [|exact H6]. intros c [-> | ->]; Lra.lra.
      - apply average_upper; [exact HneD|].
        eapply Forall_impl; [|exact H6]. intros c [-> | ->]; Lra.lra. }
    specialize (IH Hr1 Hd1).
    destruct (stepsLoop cfg todo ags1 _ rnd pos1) as [[ags' s'] pos'].
    destruct IH as (I1 & I2 & I3 & I4 & I5 & I6 & I7).
    rewrite length_app in I2, I3, I4. simpl in I2, I3, I4.
    split; [congruence|]. split; [lia|]. split; [lia|]. split; [lia|].
    split; [exact I5|]. split; [exact I6|].
    rewrite <- Hlen in I7. nia.
Qed.

End Decisions.

Lemma startAgents_length (sim : ProspectTheory.ProspectTheorySimulator) :
  (ProspectTheory.agents sim = [] /\ length (startAgents sim) = 500%nat) \/
  (ProspectTheory.agents sim <> [] /\
   startAgents sim = ProspectTheory.agents sim).
Proof.
  unfold startAgents. destruct (ProspectTheory.agents sim) eqn:E.
  - left. split; [reflexivity|]. unfold ProspectTheory.initialize.
    cbn [ProspectTheory.agents]. rewrite length_app, !repeat_length.
    reflexivity.
  - right. split; [discriminate | reflexivity].
Qed.

Lemma simulate_spec
  (sim : ProspectTheory.ProspectTheorySimulator) (steps : nat)
  (rnd : nat -> R) (pos : nat) :
  let res := fst (fst (ProspectTheory.simulate sim steps rnd pos)) in
  let sim' := snd (fst (ProspectTheory.simulate sim steps rnd pos)) in
  let pos' := snd (ProspectTheory.simulate sim steps rnd pos) in
  let n := length (startAgents sim) in
  length (ProspectTheory.decisions res) = steps /\
  length (ProspectTheory.res_wealth res) = steps /\
  length (ProspectTheory.riskPropensity res) = steps /\
  length (ProspectTheory.res_valueFunction res) = 101%nat /\
  length (ProspectTheory.res_weightingFunction res) = 101%nat /\
  Forall (fun d => 0 <= d <= 1)%R (ProspectTheory.decisions res) /\
  Forall (fun r => 0 <= r < 1)%R (ProspectTheory.riskPropensity res) /\
  ProspectTheory.config sim' = ProspectTheory.config sim /\
  length (ProspectTheory.getAgents sim') = n /\
  (ProspectTheory.agents sim = [] -> n = 500%nat) /\
  (pos + steps * n <= pos' <= pos + steps * (4 * n))%nat.
Proof.
  intros res sim' pos' n. subst res sim' pos' n.
  pose proof (startAgents_not_nil sim) as Hne.
  pose proof (startAgents_length sim) as Hlen.
  unfold ProspectTheory.simulate, bind, ProspectTheory.getAgents.
  unfold startAgents in *.
  set (sim0 := match ProspectTheory.agents sim with
               | [] => ProspectTheory.initialize sim 500 1000%R
               | _ :: _ => sim
               end).
  assert (Hc : ProspectTheory.config sim0 = ProspectTheory.config sim).
  { subst sim0. destruct (ProspectTheory.agents sim); reflexivity. }
  assert (Ha : ProspectTheory.agents sim0
               = match ProspectTheory.agents sim with
                 | [] => ProspectTheory.agents
                           (ProspectTheory.initialize sim 500 1000%R)
                 | _ :: _ => ProspectTheory.agents sim
                 end).
  { subst sim0. destruct (ProspectTheory.agents sim) eqn:E;
      [reflexivity | exact E]. }
  rewrite <- Ha in *.
  pose proof (stepsLoop_spec (ProspectTheory.config sim0) rnd steps
                (ProspectTheory.agents sim0)
                {| ProspectTheory.s_wealth := [];
                   ProspectTheory.s_riskPropensity := [];
                   ProspectTheory.s_decisions := [] |} pos Hne
                (Forall_nil _) (Forall_nil _)) as Hs.
  destruct (ProspectTheory.stepsLoop (ProspectTheory.config sim0) steps
              (ProspectTheory.agents sim0) _ rnd pos) as [[ags s] pos'].
  destruct Hs as (I1 & I2 & I3 & I4 & I5 & I6 & I7).
  unfold ret.
  cbn [fst snd ProspectTheory.decisions ProspectTheory.res_wealth
         ProspectTheory.riskPropensity ProspectTheory.res_valueFunction
         ProspectTheory.res_weightingFunction ProspectTheory.config
         ProspectTheory.agents] in *.
  split; [exact I4|]. split; [exact I2|]. split; [exact I3|].
  split; [unfold ProspectTheory.calculateValueFunction;
          rewrite length_map, length_seq; reflexivity|].
  split; [unfold ProspectTheory.calculateWeightingFunction;
          rewrite length_map, length_seq; reflexivity|].
  split; [exact I6|]. split; [exact I5|]. split; [exact Hc|].
  split; [exact I1|]. split; [|exact I7].
  intros E. destruct Hlen as [[_ H] | [H _]]; [exact H | contradiction].
Qed.

(** X22.  [simulate] returns three series with one entry per step, 101
    samples of the value function and 101 of the weighting function.  Every
    entry of [decisions] lies in [0, 1] and every entry of [riskPropensity]
    in [0, 1).  The run keeps the configuration and the number of agents,
    500 when the simulator had none, and draws between one and four numbers
    per agent and step. *)
Theorem simulate_series_shape
  (sim : ProspectTheory.ProspectTheorySimulator) (steps : nat)
  (rnd : nat -> R) (pos : nat) :
  let res := fst (fst (ProspectTheory.simulate sim steps rnd pos)) in
  let sim' := snd (fst (ProspectTheory.simulate sim steps rnd pos)) in
  let pos' := snd (ProspectTheory.simulate sim steps rnd pos) in
  let n := length (startAgents sim) in
  length (ProspectTheory.decisions res) = steps /\
  length (ProspectTheory.res_wealth res) = steps /\
  length (ProspectTheory.riskPropensity res) = steps /\
  length (ProspectTheory.res_valueFunction res) = 101%nat /\
  length (ProspectTheory.res_weightingFunction res) = 101%nat /\
  Forall (fun d => 0 <= d <= 1)%R (ProspectTheory.decisions res) /\
  Forall (fun r => 0 <= r < 1)%R (ProspectTheory.riskPropensity res) /\
  ProspectTheory.config sim' = ProspectTheory.config sim /\
  length (ProspectTheory.getAgents sim') = n /\
  (ProspectTheory.agents sim = [] -> n = 500%nat) /\
  (pos + steps * n <= pos' <= pos + steps * (4 * n))%nat.
Proof. exact (simulate_spec sim steps rnd pos). Qed.

Lemma simulate_series_shape_witness :
  length
    (startAgents
       (ProspectTheory.constructor
          {| ProspectTheory.p_alpha := None; ProspectTheory.p_beta := None;
             ProspectTheory.p_lambda := None; ProspectTheory.p_gamma := None;
             ProspectTheory.p_delta := None;
             ProspectTheory.p_lokLevel := None |}))
  = 500%nat.
Proof.
  apply (simulate_series_shape
       (ProspectTheory.constructor
          {| ProspectTheory.p_alpha := None; ProspectTheory.p_beta := None;
             ProspectTheory.p_lambda := None; ProspectTheory.p_gamma := None;
             ProspectTheory.p_delta := None;
             ProspectTheory.p_lokLevel := None |})
       3 (fun _ => 0%R) 0%nat).
  reflexivity.
Defined.

(** ** ProspectTheorySimulator: how far wealth can grow *)

Section Growth.
Import ProspectTheory.
Local Open Scope R_scope.

Lemma advanced_wealthier (k : nat) (a a' : PTAgent) :
  advanced k a a' -> wealthier a a'.
Proof.
  intros (Hg & Hl & Hr & Hw & _). repeat split; assumption.
Qed.

Lemma average_wealthier (l l' : list PTAgent) :
  Forall2 wealthier l l' -> average (map wealth l) <= average (map wealth l').
Proof.
  intros H. apply average_le. induction H as [|a a' l l' Ha _ IH]; simpl;
    constructor; [apply Ha | exact IH].
Qed.

Lemma average_constant (c : R) (l : list R) :
  l <> [] -> Forall (fun v => v = c) l -> average l = c.
Proof.
  intros Hne Hl. apply Rle_antisym.
  - apply average_upper; [exact Hne|].
    eapply Forall_impl; [|exact Hl]. intros v ->. apply Rle_refl.
  - apply average_ge; [exact Hne|].
    eapply Forall_impl; [|exact Hl]. intros v ->. apply Rle_refl.
Qed.

Lemma initialize_wealth (sim : ProspectTheorySimulator) (n : nat) (w : R) :
  Forall (fun a => wealth a = w /\ referencePoint a = 0)
         (agents (initialize sim n w)).
Proof.
  unfold initialize. cbn [agents]. apply Forall_app.
  split; apply Forall_forall; intros a Ha; apply repeat_spec in Ha;
    subst a; split; reflexivity.
Qed.

End Growth.

(** X23.  Each agent ends a run of [simulate] with its [gamma],
    [lokLevel] and [referencePoint] unchanged and with a wealth that is not
    below the one it started with; no average wealth [simulate] returns is
    below the average wealth the run started from, which is 1000 when the
    simulator had no agent.  When every wealth is an integer that stays
    within 2^53, where the sums are exact, an agent ends the run with at
    most 300 more a step. *)
Theorem wealth_growth_is_bounded
  (sim : ProspectTheory.ProspectTheorySimulator) (steps : nat)
  (rnd : nat -> R) (pos : nat) :
  let start := startAgents sim in
  let initial := ProspectTheory.average (map ProspectTheory.wealth start) in
  let res := fst (fst (ProspectTheory.simulate sim steps rnd pos)) in
  let sim' := snd (fst (ProspectTheory.simulate sim steps rnd pos)) in
  Forall2 wealthier start (ProspectTheory.getAgents sim') /\
  (forall k x,
     nth_error (ProspectTheory.res_wealth res) k = Some x -> (initial <= x)%R)
  /\
  (ProspectTheory.agents sim = [] -> initial = 1000%R) /\
  (Forall (exactFor steps) start ->
   Forall2 (fun a a' => (ProspectTheory.wealth a'
                         <= ProspectTheory.wealth a + 300 * INR steps)%R)
           start (ProspectTheory.getAgents sim')).
Proof.
  intros start initial res sim'.
  destruct (simulate_agentsAt sim steps rnd pos) as [Hagents Hseries].
  fold start res sim' in Hagents, Hseries.
  assert (Hadv : forall k, Forall2 (advanced k) start
                   (fst (agentsAt (ProspectTheory.config sim) rnd k start pos)))
    by (intros k; apply agentsAt_advanced).
  split; [|split; [|split]].
  - unfold ProspectTheory.getAgents. rewrite Hagents.
    eapply Forall2_impl; [|apply Hadv]. apply advanced_wealthier.
  - intros k x Hx. rewrite Hseries in Hx. unfold averagesFrom in Hx.
    apply nth_error_map_seq in Hx. destruct Hx as [-> _].
    apply average_wealthier.
    eapply Forall2_impl; [|apply Hadv]. apply advanced_wealthier.
  - intros E. subst initial start. unfold startAgents. rewrite E.
    apply average_constant.
    + unfold ProspectTheory.initialize. cbn. discriminate.
    + apply Forall_map.
      eapply Forall_impl; [|apply initialize_wealth].
      intros a Ha. apply Ha.
  - intros _. unfold ProspectTheory.getAgents. rewrite Hagents.
    eapply Forall2_impl; [|apply Hadv].
    intros a a' Ha. apply Ha.
Qed.

Lemma wealth_growth_is_bounded_witness :
  Forall2 (fun a a' => (ProspectTheory.wealth a'
                        <= ProspectTheory.wealth a + 300 * INR 50)%R)
    (startAgents oneAgent)
    (ProspectTheory.getAgents
       (snd (fst (ProspectTheory.simulate oneAgent 50 (fun _ => 0%R) 0%nat)))).
Proof.
  apply (wealth_growth_is_bounded oneAgent 50 (fun _ => 0%R) 0%nat).
  constructor; [|constructor].
  exists 1000%Z. split; [reflexivity|]. vm_compute. discriminate.
Defined.

(** ** ProspectTheorySimulator: the two cohorts *)

Section Cohorts.
Import ProspectTheory.
Local Open Scope R_scope.

Lemma filter_repeat {A : Type} (f : A -> bool) (a : A) (n : nat) :
  filter f (repeat a n) = if f a then repeat a n else [].
Proof.
  induction n as [|n IH]; simpl; [destruct (f a); reflexivity|].
  rewrite IH. destruct (f a); reflexivity.
Qed.

Lemma filter_all {A : Type} (f : A -> bool) (l : list A) :
  Forall (fun a => f a = true) l -> filter f l = l.
Proof.
  induction 1 as [|a l Ha _ IH]; simpl; [reflexivity|].
  rewrite Ha, IH. reflexivity.
Qed.

Lemma filter_none {A : Type} (f : A -> bool) (l : list A) :
  Forall (fun a => f a = false) l -> filter f l = [].
Proof.
  induction 1 as [|a l Ha _ IH]; simpl; [reflexivity|].
  rewrite Ha, IH. reflexivity.
Qed.

Lemma isKnowledgeable_spec (a : PTAgent) :
  isKnowledgeable a = true <-> lokLevel a = 0.
Proof.
  unfold isKnowledgeable. destruct (Req_dec_T (lokLevel a) 0); split;
    auto; discriminate.
Qed.

Lemma isLok_spec (a : PTAgent) : isLok a = true <-> 0 < lokLevel a.
Proof.
  unfold isLok, Rltb. destruct (Rlt_dec 0 (lokLevel a)); split;
    auto; discriminate.
Qed.

Lemma writeBack_spec (keep : PTAgent -> bool) (P : PTAgent -> PTAgent -> Prop) :
  forall saved updated,
    Forall2 P (filter keep saved) updated ->
    Forall2 (fun a a' => (keep a = true /\ P a a') \/ a' = a)
            saved (writeBack keep saved updated).
Proof.
  induction saved as [|a rest IH]; intros updated H; simpl; [constructor|].
  simpl in H. destruct (keep a) eqn:E.
  - inversion H as [|a0 u l us Hau Hrest]; subst.
    constructor; [left; split; [exact E | exact Hau] | apply IH; exact Hrest].
  - constructor; [right; reflexivity | apply IH; exact H].
Qed.

Lemma writeBack_all (keep : PTAgent -> bool) :
  forall saved updated,
    Forall (fun a => keep a = true) saved ->
    length updated = length saved ->
    writeBack keep saved updated = updated.
Proof.
  induction saved as [|a rest IH]; intros updated Hk Hl.
  - destruct updated; [reflexivity | discriminate].
  - destruct updated as [|u us]; [discriminate|].
    simpl. rewrite (Forall_inv Hk). f_equal.
    apply IH; [exact (Forall_inv_tail Hk) | simpl in Hl; lia].
Qed.

Lemma Forall2_same {A : Type} (P : A -> A -> Prop) (l : list A) :
  (forall a, P a a) -> Forall2 P l l.
Proof. intros H. induction l; constructor; auto. Qed.

(** One run of [compareAgents]: the agents of the cohort have advanced, the
    others are as they were. *)
Lemma runCohort_spec (cfg : ProspectTheoryConfig) (keep : PTAgent -> bool)
  (saved : list PTAgent) (steps : nat) (rnd : nat -> R) (pos : nat) :
  let '(result, saved', pos') := runCohort cfg keep saved steps rnd pos in
  Forall2 (fun a a' => (keep a = true /\ advanced steps a a') \/ a' = a)
          saved saved' /\
  length (res_wealth result) = steps /\
  length (riskPropensity result) = steps.
Proof.
  unfold runCohort, bind, ret.
  set (sim0 := {| config := cfg; agents := filter keep saved |}).
  pose proof (simulate_spec sim0 steps rnd pos) as Hs.
  pose proof (simulate_agentsAt sim0 steps rnd pos) as [Ha _].
  destruct (simulate sim0 steps rnd pos) as [[result sim'] pos'].
  cbn [fst snd] in Hs, Ha.
  destruct Hs as (_ & Hw & Hr & _).
  split; [|split; [exact Hw | exact Hr]].
  destruct (filter keep saved) as [|c cohort] eqn:E.
  - apply Forall2_same. intros a. right. reflexivity.
  - apply writeBack_spec. rewrite E, Ha.
    unfold startAgents, sim0. cbn [agents config].
    apply agentsAt_advanced.
Qed.

(** X24.  [compareAgents] keeps the configuration, the number and the order
    of the agents and their [gamma], [lokLevel] and [referencePoint], but
    not their wealth: the agents are the objects the two runs updated, so
    each wealth is where the runs left it, not below the wealth before.  An
    agent with a negative [lokLevel] is in neither cohort and is not
    touched.  Each of the four series has one entry per step.  When every
    wealth is an integer that stays within 2^53, where the sums are exact,
    an agent ends with at most 300 more a step. *)
Theorem compareAgents_restores_the_array_only
  (sim : ProspectTheorySimulator) (steps : nat) (rnd : nat -> R) (pos : nat) :
  let cmp := fst (fst (compareAgents sim steps rnd pos)) in
  let sim' := snd (fst (compareAgents sim steps rnd pos)) in
  config sim' = config sim /\
  Forall2 (fun a a' => wealthier a a' /\ (lokLevel a < 0 -> a' = a))
          (getAgents sim) (getAgents sim') /\
  length (knowledgeable_wealth cmp) = steps /\
  length (knowledgeable_risk cmp) = steps /\
  length (lok_wealth cmp) = steps /\
  length (lok_risk cmp) = steps /\
  (Forall (exactFor steps) (getAgents sim) ->
   Forall2 (fun a a' => wealth a' <= wealth a + 300 * INR steps)
           (getAgents sim) (getAgents sim')).
Proof.
  intros cmp sim'. subst cmp sim'. unfold getAgents, compareAgents, bind, ret.
  pose proof (runCohort_spec (config sim) isKnowledgeable (agents sim) steps
                rnd pos) as H1.
  destruct (runCohort (config sim) isKnowledgeable (agents sim) steps rnd pos)
    as [[result1 saved1] pos1].
  pose proof (runCohort_spec (config sim) isLok saved1 steps rnd pos1) as H2.
  destruct (runCohort (config sim) isLok saved1 steps rnd pos1)
    as [[result2 saved2] pos2].
  destruct H1 as (F1 & W1 & R1). destruct H2 as (F2 & W2 & R2).
  cbn [fst snd config agents knowledgeable_wealth knowledgeable_risk
         lok_wealth lok_risk].
  assert (Hadv : Forall2 (fun a a' => advanced steps a a' /\
                                      (lokLevel a < 0 -> a' = a))
                   (agents sim) saved2).
  { apply (Forall2_compose _ _ _) with (2 := F1) (3 := F2).
    intros a b c [[Ka Hab] | ->] [[Kb Hbc] | ->].
    - apply isKnowledgeable_spec in Ka. apply isLok_spec in Kb.
      destruct Hab as (_ & Hl & _). rewrite Hl, Ka in Kb. Lra.lra.
    - split; [exact Hab|]. intros Hneg.
      apply isKnowledgeable_spec in Ka. Lra.lra.
    - split; [exact Hbc|]. intros Hneg. apply isLok_spec in Kb. Lra.lra.
    - split; [apply advanced_refl | reflexivity]. }
  split; [reflexivity|].
  split.
  { eapply Forall2_impl; [|exact Hadv].
    intros a a' [Ha Hn]. split; [|exact Hn].
    apply (advanced_wealthier steps). exact Ha. }
  repeat (split; [assumption|]).
  intros _. eapply Forall2_impl; [|exact Hadv].
  intros a a' [Ha _]. apply Ha.
Qed.

End Cohorts.

Lemma compareAgents_restores_the_array_only_witness :
  ProspectTheory.getAgents
    (snd (fst (ProspectTheory.compareAgents
                 {| ProspectTheory.config := ProspectTheory.config oneAgent;
       ProspectTheory.agents :=
         [ {| ProspectTheory.wealth := 1000%R;
              ProspectTheory.gamma := (61 / 100)%R;
              ProspectTheory.lokLevel := (-1)%R;
              ProspectTheory.referencePoint := 0%R |} ] |}
                 2 (fun _ => 0%R) 0%nat)))
  = [ {| ProspectTheory.wealth := 1000%R;
         ProspectTheory.gamma := (61 / 100)%R;
         ProspectTheory.lokLevel := (-1)%R;
         ProspectTheory.referencePoint := 0%R |} ].
Proof.
  destruct (compareAgents_restores_the_array_only
    {| ProspectTheory.config := ProspectTheory.config oneAgent;
       ProspectTheory.agents :=
         [ {| ProspectTheory.wealth := 1000%R;
              ProspectTheory.gamma := (61 / 100)%R;
              ProspectTheory.lokLevel := (-1)%R;
              ProspectTheory.referencePoint := 0%R |} ] |}
    2 (fun _ => 0%R) 0%nat) as (_ & H & _).
  unfold ProspectTheory.getAgents in H at 1.
  cbn [ProspectTheory.agents] in H. revert H.
  match goal with
  | |- context [ProspectTheory.getAgents ?x] =>
      generalize (ProspectTheory.getAgents x)
  end.
  intros after H.
  inversion H as [|a a' l l' [_ Heq] Hrest]; subst.
  inversion Hrest; subst.
  rewrite Heq; [reflexivity|]. simpl. Lra.lra.
Defined.

Section OneCohort.
Import ProspectTheory.
Local Open Scope R_scope.

Lemma runCohort_none (cfg : ProspectTheoryConfig) (keep : PTAgent -> bool)
  (saved : list PTAgent) (steps : nat) (rnd : nat -> R) (pos : nat) :
  filter keep saved = [] ->
  runCohort cfg keep saved steps rnd pos
  = (fst (fst (simulate {| config := cfg; agents := [] |} steps rnd pos)),
     saved,
     snd (simulate {| config := cfg; agents := [] |} steps rnd pos)).
Proof.
  intros E. unfold runCohort, bind, ret. rewrite E.
  destruct (simulate {| config := cfg; agents := [] |} steps rnd pos)
    as [[result sim'] pos'].
  reflexivity.
Qed.

Lemma runCohort_all (cfg : ProspectTheoryConfig) (keep : PTAgent -> bool)
  (saved : list PTAgent) (steps : nat) (rnd : nat -> R) (pos : nat) :
  saved <> [] -> Forall (fun a => keep a = true) saved ->
  runCohort cfg keep saved steps rnd pos
  = (fst (fst (simulate {| config := cfg; agents := saved |} steps rnd pos)),
     agents (snd (fst (simulate {| config := cfg; agents := saved |}
                         steps rnd pos))),
     snd (simulate {| config := cfg; agents := saved |} steps rnd pos)).
Proof.
  intros Hne Hall. unfold runCohort, bind, ret.
  rewrite (filter_all keep saved Hall).
  pose proof (simulate_spec {| config := cfg; agents := saved |} steps rnd pos)
    as Hs.
  destruct (simulate {| config := cfg; agents := saved |} steps rnd pos)
    as [[result sim'] pos'].
  cbn [fst snd] in *.
  destruct Hs as (_ & _ & _ & _ & _ & _ & _ & _ & Hlen & _).
  unfold getAgents, startAgents in Hlen. cbn [agents] in Hlen.
  destruct saved as [|a0 l0]; [congruence|].
  rewrite (writeBack_all keep (a0 :: l0) (agents sim') Hall Hlen).
  reflexivity.
Qed.

Lemma simulate_config (sim : ProspectTheorySimulator) (steps : nat)
  (rnd : nat -> R) (pos : nat) :
  snd (fst (simulate sim steps rnd pos))
  = {| config := config sim;
       agents := agents (snd (fst (simulate sim steps rnd pos))) |}.
Proof.
  pose proof (simulate_spec sim steps rnd pos) as Hs.
  destruct (simulate sim steps rnd pos) as [[result sim'] pos'].
  cbn [fst snd] in *.
  destruct Hs as (_ & _ & _ & _ & _ & _ & _ & Hc & _).
  destruct sim' as [c a]. cbn [config agents] in *. rewrite Hc. reflexivity.
Qed.

(** X25.  On a simulator whose agents all have [lokLevel] 0,
    [compareAgents] leaves the agents exactly as [simulate] would: the
    knowledgeable series are those of [simulate] on the simulator itself.
    As no agent passes the second filter, the LOK series come from a run
    on 500 agents created for the occasion, which starts where the first
    run stopped drawing and leaves no trace in the simulator. *)
Theorem compareAgents_without_lok_agents (sim : ProspectTheorySimulator)
  (steps : nat) (rnd : nat -> R) (pos : nat) :
  agents sim <> [] ->
  Forall (fun a => lokLevel a = 0) (agents sim) ->
  let first := simulate sim steps rnd pos in
  let fresh := simulate {| config := config sim; agents := [] |} steps rnd
                 (snd first) in
  compareAgents sim steps rnd pos
  = ({| knowledgeable_wealth := res_wealth (fst (fst first));
        knowledgeable_risk := riskPropensity (fst (fst first));
        lok_wealth := res_wealth (fst (fst fresh));
        lok_risk := riskPropensity (fst (fst fresh)) |},
     snd (fst first), snd fresh).
Proof.
  intros Hne Hall first fresh. subst first fresh.
  unfold compareAgents, bind, ret.
  assert (Hk : Forall (fun a => isKnowledgeable a = true) (agents sim)).
  { eapply Forall_impl; [|exact Hall]. intros a Ha.
    apply isKnowledgeable_spec. exact Ha. }
  rewrite (runCohort_all (config sim) isKnowledgeable (agents sim) steps rnd
             pos Hne Hk).
  assert (Esim : {| config := config sim; agents := agents sim |} = sim)
    by (destruct sim; reflexivity).
  rewrite Esim.
  pose proof (simulate_agentsAt sim steps rnd pos) as [Ha _].
  pose proof (simulate_config sim steps rnd pos) as Hc.
  assert (Hstart : startAgents sim = agents sim).
  { destruct (startAgents_length sim) as [[E _] | [_ E]];
      [contradiction | exact E]. }
  rewrite Hstart in Ha.
  assert (Hnone : filter isLok
                    (agents (snd (fst (simulate sim steps rnd pos)))) = []).
  { apply filter_none. rewrite Ha.
    pose proof (agentsAt_advanced (config sim) rnd steps (agents sim) pos)
      as Hadv.
    revert Hadv Hall.
    generalize (fst (agentsAt (config sim) rnd steps (agents sim) pos)).
    generalize (agents sim).
    induction 1 as [|a a' l l' Haa _ IH]; intros Hl; constructor.
    - destruct Haa as (_ & Hlok & _).
      pose proof (Forall_inv Hl) as H0. cbv beta in H0.
      destruct (isLok a') eqn:E; [|reflexivity].
      apply isLok_spec in E. Lra.lra.
    - apply IH. exact (Forall_inv_tail Hl). }
  rewrite (runCohort_none (config sim) isLok _ steps rnd _ Hnone).
  cbv beta iota zeta. cbn [fst snd]. rewrite <- Hc. reflexivity.
Qed.

(** X26.  [initialize] keeps the configuration and makes [nAgents] agents
    with the given wealth: first [floor(nAgents / 2)] agents with
    [lokLevel] 0 and the configured [gamma], then the others, with [gamma]
    0.3 and the configured [lokLevel], or 1 when that is 0.  The first
    group is the knowledgeable cohort of [compareAgents]; the second is its
    LOK cohort when the configured [lokLevel] is not negative, and is in
    neither cohort when it is negative.  The second group has as many
    agents as the first, or one more. *)
Theorem initialize_makes_two_cohorts (sim : ProspectTheorySimulator)
  (n : nat) (w : R) :
  let ags := agents (initialize sim n w) in
  let level := if Req_dec_T (cfg_lokLevel (config sim)) 0
               then 1 else cfg_lokLevel (config sim) in
  config (initialize sim n w) = config sim /\
  ags = repeat {| wealth := w; gamma := cfg_gamma (config sim);
                  lokLevel := 0; referencePoint := 0 |} (n / 2)
        ++ repeat {| wealth := w; gamma := 3 / 10; lokLevel := level;
                     referencePoint := 0 |} (n - n / 2) /\
  length ags = n /\
  level <> 0 /\
  length (filter isKnowledgeable ags) = (n / 2)%nat /\
  (0 <= cfg_lokLevel (config sim) ->
   length (filter isLok ags) = (n - n / 2)%nat) /\
  (cfg_lokLevel (config sim) < 0 -> filter isLok ags = []) /\
  (n / 2 <= n - n / 2 <= S (n / 2))%nat.
Proof.
  intros ags level. subst ags. unfold initialize. cbn [config agents].
  fold level.
  assert (Hhalf : (n / 2 <= n - n / 2 <= S (n / 2))%nat).
  { pose proof (Nat.div_mod_eq n 2) as E.
    pose proof (Nat.mod_upper_bound n 2 ltac:(lia)) as U. lia. }
  assert (Hlevel : level <> 0).
  { subst level. destruct (Req_dec_T (cfg_lokLevel (config sim)) 0);
      [Lra.lra | assumption]. }
  split; [reflexivity|]. split; [reflexivity|].
  split; [rewrite length_app, !repeat_length; lia|].
  split; [exact Hlevel|].
  rewrite !filter_app, !filter_repeat.
  unfold isKnowledgeable, isLok, Rltb. cbn [lokLevel].
  destruct (Req_dec_T 0 0) as [_ | N]; [|congruence].
  destruct (Req_dec_T level 0) as [N | _]; [contradiction|].
  destruct (Rlt_dec 0 0) as [N | _]; [Lra.lra|].
  split; [rewrite app_nil_r, repeat_length; reflexivity|].
  split.
  - intros Hpos. destruct (Rlt_dec 0 level) as [_ | N].
    + simpl. apply repeat_length.
    + exfalso. apply N. subst level.
      destruct (Req_dec_T (cfg_lokLevel (config sim)) 0); Lra.lra.
  - split; [|exact Hhalf].
    intros Hneg. destruct (Rlt_dec 0 level) as [Hl | _]; [|reflexivity].
    exfalso. subst level.
    destruct (Req_dec_T (cfg_lokLevel (config sim)) 0); Lra.lra.
Qed.

End OneCohort.

Lemma compareAgents_without_lok_agents_witness :
  snd (fst (ProspectTheory.compareAgents oneAgent 2 (fun _ => 0%R) 0%nat))
  = snd (fst (ProspectTheory.simulate oneAgent 2 (fun _ => 0%R) 0%nat)).
Proof.
  rewrite (compareAgents_without_lok_agents oneAgent 2 (fun _ => 0%R) 0%nat).
  - reflexivity.
  - discriminate.
  - constructor; [reflexivity | constructor].
Defined.

Lemma initialize_makes_two_cohorts_witness :
  length (filter ProspectTheory.isLok
            (ProspectTheory.agents
               (ProspectTheory.initialize oneAgent 501 1000%R)))
  = 251%nat.
Proof.
  apply (initialize_makes_two_cohorts oneAgent 501 1000%R).
  simpl. Lra.lra.
Defined.

(** ** GameTheorySimulator: the other named games *)

Lemma two_by_two_initial (cfg : GameTheory.GameTheoryConfig) (rnd : nat -> Q) :
  (forall i, 0 <= rnd i < 1) ->
  GameTheory.players cfg = 2%nat ->
  length (GameTheory.strategies cfg) = 2%nat ->
  GameTheory.initialStrategies cfg rnd
  = [floor_index (rnd 0%nat) 2; floor_index (rnd 1%nat) 2] /\
  (floor_index (rnd 0%nat) 2 < 2)%nat /\ (floor_index (rnd 1%nat) 2 < 2)%nat.
Proof.
  intros Hrnd Hp Hs. unfold GameTheory.initialStrategies.
  rewrite Hp, Hs.
  repeat split; try (apply floor_index_lt; [apply Hrnd | lia]).
Qed.

(** X27.  With at least one round to run, the Hawk-Dove game and the
    coordination game end where the second player's initial draw sends
    them, whatever the first player drew.  Hawk-Dove ends with the second
    player on its initial strategy and the first player on the other one,
    with payoffs 4 for the hawk and 1 for the dove; the coordination game
    ends with both players on the second player's initial strategy, with
    payoffs (2, 2) on A and (1, 1) on B.  Both return after at most three
    rounds. *)
Theorem second_draw_decides (its : nat) (rnd : nat -> Q) :
  (1 <= its)%nat ->
  (forall i, 0 <= rnd i < 1) ->
  let second := floor_index (rnd 1%nat) 2 in
  (exists r,
     GameTheory.hawkDove its rnd = Normal r /\
     GameTheory.equilibrium r
     = (if (second =? 0)%nat then [Some "Dove"; Some "Hawk"]
        else [Some "Hawk"; Some "Dove"])%string /\
     GameTheory.res_payoffs r
     = (if (second =? 0)%nat then [Some 1; Some 4] else [Some 4; Some 1]) /\
     (1 <= GameTheory.res_iterations r <= 3)%nat) /\
  (exists r,
     GameTheory.simulate (GameTheory.coordinationGame its) rnd = Normal r /\
     GameTheory.equilibrium r
     = (if (second =? 0)%nat then [Some "Strategy A"; Some "Strategy A"]
        else [Some "Strategy B"; Some "Strategy B"])%string /\
     GameTheory.res_payoffs r
     = (if (second =? 0)%nat then [Some 2; Some 2] else [Some 1; Some 1]) /\
     (1 <= GameTheory.res_iterations r <= 3)%nat).
Proof.
  intros Hits Hrnd second. subst second.
  destruct (two_by_two_initial (GameTheory.hawkDoveConfig its) rnd Hrnd
              eq_refl eq_refl) as (Hh & Ha & Hb).
  destruct (two_by_two_initial (GameTheory.coordinationGame its) rnd Hrnd
              eq_refl eq_refl) as (Hc & _ & _).
  unfold GameTheory.hawkDove, GameTheory.simulate.
  rewrite Hh, Hc. clear Hh Hc.
  revert Ha Hb.
  generalize (floor_index (rnd 0%nat) 2), (floor_index (rnd 1%nat) 2).
  intros a b Ha Hb.
  assert (a = 0 \/ a = 1)%nat as Ea by lia.
  assert (b = 0 \/ b = 1)%nat as Eb by lia.
  destruct its as [|[|[|its]]]; [lia| | |];
    destruct Ea as [-> | ->]; destruct Eb as [-> | ->];
    (split; eexists; (split; [vm_compute; reflexivity|]);
     simpl; repeat split; lia).
Qed.

Lemma second_draw_decides_witness :
  exists r,
    GameTheory.hawkDove 100 (fun i => if (i =? 1)%nat then 3 # 4 else 0)
    = Normal r /\
    GameTheory.equilibrium r = [Some "Hawk"; Some "Dove"]%string /\
    GameTheory.res_payoffs r = [Some 4; Some 1] /\
    (1 <= GameTheory.res_iterations r <= 3)%nat.
Proof.
  apply (second_draw_decides 100
           (fun i => if (i =? 1)%nat then 3 # 4 else 0)).
  - lia.
  - intros i. destruct (i =? 1)%nat; lra.
Defined.

(** X28.  With at least one round to run, the federation dilemma ends with
    both players hoarding data, with payoffs (2, 2), from each of the four
    initial profiles and after at most three rounds; its payoffs are those
    of the configuration the constructor uses by default. *)
Theorem federationDilemma_hoard_hoard (its : nat) (rnd : nat -> Q) :
  (1 <= its)%nat ->
  (forall i, 0 <= rnd i < 1) ->
  (exists r,
     GameTheory.federationDilemma its rnd = Normal r /\
     GameTheory.equilibrium r
     = [Some "Hoard Data"; Some "Hoard Data"]%string /\
     GameTheory.res_payoffs r = [Some 2; Some 2] /\
     (1 <= GameTheory.res_iterations r <= 3)%nat) /\
  GameTheory.payoffs (GameTheory.federationDilemmaConfig its)
  = GameTheory.payoffs
      (GameTheory.constructor
         {| GameTheory.p_players := None; GameTheory.p_strategies := None;
            GameTheory.p_payoffs := None; GameTheory.p_iterations := None |}).
Proof.
  intros Hits Hrnd. split; [|reflexivity].
  destruct (two_by_two_initial (GameTheory.federationDilemmaConfig its) rnd
              Hrnd eq_refl eq_refl) as (Hf & Ha & Hb).
  unfold GameTheory.federationDilemma, GameTheory.simulate.
  rewrite Hf. clear Hf. revert Ha Hb.
  generalize (floor_index (rnd 0%nat) 2), (floor_index (rnd 1%nat) 2).
  intros a b Ha Hb.
  assert (a = 0 \/ a = 1)%nat as Ea by lia.
  assert (b = 0 \/ b = 1)%nat as Eb by lia.
  destruct its as [|[|[|its]]]; [lia| | |];
    destruct Ea as [-> | ->]; destruct Eb as [-> | ->];
    (eexists; (split; [vm_compute; reflexivity|]);
     simpl; repeat split; lia).
Qed.

Lemma federationDilemma_hoard_hoard_witness :
  exists r,
    GameTheory.federationDilemma 100 (fun _ => 0) = Normal r /\
    GameTheory.equilibrium r
    = [Some "Hoard Data"; Some "Hoard Data"]%string /\
    GameTheory.res_payoffs r = [Some 2; Some 2] /\
    (1 <= GameTheory.res_iterations r <= 3)%nat.
Proof.
  apply (federationDilemma_hoard_hoard 100 (fun _ => 0)).
  - lia.
  - intros i. lra.
Defined.
